(** * lbrytv-player: the stream reader and the HTTP request handler

    A shallow embedding of [player/stream.go] (the [Stream] type with
    [PrepareForReading], [setSize], [Seek], [Read], [readFromChunks],
    [RemoveChunk], [GetChunk], [prefetchChunk]) and of the request handler
    ([Handle], [writeHeaders], [processStreamError]).

    Conventions.
    - Go's [int], [int64] and [uint64] are [Z] with the wrap-around written
      out ([wrap_int64], [wrap_uint64]).
    - Go strings and byte slices are [string]s (sequences of bytes).
    - A method on [*Stream] is a computation in the monad [M]: it threads the
      receiver, the blob source, the response writer and a log of the calls
      made to the collaborators, and it may panic (nil dereference, index out
      of range).
    - Code of the repository that the files above call but do not define (the
      blob source, the chunk reader, the range arithmetic, the player's
      resolver) is an interface the development is parametric in.
    - Logging, metrics labels and Sentry breadcrumbs are not modelled. *)

From Stdlib Require Import ZArith Lia Bool List String Ascii DecimalString
  Floats.
From stdpp Require Import base option list gmap strings.

Local Open Scope Z_scope.

(** ** Machine integers *)

Definition wrap_uint64 (z : Z) : Z := z mod 2 ^ 64.
Definition wrap_int64 (z : Z) : Z := (z + 2 ^ 63) mod 2 ^ 64 - 2 ^ 63.

Definition MaxInt64 : Z := 2 ^ 63 - 1.

(** [float64(x)] for an integer [x >= 0]: the nearest float with a 53-bit
    significand, ties to even.  Every such float is itself an integer, so the
    float is represented by its value. *)
Definition round_to_float64 (n : Z) : Z :=
  let k := Z.log2 n + 1 in
  if k <=? 53 then n
  else
    let sh := k - 53 in
    let q := Z.shiftr n sh in
    let r := n - Z.shiftl q sh in
    let half := Z.shiftl 1 (sh - 1) in
    let q' := if (half <? r) || ((r =? half) && Z.odd q) then q + 1 else q in
    Z.shiftl q' sh.

(** [float64(x)] for [x : int64]. *)
Definition float64_of_int64 (x : Z) : Z := Z.sgn x * round_to_float64 (Z.abs x).
(** [math.Abs] on a float that is an integer. *)
Definition math_Abs (f : Z) : Z := Z.abs f.
(** [uint64(f)] for a float [f] with an integral value in range. *)
Definition uint64_of_float64 (f : Z) : Z := wrap_uint64 f.

(** ** Errors *)

(** The package-level error values ([errPaidStream], ...) are declared
    outside the files embedded here; [io.EOF] is the standard library's. *)
Inductive sentinel :=
| PaidStream | StreamNotFound | StreamSizeZero | OutOfBounds
| SeekingBeforeStart | EOF.

Inductive error :=
| Sentinel (id : sentinel)
| errors_New (msg : string)
| Wrapped (msg : string) (cause : error).

Definition errPaidStream := Sentinel PaidStream.
Definition errStreamNotFound := Sentinel StreamNotFound.
Definition errStreamSizeZero := Sentinel StreamSizeZero.
Definition errOutOfBounds := Sentinel OutOfBounds.
Definition errSeekingBeforeStart := Sentinel SeekingBeforeStart.
Definition io_EOF := Sentinel EOF.

Definition sentinel_eqb (a b : sentinel) : bool :=
  match a, b with
  | PaidStream, PaidStream | StreamNotFound, StreamNotFound
  | StreamSizeZero, StreamSizeZero | OutOfBounds, OutOfBounds
  | SeekingBeforeStart, SeekingBeforeStart | EOF, EOF => true
  | _, _ => false
  end.

(** [errors.Is(err, target)] for a sentinel [target]: walk the [Unwrap]
    chain and compare by identity. *)
Fixpoint errors_Is (err : error) (target : sentinel) : bool :=
  match err with
  | Sentinel id => sentinel_eqb id target
  | errors_New _ => false
  | Wrapped _ cause => errors_Is cause target
  end.

(** ** The stream descriptor *)

Record BlobInfo := {
  Length : Z;
  BlobNum : Z;
  BlobHash : string;
  IV : string;
}.

Record SDBlob := {
  Key : string;
  BlobInfos : list BlobInfo;
}.

(** [stream.MaxBlobSize] of lbry.go: 2 MiB. *)
Definition MaxBlobSize : Z := 2097152.

Definition ReadableChunk := string.

(** [len(x)] as an [int]. *)
Definition len {A} (l : list A) : Z := Z.of_nat (length l).
Definition slen (s : string) : Z := Z.of_nat (String.length s).

(** [l[i]] for an [int] index: [None] stands for the run-time panic. *)
Definition index {A} (l : list A) (i : Z) : option A :=
  if i <? 0 then None else l !! Z.to_nat i.

(** [l[lo:hi]]: [None] stands for the run-time panic (the capacity of the
    slice is taken to be its length). *)
Definition slice {A} (l : list A) (lo hi : Z) : option (list A) :=
  if (lo <? 0) || (hi <? lo) || (len l <? hi) then None
  else Some (take (Z.to_nat (hi - lo)) (drop (Z.to_nat lo) l)).

(** [s[n:]] and [s[:n]] on strings, for [n] within the length. *)
Fixpoint string_drop (n : nat) (s : string) : string :=
  match n, s with
  | O, _ => s
  | S _, EmptyString => EmptyString
  | S n', String _ s' => string_drop n' s'
  end.

Fixpoint string_take (n : nat) (s : string) : string :=
  match n, s with
  | O, _ => EmptyString
  | S _, EmptyString => EmptyString
  | S n', String c s' => String c (string_take n' s')
  end.

Definition is_empty (s : string) : bool :=
  match s with EmptyString => true | _ => false end.

(** [strings.HasPrefix], [strings.Contains], [strings.LastIndex]. *)
Definition strings_HasPrefix (s prefix : string) : bool := String.prefix prefix s.

Fixpoint strings_Contains (s substr : string) : bool :=
  String.prefix substr s
  || match s with
     | EmptyString => false
     | String _ s' => strings_Contains s' substr
     end.

Fixpoint last_index_from (pos : Z) (s substr : string) : Z :=
  match s with
  | EmptyString => if String.prefix substr EmptyString then pos else -1
  | String _ s' =>
      let later := last_index_from (pos + 1) s' substr in
      if 0 <=? later then later
      else if String.prefix substr s then pos else -1
  end.

Definition strings_LastIndex (s substr : string) : Z :=
  last_index_from 0 s substr.

(** [hex.EncodeToString]. *)
Definition hexdigit (n : N) : ascii :=
  match n with
  | 0 => "0" | 1 => "1" | 2 => "2" | 3 => "3" | 4 => "4" | 5 => "5"
  | 6 => "6" | 7 => "7" | 8 => "8" | 9 => "9" | 10 => "a" | 11 => "b"
  | 12 => "c" | 13 => "d" | 14 => "e" | _ => "f"
  end%N%char.

Fixpoint hex_EncodeToString (src : string) : string :=
  match src with
  | EmptyString => EmptyString
  | String c rest =>
      let n := N_of_ascii c in
      String (hexdigit (N.div n 16)) (String (hexdigit (N.modulo n 16))
        (hex_EncodeToString rest))
  end.

(** ** The stream *)

Record Source := {
  src_Name : string;
  src_Size : Z;
  src_MediaType : string;
  src_SdHash : string;
}.

(** The protobuf getters are nil-safe. *)
Definition GetSize (src : option Source) : Z :=
  match src with Some x => src_Size x | None => 0 end.
Definition GetName (src : option Source) : string :=
  match src with Some x => src_Name x | None => EmptyString end.

Record Claim := {
  NormalizedName : string;
  Timestamp : Z;
  (** [claim.Value.GetStream() != nil] *)
  Value_has_stream : bool;
}.

Record Player := {
  prefetch : bool;
}.

Record Stream := {
  URI : string;
  Size : Z;
  ContentType : string;
  hash : string;
  prefetchedChunks : gmap Z bool;
  player : Player;
  claim : Claim;
  source : option Source;
  sdBlob : option SDBlob;
  seekOffset : Z;
}.

Definition with_Size (v : Z) (s : Stream) : Stream :=
  {| URI := URI s; Size := v; ContentType := ContentType s; hash := hash s;
     prefetchedChunks := prefetchedChunks s; player := player s;
     claim := claim s; source := source s; sdBlob := sdBlob s;
     seekOffset := seekOffset s |}.

Definition with_sdBlob (v : option SDBlob) (s : Stream) : Stream :=
  {| URI := URI s; Size := Size s; ContentType := ContentType s;
     hash := hash s; prefetchedChunks := prefetchedChunks s;
     player := player s; claim := claim s; source := source s; sdBlob := v;
     seekOffset := seekOffset s |}.

Definition with_seekOffset (v : Z) (s : Stream) : Stream :=
  {| URI := URI s; Size := Size s; ContentType := ContentType s;
     hash := hash s; prefetchedChunks := prefetchedChunks s;
     player := player s; claim := claim s; source := source s;
     sdBlob := sdBlob s; seekOffset := v |}.

Definition with_prefetchedChunks (v : gmap Z bool) (s : Stream) : Stream :=
  {| URI := URI s; Size := Size s; ContentType := ContentType s;
     hash := hash s; prefetchedChunks := v; player := player s;
     claim := claim s; source := source s; sdBlob := sdBlob s;
     seekOffset := seekOffset s |}.

(** ** Calls to the collaborators, and the HTTP response *)

Inductive Event :=
| EvGetSDBlob (h : string)
| EvGetChunk (h key iv : string)
| EvIsCached (h : string) (cached : bool)
| EvClearChunk (h : string)
| EvResolveStream (uri : string)
| EvVerifyAccess (token : string)
| EvPlay.

Inductive RespEvent :=
| WriteHeader (statusCode : Z)
| Write (body : string).

Definition StatusOK : Z := 200.
Definition StatusUnauthorized : Z := 401.
Definition StatusPaymentRequired : Z := 402.
Definition StatusNotFound : Z := 404.
Definition StatusGone : Z := 410.
Definition StatusInternalServerError : Z := 500.
Definition StatusServiceUnavailable : Z := 503.

(** [io.SeekStart], [io.SeekCurrent], [io.SeekEnd]. *)
Definition io_SeekStart : Z := 0.
Definition io_SeekCurrent : Z := 1.
Definition io_SeekEnd : Z := 2.

(** The blob source of the player ([s.player.blobSource]): an interface
    over its own state [BS]. *)
Class BlobSource (BS : Type) := {
  bs_GetSDBlob : string → BS → (option SDBlob * option error) * BS;
  bs_GetChunk :
    string → string → string → BS → (option ReadableChunk * option error) * BS;
  bs_IsCached : string → BS → bool * BS;
  bs_clearChuckFromCache : string → BS → option error * BS;
}.

(** The chunk range of a read. *)
Record streamRange := {
  FirstChunkIdx : Z;
  LastChunkIdx : Z;
  FirstChunkOffset : Z;
  LastChunkReadLen : Z;
}.

(** The range arithmetic and the chunk reader, and the two constants of the
    player package, all declared outside the files embedded here.
    [chunk_Read b offset n dest] is [b.Read(offset, n, dest)]: the number of
    bytes copied, the error, and the new contents of [dest]. *)
Class ChunkOps := {
  MaxChunkSize : Z;
  DefaultPrefetchLen : Z;
  getRange : Z → Z → streamRange;
  ByteRangeForChunk : streamRange → Z → Z * Z;
  chunk_Read : ReadableChunk → Z → Z → string → (Z * option error) * string;
}.

(** ** The monad of the methods *)

Inductive outcome (A : Type) :=
| Ok (a : A)
| Panic.
Arguments Ok {A} a.
Arguments Panic {A}.

Section Methods.
Context {BS : Type} {Src : BlobSource BS} {Ops : ChunkOps}.

Record St := {
  st_stream : Stream;
  st_bs : BS;
  st_trace : list Event;
  st_spawned : list Z;
  st_resp : list RespEvent;
  st_header : gmap string string;
  st_out_bytes : Z;
}.

Definition M (A : Type) : Type := St → outcome (A * St).

#[global] Instance M_ret : MRet M := λ A a st, Ok (a, st).
#[global] Instance M_bind : MBind M := λ A B f m st,
  match m st with
  | Ok (a, st') => f a st'
  | Panic => Panic
  end.

Definition panic {A} : M A := λ _, Panic.
Definition get : M St := λ st, Ok (st, st).
Definition modify (f : St → St) : M unit := λ st, Ok (tt, f st).

Definition upd_stream (f : Stream → Stream) (st : St) : St :=
  {| st_stream := f (st_stream st); st_bs := st_bs st;
     st_trace := st_trace st; st_spawned := st_spawned st;
     st_resp := st_resp st; st_header := st_header st;
     st_out_bytes := st_out_bytes st |}.

Definition upd_bs (b : BS) (evs : list Event) (st : St) : St :=
  {| st_stream := st_stream st; st_bs := b;
     st_trace := st_trace st ++ evs; st_spawned := st_spawned st;
     st_resp := st_resp st; st_header := st_header st;
     st_out_bytes := st_out_bytes st |}.

Definition upd_spawned (f : list Z → list Z) (st : St) : St :=
  {| st_stream := st_stream st; st_bs := st_bs st;
     st_trace := st_trace st; st_spawned := f (st_spawned st);
     st_resp := st_resp st; st_header := st_header st;
     st_out_bytes := st_out_bytes st |}.

Definition upd_resp (f : list RespEvent → list RespEvent) (st : St) : St :=
  {| st_stream := st_stream st; st_bs := st_bs st;
     st_trace := st_trace st; st_spawned := st_spawned st;
     st_resp := f (st_resp st); st_header := st_header st;
     st_out_bytes := st_out_bytes st |}.

Definition upd_header (f : gmap string string → gmap string string) (st : St)
  : St :=
  {| st_stream := st_stream st; st_bs := st_bs st;
     st_trace := st_trace st; st_spawned := st_spawned st;
     st_resp := st_resp st; st_header := f (st_header st);
     st_out_bytes := st_out_bytes st |}.

Definition upd_out_bytes (f : Z → Z) (st : St) : St :=
  {| st_stream := st_stream st; st_bs := st_bs st;
     st_trace := st_trace st; st_spawned := st_spawned st;
     st_resp := st_resp st; st_header := st_header st;
     st_out_bytes := f (st_out_bytes st) |}.

(** The receiver [s]. *)
Definition this : M Stream := λ st, Ok (st_stream st, st).

(** [s.sdBlob.BlobInfos] and [s.sdBlob.Key]: a nil [s.sdBlob] panics. *)
Definition the_sdBlob : M SDBlob := λ st,
  match sdBlob (st_stream st) with
  | Some sd => Ok (sd, st)
  | None => Panic
  end.

(** *** Seek *)

Definition Seek (offset whence : Z) : M (Z * option error) :=
  s ← this;
  if Size s =? 0 then mret (0, Some errStreamSizeZero)
  else if Size s <? uint64_of_float64 (math_Abs (float64_of_int64 offset))
  then mret (0, Some errOutOfBounds)
  else
    let resolved :=
      if whence =? io_SeekStart then Some offset
      else if whence =? io_SeekCurrent
      then Some (wrap_int64 (seekOffset s + offset))
      else if whence =? io_SeekEnd
      then Some (wrap_int64 (wrap_int64 (Size s) - offset))
      else None in
    match resolved with
    | None => mret (0, Some (errors_New "invalid seek whence argument"))
    | Some newOffset =>
        if newOffset <? 0 then mret (0, Some errSeekingBeforeStart)
        else
          _ ← modify (upd_stream (with_seekOffset newOffset));
          mret (newOffset, None)
    end.

(** *** Calls to the blob source, each recorded in the trace *)

Definition call_GetSDBlob (h : string) : M (option SDBlob * option error) :=
  λ st, let '(r, b) := bs_GetSDBlob h (st_bs st) in
        Ok (r, upd_bs b [EvGetSDBlob h] st).

Definition call_GetChunk (h key iv : string)
  : M (option ReadableChunk * option error) :=
  λ st, let '(r, b) := bs_GetChunk h key iv (st_bs st) in
        Ok (r, upd_bs b [EvGetChunk h key iv] st).

Definition call_IsCached (h : string) : M bool :=
  λ st, let '(r, b) := bs_IsCached h (st_bs st) in
        Ok (r, upd_bs b [EvIsCached h r] st).

Definition call_clearChuckFromCache (h : string) : M (option error) :=
  λ st, let '(r, b) := bs_clearChuckFromCache h (st_bs st) in
        Ok (r, upd_bs b [EvClearChunk h] st).

(** [len(chunk)] of a possibly nil chunk. *)
Definition chunk_len (c : option ReadableChunk) : Z :=
  match c with Some b => slen b | None => 0 end.

(** *** Size determination *)

Definition getStreamSizeFromLastBlobSize : M (Z * option error) :=
  s ← this;
  if negb (Value_has_stream (claim s))
  then mret (0, Some (errors_New "claim is not a stream"))
  else
    sd ← the_sdBlob;
    let numChunks := len (BlobInfos sd) - 1 in
    if numChunks <=? 0 then mret (0, None)
    else
      match index (BlobInfos sd) (numChunks - 1) with
      | None => panic
      | Some lastBlobInfo =>
          '(lastChunk, err) ←
            call_GetChunk (hex_EncodeToString (BlobHash lastBlobInfo))
                          (Key sd) (IV lastBlobInfo);
          match err with
          | Some e => mret (0, Some e)
          | None =>
              mret (wrap_uint64
                      (wrap_uint64 (wrap_uint64 MaxChunkSize
                                    * wrap_uint64 (numChunks - 1))
                       + wrap_uint64 (chunk_len lastChunk)), None)
          end
      end.

(** One iteration of the loop of [setSize] over the blob infos. *)
Definition heuristic_step (size : Z) (blob : BlobInfo) : Z :=
  if Length blob =? MaxBlobSize
  then wrap_uint64 (size + wrap_uint64 MaxChunkSize)
  else wrap_uint64 (size + wrap_uint64 (wrap_int64 (Length blob - 1))).

Definition setSize : M unit :=
  s ← this;
  if 0 <? Size s then mret tt
  else if 0 <? GetSize (source s)
  then modify (upd_stream (with_Size (GetSize (source s))))
  else
    '(size, err) ← getStreamSizeFromLastBlobSize;
    match err with
    | None => modify (upd_stream (with_Size size))
    | Some _ =>
        sd ← the_sdBlob;
        let size := fold_left heuristic_step (BlobInfos sd) size in
        (* last padding is unguessable *)
        let size := wrap_uint64 (size - 16) in
        modify (upd_stream (with_Size size))
    end.

Definition PrepareForReading : M (option error) :=
  s ← this;
  '(sd, err) ← call_GetSDBlob (hash s);
  match err with
  | Some e => mret (Some e)
  | None =>
      _ ← modify (upd_stream (with_sdBlob sd));
      _ ← setSize;
      mret None
  end.

(** *** Chunks *)

Definition errBlobIndex : error := errors_New "blob index out of bounds".

Definition RemoveChunk (chunkIdx : Z) : M (option error) :=
  sd ← the_sdBlob;
  if len (BlobInfos sd) <? chunkIdx then mret (Some errBlobIndex)
  else
    match index (BlobInfos sd) chunkIdx with
    | None => panic
    | Some bi => call_clearChuckFromCache (hex_EncodeToString (BlobHash bi))
    end.

(** [GetChunk] starts the goroutine [prefetchChunk chunkToPrefetch]: the
    index is appended to the list of spawned background tasks. *)
Definition GetChunk (chunkIdx : Z)
  : M (option ReadableChunk * option error) :=
  sd ← the_sdBlob;
  if len (BlobInfos sd) <? chunkIdx then mret (None, Some errBlobIndex)
  else
    match index (BlobInfos sd) chunkIdx with
    | None => panic
    | Some bi =>
        '(chunk, err) ←
          call_GetChunk (hex_EncodeToString (BlobHash bi)) (Key sd) (IV bi);
        match err, chunk with
        | Some _, _ | None, None => mret (None, err)
        | None, Some _ =>
            s ← this;
            let chunkToPrefetch := wrap_int64 (chunkIdx + 1) in
            let prefetched :=
              default false (prefetchedChunks s !! chunkToPrefetch) in
            _ ← (if prefetch (player s) && negb prefetched
                 then
                   _ ← modify (upd_stream (λ s, with_prefetchedChunks
                          (<[chunkToPrefetch := true]> (prefetchedChunks s))
                          s));
                   modify (upd_spawned (λ l, l ++ [chunkToPrefetch]))
                 else mret tt);
            mret (chunk, None)
        end
    end.

(** The body of the loop of [prefetchChunk], over the window of blob infos. *)
Fixpoint prefetch_loop (key : string) (window : list BlobInfo) : M unit :=
  match window with
  | [] => mret tt
  | bi :: rest =>
      let h := hex_EncodeToString (BlobHash bi) in
      cached ← call_IsCached h;
      if cached : bool then prefetch_loop key rest
      else
        '(_, err) ← call_GetChunk h key (IV bi);
        match err with
        | Some _ => mret tt
        | None => prefetch_loop key rest
        end
  end.

Definition prefetchChunk (chunkIdx : Z) : M unit :=
  sd ← the_sdBlob;
  (* Last blob is empty *)
  let chunksLeft := wrap_int64 (wrap_int64 (len (BlobInfos sd) - chunkIdx) - 1) in
  let prefetchLen :=
    if chunksLeft <? DefaultPrefetchLen then chunksLeft
    else DefaultPrefetchLen in
  if prefetchLen <=? 0 then mret tt
  else
    match slice (BlobInfos sd) chunkIdx (wrap_int64 (chunkIdx + prefetchLen))
    with
    | None => panic
    | Some window => prefetch_loop (Key sd) window
    end.

(** *** Read *)

(** The loop of [attemptReadFromChunks]; [fuel] is the number of iterations
    left, [sr.LastChunkIdx + 1 - i]. *)
Fixpoint attempt_loop (sr : streamRange) (fuel : nat) (i read : Z)
    (dest : string) : M (Z * Z * option error * string) :=
  match fuel with
  | O => mret (i, read, None, dest)
  | S fuel' =>
      let '(offset, readLen) := ByteRangeForChunk sr i in
      '(b, err) ← GetChunk i;
      match err with
      | Some e => mret (i, read, Some e, dest)
      | None =>
          if (read <? 0) || (slen dest <? read) then panic
          else
            let k := Z.to_nat read in
            let '(n, err, tail) :=
              chunk_Read (default EmptyString b) offset readLen
                         (string_drop k dest) in
            let dest := string_take k dest +:+ tail in
            let read := wrap_int64 (read + n) in
            match err with
            | Some e => mret (i, read, Some e, dest)
            | None => attempt_loop sr fuel' (i + 1) read dest
            end
      end
  end.

Definition attemptReadFromChunks (sr : streamRange) (dest : string)
  : M (Z * Z * option error * string) :=
  let i := FirstChunkIdx sr in
  attempt_loop sr (Z.to_nat (wrap_int64 (LastChunkIdx sr + 1) - i)) i 0 dest.

(** The loop [for i := 0; i < 2; i++] of [readFromChunks] with [iters]
    iterations left.  [read] is the variable declared before the loop; the
    [read] of the loop body is a variable of its own, declared by [:=]. *)
Fixpoint readFromChunks_loop (iters : nat) (read : Z) (sr : streamRange)
    (dest : string) : M (Z * option error * string) :=
  match iters with
  | O => mret (read, None, dest)
  | S iters' =>
      '(index, read', err, dest) ← attemptReadFromChunks sr dest;
      match err with
      | Some e => mret (read', Some e, dest)
      | None =>
          if 0 <? read' then mret (read, None, dest)
          else
            (* Dirty data likely - delete from cache and retry *)
            err ← RemoveChunk index;
            match err with
            | Some e => mret (read', Some e, dest)
            | None => readFromChunks_loop iters' read sr dest
            end
      end
  end.

Definition readFromChunks (sr : streamRange) (dest : string)
  : M (Z * option error * string) :=
  readFromChunks_loop 2 0 sr dest.

Definition Read (dest : string) : M (Z * option error * string) :=
  s ← this;
  '(n, err, dest) ← readFromChunks (getRange (seekOffset s) (slen dest)) dest;
  _ ← modify (upd_stream
                (λ s, with_seekOffset (wrap_int64 (seekOffset s + n)) s));
  _ ← modify (upd_out_bytes (λ c, c + n));
  mret (n, err, dest).

End Methods.

Arguments St : clear implicits.
Arguments M : clear implicits.

(** ** The request handler *)

(** *** Runes, the filename pattern and percent-encoding *)

Definition byte_val (c : ascii) : Z := Z.of_N (N_of_ascii c).
Definition RuneError : Z := 65533.
Definition is_cont (b : Z) : bool := (128 <=? b) && (b <=? 191).

(** [utf8.DecodeRuneInString]: the first rune of a string and its width in
    bytes; an invalid encoding is [RuneError] of width 1. *)
Definition utf8_DecodeRuneInString (s : string) : Z * nat :=
  match map byte_val (list_ascii_of_string (string_take 4 s)) with
  | [] => (RuneError, 0%nat)
  | b0 :: t =>
      if b0 <? 128 then (b0, 1%nat)
      else if (194 <=? b0) && (b0 <=? 223) then
        match t with
        | b1 :: _ =>
            if is_cont b1 then ((b0 - 192) * 64 + (b1 - 128), 2%nat)
            else (RuneError, 1%nat)
        | _ => (RuneError, 1%nat)
        end
      else if (224 <=? b0) && (b0 <=? 239) then
        match t with
        | b1 :: b2 :: _ =>
            if ((if b0 =? 224 then 160 else 128) <=? b1)
               && (b1 <=? (if b0 =? 237 then 159 else 191)) && is_cont b2
            then ((b0 - 224) * 4096 + (b1 - 128) * 64 + (b2 - 128), 3%nat)
            else (RuneError, 1%nat)
        | _ => (RuneError, 1%nat)
        end
      else if (240 <=? b0) && (b0 <=? 244) then
        match t with
        | b1 :: b2 :: b3 :: _ =>
            if ((if b0 =? 240 then 144 else 128) <=? b1)
               && (b1 <=? (if b0 =? 244 then 143 else 191))
               && is_cont b2 && is_cont b3
            then ((b0 - 240) * 262144 + (b1 - 128) * 4096
                  + (b2 - 128) * 64 + (b3 - 128), 4%nat)
            else (RuneError, 1%nat)
        | _ => (RuneError, 1%nat)
        end
      else (RuneError, 1%nat)
  end.

(** The runes of a string, each with the bytes that encode it. *)
Fixpoint decode_runes (fuel : nat) (s : string) : list (Z * string) :=
  match fuel with
  | O => []
  | S fuel' =>
      match s with
      | EmptyString => []
      | String _ _ =>
          let '(r, w) := utf8_DecodeRuneInString s in
          (r, string_take w s) :: decode_runes fuel' (string_drop w s)
      end
  end.

Definition runes (s : string) : list (Z * string) :=
  decode_runes (String.length s) s.

(** [regexp.ReplaceAllString] for a pattern [[^C]+], [keep] being the class
    [C]: every maximal run of runes outside the class is replaced by [repl].
    [in_match] tells that the previous rune belongs to the current match. *)
Fixpoint replace_runs (keep : Z → bool) (repl : string) (in_match : bool)
    (rs : list (Z * string)) : string :=
  match rs with
  | [] => EmptyString
  | (r, bytes) :: rest =>
      if keep r then bytes +:+ replace_runs keep repl false rest
      else (if in_match then EmptyString else repl)
           +:+ replace_runs keep repl true rest
  end.

Definition ReplaceAllString (keep : Z → bool) (src repl : string) : string :=
  replace_runs keep repl false (runes src).

Definition is_digit (r : Z) : bool := (48 <=? r) && (r <=? 57).
Definition is_ascii_letter (r : Z) : bool :=
  ((65 <=? r) && (r <=? 90)) || ((97 <=? r) && (r <=? 122)).

(** [url.PathEscape]: [shouldEscape] in the mode of a path segment. *)
Definition shouldEscape (c : Z) : bool :=
  if is_ascii_letter c || is_digit c then false
  else if (c =? 45) || (c =? 95) || (c =? 46) || (c =? 126) then false
  else if (c =? 36) || (c =? 38) || (c =? 43) || (c =? 58) || (c =? 61)
          || (c =? 64) then false
  else true.

Definition upperhex (n : N) : ascii :=
  match n with
  | 0 => "0" | 1 => "1" | 2 => "2" | 3 => "3" | 4 => "4" | 5 => "5"
  | 6 => "6" | 7 => "7" | 8 => "8" | 9 => "9" | 10 => "A" | 11 => "B"
  | 12 => "C" | 13 => "D" | 14 => "E" | _ => "F"
  end%N%char.

Fixpoint url_PathEscape (s : string) : string :=
  match s with
  | EmptyString => EmptyString
  | String c rest =>
      if shouldEscape (byte_val c)
      then String "%" (String (upperhex (N.div (N_of_ascii c) 16))
             (String (upperhex (N.modulo (N_of_ascii c) 16))
                (url_PathEscape rest)))
      else String c (url_PathEscape rest)
  end.

(** [fmt.Sprintf("%v", n)] for an unsigned integer. *)
Definition fmt_uint (n : Z) : string :=
  DecimalString.NilZero.string_of_uint (N.to_uint (Z.to_N n)).

Definition dquote : string := String (ascii_of_nat 34) EmptyString.

(** *** Requests *)

Record Request := {
  Method : string;
  (** [r.URL.String()] *)
  URL_String : string;
  (** [r.URL.Query()], the decoded pairs in the order of the query string *)
  URL_Query : list (string * string);
  (** [mux.Vars(r)] *)
  Vars : gmap string string;
}.

(** [url.Values.Get]: the first value of the key, or the empty string. *)
Fixpoint Query_Get (q : list (string * string)) (key : string) : string :=
  match q with
  | [] => EmptyString
  | (k, v) :: rest => if String.eqb k key then v else Query_Get rest key
  end.

(** [vars[key]] on a Go map: the zero value when the key is missing. *)
Definition var (r : Request) (key : string) : string :=
  default EmptyString (Vars r !! key).

Definition paramDownload : string := "download".
Definition SpeechPrefix : string := "/speech/".
Definition MethodHead : string := "HEAD".
Definition MethodGet : string := "GET".

(** What the handler uses and the embedded files do not define: the player's
    resolver, access check and playback, the process environment, the
    formatting of the modification time, the MIME table, the Unicode category
    L, and the texts of the package's error values. *)
Class HandlerOps (BS : Type) := {
  ResolveStream : string → BS → (Stream + error) * BS;
  VerifyAccess : Stream → string → BS → option error * BS;
  Play : Request → M BS (option error);
  os_Getenv : string → string;
  os_Hostname : string * option error;
  format_http_time : Z → string;
  mime_GetExtensionByType : string → string;
  unicode_IsLetter : Z → bool;
  sentinel_text : sentinel → string;
}.

Section Handler.
Context {BS : Type} {Src : BlobSource BS} {Ops : ChunkOps}
        {HOps : HandlerOps BS}.

(** [err.Error()]. *)
Definition Error (err : error) : string :=
  match err with
  | Sentinel id => sentinel_text id
  | errors_New msg => msg
  | Wrapped msg _ => msg
  end.

(** [Stream.Filename]. *)
Definition Filename (s : Stream) : string :=
  let name := GetName (source s) in
  if negb (is_empty name) then name
  else
    let name := NormalizedName (claim s) in
    let ext := mime_GetExtensionByType (ContentType s) in
    if is_empty ext then name else name +:+ "." +:+ ext.

(** The class [[\p{L}\d\-\._ ]] of the pattern of [writeHeaders]. *)
Definition filename_class (r : Z) : bool :=
  unicode_IsLetter r || is_digit r
  || (r =? 45) || (r =? 46) || (r =? 95) || (r =? 32).

Definition w_WriteHeader (statusCode : Z) : M BS unit :=
  modify (upd_resp (λ l, l ++ [WriteHeader statusCode])).
Definition w_Write (body : string) : M BS unit :=
  modify (upd_resp (λ l, l ++ [Write body])).
Definition header_Set (key value : string) : M BS unit :=
  modify (upd_header (λ h, <[key := value]> h)).

Definition writeHeaders (r : Request) : M BS unit :=
  let playerName := os_Getenv "PLAYER_NAME" in
  let playerName :=
    if is_empty playerName then
      match os_Hostname with
      | (_, Some _) => "unknown-player"
      | (name, None) => name
      end
    else playerName in
  s ← this;
  _ ← header_Set "Content-Length" (fmt_uint (Size s));
  _ ← header_Set "Content-Type" (ContentType s);
  _ ← header_Set "Cache-Control" "public, max-age=31536000";
  _ ← header_Set "Last-Modified"
        (format_http_time (wrap_int64 (Timestamp (claim s))));
  _ ← header_Set "X-Powered-By" playerName;
  _ ← header_Set "Access-Control-Expose-Headers" "X-Powered-By";
  if negb (is_empty (Query_Get (URL_Query r) paramDownload)) then
    let filename := ReplaceAllString filename_class (Filename s) "" in
    header_Set "Content-Disposition"
      ("attachment; filename=" +:+ dquote +:+ filename +:+ dquote
       +:+ "; filename*=UTF-8''" +:+ url_PathEscape filename)
  else mret tt.

Definition writeErrorResponse (statusCode : Z) (msg : string) : M BS unit :=
  _ ← w_WriteHeader statusCode;
  w_Write msg.

Definition processStreamError (errorType uri : string) (r : Request)
    (err : error) : M BS unit :=
  if errors_Is err PaidStream
  then writeErrorResponse StatusPaymentRequired (Error err)
  else if errors_Is err StreamNotFound
  then writeErrorResponse StatusNotFound (Error err)
  else if strings_Contains (Error err) "blob not found"
  then writeErrorResponse StatusServiceUnavailable (Error err)
  else if strings_Contains (Error err) "hash in response does not match"
  then writeErrorResponse StatusServiceUnavailable (Error err)
  else if strings_Contains (Error err)
            "token contains an invalid number of segments"
  then writeErrorResponse StatusUnauthorized (Error err)
  else if strings_Contains (Error err) "crypto/rsa: verification error"
  then writeErrorResponse StatusUnauthorized (Error err)
  else if strings_Contains (Error err) "token is expired"
  then writeErrorResponse StatusGone (Error err)
  else writeErrorResponse StatusInternalServerError (Error err).

Definition call_ResolveStream (uri : string) : M BS (Stream + error) :=
  λ st, let '(r, b) := ResolveStream uri (st_bs st) in
        Ok (r, upd_bs b [EvResolveStream uri] st).

Definition call_VerifyAccess (s : Stream) (token : string)
  : M BS (option error) :=
  λ st, let '(r, b) := VerifyAccess s token (st_bs st) in
        Ok (r, upd_bs b [EvVerifyAccess token] st).

Definition call_Play (r : Request) : M BS (option error) :=
  _ ← modify (λ st, upd_bs (st_bs st) [EvPlay] st);
  Play r.

(** The part of [Handle] that follows [h.player.ResolveStream(uri)]: the
    stream that the resolver returns becomes the receiver of the methods. *)
Definition respond (r : Request) (uri token : string) (res : Stream + error)
  : M BS unit :=
  match res with
  | inr err => processStreamError "resolve" uri r err
  | inl s =>
      _ ← modify (upd_stream (λ _, s));
      err ← call_VerifyAccess s token;
      match err with
      | Some e => processStreamError "access" uri r e
      | None =>
          err ← PrepareForReading;
          match err with
          | Some e => processStreamError "retrieval" uri r e
          | None =>
              _ ← writeHeaders r;
              if String.eqb (Method r) MethodHead
              then w_WriteHeader StatusOK
              else if String.eqb (Method r) MethodGet
              then
                err ← call_Play r;
                match err with
                | Some e => processStreamError "playback" uri r e
                | None => mret tt
                end
              else mret tt
          end
      end
  end.

Definition Handle (r : Request) : M BS unit :=
  let target :=
    if strings_HasPrefix (URL_String r) SpeechPrefix then
      let uri := string_drop (String.length SpeechPrefix) (URL_String r) in
      let extStart := strings_LastIndex uri "." in
      let uri :=
        if 0 <=? extStart then string_take (Z.to_nat extStart) uri else uri in
      if is_empty uri then None else Some (uri, EmptyString)
    else
      Some (var r "claim_name" +:+ "#" +:+ var r "claim_id", var r "token") in
  match target with
  | None => w_WriteHeader StatusNotFound
  | Some (uri, token) =>
      res ← call_ResolveStream uri;
      respond r uri token res
  end.

End Handler.

(** ** The operations a caller may run on a prepared stream *)

Inductive StreamOp :=
| OpSeek (offset whence : Z)
| OpRead (dest : string)
| OpGetChunk (chunkIdx : Z)
| OpRemoveChunk (chunkIdx : Z)
| OpPrefetchChunk (chunkIdx : Z)
| OpSetSize
| OpPrepareForReading.

Definition run_op {BS} `{BlobSource BS} `{ChunkOps} (op : StreamOp)
  : M BS unit :=
  match op with
  | OpSeek offset whence => _ ← Seek offset whence; mret tt
  | OpRead dest => _ ← Read dest; mret tt
  | OpGetChunk i => _ ← GetChunk i; mret tt
  | OpRemoveChunk i => _ ← RemoveChunk i; mret tt
  | OpPrefetchChunk i => prefetchChunk i
  | OpSetSize => setSize
  | OpPrepareForReading => _ ← PrepareForReading; mret tt
  end.

(** ** What the specification says, for comparison with the code *)

(** The contribution of a blob info to the heuristic sum. *)
Definition contribution `{ChunkOps} (blob : BlobInfo) : Z :=
  if Length blob =? MaxBlobSize then MaxChunkSize else Length blob - 1.

Definition heuristic_sum `{ChunkOps} (infos : list BlobInfo) : Z :=
  foldr (λ blob acc, contribution blob + acc) 0 infos.

(** The size after [PrepareForReading] by the precedence of the
    specification, in unsigned 64-bit arithmetic: [size0] is the size before
    the call, [srcSize] the size of the claim's source, [lastChunk] the
    length of the last chunk before the terminator when it can be fetched and
    decrypted. *)
Definition claimed_Size `{ChunkOps} (size0 srcSize : Z) (lastChunk : option Z)
    (infos : list BlobInfo) : Z :=
  if 0 <? size0 then size0
  else if 0 <? srcSize then srcSize
  else
    match lastChunk with
    | Some l => wrap_uint64 (MaxChunkSize * (len infos - 2) + l)
    | None => wrap_uint64 (heuristic_sum infos - 16)
    end.

(** The status of [processStreamError] by the table of the specification. *)
Definition claimed_status `{HandlerOps BS} (err : error) : Z :=
  if errors_Is err PaidStream then 402
  else if errors_Is err StreamNotFound then 404
  else if strings_Contains (Error err) "blob not found"
          || strings_Contains (Error err) "hash in response does not match"
  then 503
  else if strings_Contains (Error err)
            "token contains an invalid number of segments"
          || strings_Contains (Error err) "crypto/rsa: verification error"
  then 401
  else if strings_Contains (Error err) "token is expired" then 410
  else 500.

(** A name with every rune outside the class deleted. *)
Fixpoint string_concat (l : list string) : string :=
  match l with
  | [] => EmptyString
  | x :: rest => x +:+ string_concat rest
  end.

Definition delete_outside (keep : Z → bool) (name : string) : string :=
  string_concat (map snd (filter (λ p, keep (fst p) = true) (runes name))).

(** A prefetch trace in which every fetch directly follows a negative
    answer of [IsCached] for the same hash. *)
Fixpoint well_guarded (evs : list Event) : bool :=
  match evs with
  | [] => true
  | EvIsCached _ true :: rest => well_guarded rest
  | EvIsCached h false :: rest =>
      match rest with
      | [] => true
      | EvGetChunk h' _ _ :: rest' => String.eqb h h' && well_guarded rest'
      | _ => well_guarded rest
      end
  | _ => false
  end.

(** The event is a call for the blob info at an index of the prefetch
    window after chunk [i]. *)
Definition in_window `{ChunkOps} (sd : SDBlob) (i : Z) (ev : Event) : Prop :=
  ∃ j bj,
    i + 1 <= j < i + 1 + DefaultPrefetchLen ∧ j < len (BlobInfos sd) - 1 ∧
    index (BlobInfos sd) j = Some bj ∧
    (ev = EvGetChunk (hex_EncodeToString (BlobHash bj)) (Key sd) (IV bj)
     ∨ ∃ c, ev = EvIsCached (hex_EncodeToString (BlobHash bj)) c).

(** ** Auxiliary notions of the proofs *)

Section Auxiliary.
Context {BS : Type} {Src : BlobSource BS} {Ops : ChunkOps}.

(** What [GetChunk] does with the chunk that the blob source returns. *)
Definition after_fetch (chunkIdx : Z)
    (r : option ReadableChunk * option error)
  : M BS (option ReadableChunk * option error) :=
  let '(chunk, err) := r in
  match err, chunk with
  | Some _, _ | None, None => mret (None, err)
  | None, Some _ =>
      s ← this;
      let chunkToPrefetch := wrap_int64 (chunkIdx + 1) in
      let prefetched :=
        default false (prefetchedChunks s !! chunkToPrefetch) in
      _ ← (if prefetch (player s) && negb prefetched
           then
             _ ← modify (upd_stream (λ s, with_prefetchedChunks
                    (<[chunkToPrefetch := true]> (prefetchedChunks s)) s));
             modify (upd_spawned (λ l, l ++ [chunkToPrefetch]))
           else mret tt);
      mret (chunk, None)
  end.

(** The outcomes of [getStreamSizeFromLastBlobSize]. *)
Inductive last_blob_result (st : St BS) : Z → option error → St BS → Prop :=
| lb_not_a_stream :
    Value_has_stream (claim (st_stream st)) = false →
    last_blob_result st 0 (Some (errors_New "claim is not a stream")) st
| lb_no_content sd :
    Value_has_stream (claim (st_stream st)) = true →
    sdBlob (st_stream st) = Some sd →
    len (BlobInfos sd) <= 1 →
    last_blob_result st 0 None st
| lb_fetch sd last chunk e b :
    Value_has_stream (claim (st_stream st)) = true →
    sdBlob (st_stream st) = Some sd →
    2 <= len (BlobInfos sd) →
    index (BlobInfos sd) (len (BlobInfos sd) - 2) = Some last →
    bs_GetChunk (hex_EncodeToString (BlobHash last)) (Key sd) (IV last)
      (st_bs st) = ((chunk, e), b) →
    last_blob_result st
      (match e with
       | None => wrap_uint64 (MaxChunkSize * (len (BlobInfos sd) - 2)
                              + chunk_len chunk)
       | Some _ => 0
       end)
      e
      (upd_bs b [EvGetChunk (hex_EncodeToString (BlobHash last)) (Key sd)
                   (IV last)] st).

(** A method relates the state before to the state after by [R]. *)
Definition respects {A} (R : relation (St BS)) (m : M BS A) : Prop :=
  ∀ st a st', m st = Ok (a, st') → R st st'.

(** The size of the stream is the same in both states. *)
Definition same_Size (st st' : St BS) : Prop :=
  Size (st_stream st') = Size (st_stream st).

(** The stream, the spawned tasks and the response are the same: only the
    blob source and the trace differ. *)
Definition same_request (st st' : St BS) : Prop :=
  st_stream st' = st_stream st ∧ st_spawned st' = st_spawned st
  ∧ st_resp st' = st_resp st ∧ st_header st' = st_header st
  ∧ st_out_bytes st' = st_out_bytes st.

(** Only [setSize] and [PrepareForReading] assign the size. *)
Definition is_sizing (op : StreamOp) : bool :=
  match op with
  | OpSetSize | OpPrepareForReading => true
  | _ => false
  end.

(** The calls of a prefetch over a window of blob infos. *)
Definition window_event (key : string) (window : list BlobInfo) (ev : Event)
  : Prop :=
  ∃ bi, bi ∈ window
    ∧ (ev = EvGetChunk (hex_EncodeToString (BlobHash bi)) key (IV bi)
       ∨ ∃ c, ev = EvIsCached (hex_EncodeToString (BlobHash bi)) c).

(** Every error that the blob source and the chunk reader return is in [P]. *)
Definition collaborators_return (P : error → Prop) : Prop :=
  (∀ h key iv b r e b', bs_GetChunk h key iv b = ((r, Some e), b') → P e)
  ∧ (∀ h b e b', bs_clearChuckFromCache h b = (Some e, b') → P e)
  ∧ (∀ c offset n dest k e dest',
       chunk_Read c offset n dest = ((k, Some e), dest') → P e).

End Auxiliary.

(** ** The prefetch task, call by call *)

(** A call of a background task to the blob source, with its answer. *)
Inductive Call :=
| AskCached (h : string) (cached : bool)
| Fetch (h key iv : string) (err : option error).

Definition call_event (c : Call) : Event :=
  match c with
  | AskCached h cached => EvIsCached h cached
  | Fetch h key iv _ => EvGetChunk h key iv
  end.

(** A task: its next call to the blob source, and how it goes on from the
    answer. *)
Inductive Task :=
| TDone
| TIsCached (h : string) (k : bool → Task)
| TGetChunk (h key iv : string) (k : option error → Task).

(** The loop of [prefetchChunk] over its window as a task: other goroutines
    may call the blob source between two calls of it. *)
Fixpoint prefetch_task (key : string) (window : list BlobInfo) : Task :=
  match window with
  | [] => TDone
  | bi :: rest =>
      let h := hex_EncodeToString (BlobHash bi) in
      TIsCached h
        (λ cached : bool,
           if cached then prefetch_task key rest
           else
             TGetChunk h key (IV bi)
               (λ err : option error,
                  match err with
                  | Some _ => TDone
                  | None => prefetch_task key rest
                  end))
  end.

(** What the specification says of the prefetch after chunk [i]: the window
    starts at [i + 1], is [DefaultPrefetchLen] long and is clipped before
    the terminator. *)
Definition claimed_window `{ChunkOps} (sd : SDBlob) (i : Z) : list BlobInfo :=
  let first := i + 1 in
  let before_terminator := len (BlobInfos sd) - 1 - first in
  take (Z.to_nat (Z.min DefaultPrefetchLen before_terminator))
    (drop (Z.to_nat first) (BlobInfos sd)).

(** What the specification says of the calls of the task: the blob infos of
    the window are taken in order; each is asked for with [IsCached]; one
    that is cached is not fetched; one that is not is fetched next; and a
    fetch that fails is the last call of the task. *)
Inductive claimed_calls (key : string) : list BlobInfo → list Call → Prop :=
| claimed_end : claimed_calls key [] []
| claimed_cached bi rest calls :
    claimed_calls key rest calls →
    claimed_calls key (bi :: rest)
      (AskCached (hex_EncodeToString (BlobHash bi)) true :: calls)
| claimed_fetched bi rest calls :
    claimed_calls key rest calls →
    claimed_calls key (bi :: rest)
      (AskCached (hex_EncodeToString (BlobHash bi)) false
       :: Fetch (hex_EncodeToString (BlobHash bi)) key (IV bi) None :: calls)
| claimed_failed bi rest e :
    claimed_calls key (bi :: rest)
      [AskCached (hex_EncodeToString (BlobHash bi)) false;
       Fetch (hex_EncodeToString (BlobHash bi)) key (IV bi) (Some e)].

Section Tasks.
Context {BS : Type} {Src : BlobSource BS}.

(** A task that runs without another call in between. *)
Fixpoint run_task (t : Task) : M BS unit :=
  match t with
  | TDone => mret tt
  | TIsCached h k => cached ← call_IsCached h; run_task (k cached)
  | TGetChunk h key iv k =>
      '(_, err) ← call_GetChunk h key iv;
      run_task (k err)
  end.

(** The calls of a task that runs beside others: each call is answered by
    the blob source in the state that it is in by then. *)
Inductive task_calls : Task → list Call → Prop :=
| task_done : task_calls TDone []
| task_asks h k b cached b1 calls :
    bs_IsCached h b = (cached, b1) →
    task_calls (k cached) calls →
    task_calls (TIsCached h k) (AskCached h cached :: calls)
| task_fetches h key iv k b r err b1 calls :
    bs_GetChunk h key iv b = ((r, err), b1) →
    task_calls (k err) calls →
    task_calls (TGetChunk h key iv k) (Fetch h key iv err :: calls).

(** The answers of the calls are those of the blob source, one call after
    the other from the state [b] to the state [b']. *)
Fixpoint answered_by (calls : list Call) (b b' : BS) : Prop :=
  match calls with
  | [] => b' = b
  | AskCached h cached :: rest =>
      ∃ b1, bs_IsCached h b = (cached, b1) ∧ answered_by rest b1 b'
  | Fetch h key iv err :: rest =>
      ∃ r b1, bs_GetChunk h key iv b = ((r, err), b1) ∧ answered_by rest b1 b'
  end.

End Tasks.

(** ** A blob source in memory, and the helpers as the specification
    describes them *)

Module Fixture.

Record Mem := {
  m_sd : option SDBlob;
  m_blobs : list (string * ReadableChunk);
  m_hot : list string;
}.

Fixpoint assoc (l : list (string * ReadableChunk)) (h : string)
  : option ReadableChunk :=
  match l with
  | [] => None
  | (k, v) :: rest => if String.eqb k h then Some v else assoc rest h
  end.

Definition mem_hot (h : string) (l : list string) : bool :=
  existsb (String.eqb h) l.

Definition errBlobNotFound : error := errors_New "blob not found".

#[export] Instance MemSource : BlobSource Mem := {
  bs_GetSDBlob h m :=
    match m_sd m with
    | Some sd => ((Some sd, None), m)
    | None => ((None, Some errBlobNotFound), m)
    end;
  bs_GetChunk h key iv m :=
    match assoc (m_blobs m) h with
    | Some c =>
        ((Some c, None),
         {| m_sd := m_sd m; m_blobs := m_blobs m; m_hot := h :: m_hot m |})
    | None => ((None, Some errBlobNotFound), m)
    end;
  bs_IsCached h m := (mem_hot h (m_hot m), m);
  bs_clearChuckFromCache h m :=
    (None,
     {| m_sd := m_sd m; m_blobs := m_blobs m;
        m_hot := List.filter (λ k, negb (String.eqb h k)) (m_hot m) |});
}.

(** Modelled from the spec: [MaxChunkSize] is declared outside the embedded
    files; section 3 gives the maximum plaintext size as 2 MiB - 16 B. *)
Definition spec_MaxChunkSize : Z := 2097136.

(** Modelled from the spec: [DefaultPrefetchLen] is declared outside the
    embedded files; section 4.E gives the default window as 5. *)
Definition spec_DefaultPrefetchLen : Z := 5.

(** Modelled from the spec: [getRange] is defined outside the embedded
    files; section 4.E, Read, step 1 gives the range of a read of [L] bytes
    at offset [O]. *)
Definition spec_getRange (O L : Z) : streamRange :=
  let lastChunk := (O + L - 1) / spec_MaxChunkSize in
  {| FirstChunkIdx := O / spec_MaxChunkSize;
     LastChunkIdx := lastChunk;
     FirstChunkOffset := O mod spec_MaxChunkSize;
     LastChunkReadLen := (O + L) - lastChunk * spec_MaxChunkSize |}.

(** Modelled from the spec: [ByteRangeForChunk] is defined outside the
    embedded files; section 4.E, Read, step 2 copies from each chunk of the
    range its byte slice: from the first chunk offset in the first chunk,
    up to the last chunk read length in the last one. *)
Definition spec_ByteRangeForChunk (sr : streamRange) (i : Z) : Z * Z :=
  let offset := if i =? FirstChunkIdx sr then FirstChunkOffset sr else 0 in
  let upto :=
    if i =? LastChunkIdx sr then LastChunkReadLen sr else spec_MaxChunkSize in
  (offset, upto - offset).

(** Modelled from the spec: [ReadableChunk.Read] is defined outside the
    embedded files; section 4.D: it copies at most
    [min(maxLen, len - offset)] bytes from the chunk into [dest] starting at
    position 0 of [dest], and fails [OutOfBounds] if [offset >= len]. *)
Definition spec_chunk_Read (b : ReadableChunk) (offset maxLen : Z)
    (dest : string) : (Z * option error) * string :=
  if (offset <? 0) || (slen b <=? offset) then ((0, Some errOutOfBounds), dest)
  else
    let n := Z.to_nat (Z.min (Z.min maxLen (slen b - offset)) (slen dest)) in
    ((Z.of_nat n, None),
     string_take n (string_drop (Z.to_nat offset) b) +:+ string_drop n dest).

#[export] Instance SpecOps : ChunkOps := {
  MaxChunkSize := spec_MaxChunkSize;
  DefaultPrefetchLen := spec_DefaultPrefetchLen;
  getRange := spec_getRange;
  ByteRangeForChunk := spec_ByteRangeForChunk;
  chunk_Read := spec_chunk_Read;
}.

Definition blob (length : Z) (num : Z) (h iv : string) : BlobInfo :=
  {| Length := length; BlobNum := num; BlobHash := h; IV := iv |}.

(** The terminator of a descriptor with [n] content blobs. *)
Definition terminator (n : Z) : BlobInfo := blob 0 n "" "T".

Definition a_claim : Claim :=
  {| NormalizedName := "my-movie"; Timestamp := 1600000000;
     Value_has_stream := true |}.

Definition a_source (size : Z) : Source :=
  {| src_Name := "My Movie!"; src_Size := size; src_MediaType := "video/mp4";
     src_SdHash := "s" |}.

(** A stream as [NewStream] returns it, with the size of the claim's
    source. *)
Definition a_stream (size : Z) : Stream :=
  {| URI := "my-movie#abc"; Size := size; ContentType := "video/mp4";
     hash := "73"; prefetchedChunks := ∅; player := {| prefetch := true |};
     claim := a_claim; source := Some (a_source size); sdBlob := None;
     seekOffset := 0 |}.

Definition state (s : Stream) (m : Mem) : St Mem :=
  {| st_stream := s; st_bs := m; st_trace := []; st_spawned := [];
     st_resp := []; st_header := ∅; st_out_bytes := 0 |}.

(** A descriptor with the terminator only. *)
Definition sd_empty : SDBlob := {| Key := "K"; BlobInfos := [terminator 0] |}.

(** The descriptor of the end-to-end scenario 1 of the specification. *)
Definition sd_three : SDBlob :=
  {| Key := "K";
     BlobInfos := [blob 2097136 0 "a" "A"; blob 2097136 1 "b" "B";
                   blob 5000 2 "c" "C"; terminator 3] |}.


(** A store that has the descriptor and none of the content blobs. *)
Definition mem_without_blobs (sd : SDBlob) : Mem :=
  {| m_sd := Some sd; m_blobs := []; m_hot := [] |}.

(** A store with three small chunks, the second one hot. *)
Definition sd_small : SDBlob :=
  {| Key := "K";
     BlobInfos := [blob 6 0 "a" "A"; blob 6 1 "b" "B"; blob 6 2 "c" "C";
                   terminator 3] |}.

Definition mem_small : Mem :=
  {| m_sd := Some sd_small;
     m_blobs := [("61", "hello"); ("62", "world"); ("63", "again")];
     m_hot := ["62"] |}.

(** A stream of one chunk of five bytes. *)
Definition sd_hello : SDBlob :=
  {| Key := "K"; BlobInfos := [blob 16 0 "a" "A"; terminator 1] |}.

Definition mem_hello : Mem :=
  {| m_sd := Some sd_hello; m_blobs := [("61", "hello")]; m_hot := [] |}.

Definition with_seek (sd : SDBlob) (offset : Z) (s : Stream) : Stream :=
  with_seekOffset offset (with_sdBlob (Some sd) s).

#[export] Instance TestHandler : HandlerOps Mem := {
  ResolveStream uri m := (inl (a_stream 0), m);
  VerifyAccess s token m := (None, m);
  Play r := mret None;
  os_Getenv name := "";
  os_Hostname := ("player1", None);
  format_http_time t := "Sun, 13 Sep 2020 12:26:40 GMT";
  mime_GetExtensionByType t := "mp4";
  unicode_IsLetter := is_ascii_letter;
  sentinel_text id :=
    match id with
    | PaidStream => "paid stream"
    | StreamNotFound => "stream not found"
    | StreamSizeZero => "stream size is zero"
    | OutOfBounds => "seeking out of bounds"
    | SeekingBeforeStart => "seeking before the beginning of file"
    | EOF => "EOF"
    end;
}.

Definition a_request (url : string) (q : list (string * string)) : Request :=
  {| Method := "HEAD"; URL_String := url; URL_Query := q;
     Vars := {[ "claim_name" := "my-movie"; "claim_id" := "abc" ]} |}.

End Fixture.

(** * More of the package: construction, the second handler, and the
    notions of their properties *)

(** ** NewStream *)

(** [NewStream]: [stream_source] is [GetSource()] of the claim's stream
    value; for a claim without a stream value the getters return nil, and
    [source.MediaType] is then a nil dereference.  [patchMediaType] is
    defined outside the embedded files. *)
Definition NewStream (patchMediaType : string → string) (p : Player)
    (uri : string) (c : Claim) (stream_source : option Source)
  : outcome Stream :=
  let source := if Value_has_stream c then stream_source else None in
  match source with
  | None => Panic
  | Some src =>
      Ok {| URI := uri;
            Size := GetSize source;
            ContentType := patchMediaType (src_MediaType src);
            hash := hex_EncodeToString (src_SdHash src);
            prefetchedChunks := ∅;
            player := p;
            claim := c;
            source := source;
            sdBlob := None;
            seekOffset := 0 |}
  end.

(** ** The URI and the token of a request *)

(** What [Handle] and [HandleV4] compute first: the URI to resolve and the
    token, or nothing when the residue of a speech URL is empty. *)
Definition request_target (r : Request) : option (string * string) :=
  if strings_HasPrefix (URL_String r) SpeechPrefix then
    let uri := string_drop (String.length SpeechPrefix) (URL_String r) in
    let extStart := strings_LastIndex uri "." in
    let uri :=
      if 0 <=? extStart then string_take (Z.to_nat extStart) uri else uri in
    if is_empty uri then None else Some (uri, EmptyString)
  else
    Some (var r "claim_name" +:+ "#" +:+ var r "claim_id", var r "token").

(** ** HandleV4 *)

Definition StatusPermanentRedirect : Z := 308.

(** The transcoder client of the player and [http.Redirect], both outside
    the embedded files.  [tclient_Get kind uri hash] is
    [h.player.tclient.Get(kind, uri, hash)]: the [LocalPath()] of the
    transcoded variant when there is one, and the download request. *)
Class TranscoderOps (BS : Type) := {
  DownloadRequest : Type;
  tclient_Get :
    string → string → string → BS → (option string * DownloadRequest) * BS;
  dl_Download : DownloadRequest → BS → option error * BS;
  http_Redirect : Request → string → Z → M BS unit;
}.

Section HandlerV4.
Context {BS : Type} {Src : BlobSource BS} {Ops : ChunkOps}
        {HOps : HandlerOps BS} {TOps : TranscoderOps BS}.

(** A call that changes the state of the collaborators only. *)
Definition set_bs (b : BS) (st : St BS) : St BS :=
  {| st_stream := st_stream st; st_bs := b; st_trace := st_trace st;
     st_spawned := st_spawned st; st_resp := st_resp st;
     st_header := st_header st; st_out_bytes := st_out_bytes st |}.

Definition call_tclient_Get (kind uri h : string)
  : M BS (option string * DownloadRequest) :=
  λ st, let '(r, b) := tclient_Get kind uri h (st_bs st) in
        Ok (r, set_bs b st).

Definition call_Download (dl : DownloadRequest) : M BS (option error) :=
  λ st, let '(r, b) := dl_Download dl (st_bs st) in Ok (r, set_bs b st).

(** The part of [HandleV4] that follows [h.player.ResolveStream(uri)]; the
    error of [dl.Download()] is logged and dropped. *)
Definition respondV4 (r : Request) (uri token : string) (res : Stream + error)
  : M BS unit :=
  match res with
  | inr err => processStreamError "resolve" uri r err
  | inl s =>
      _ ← modify (upd_stream (λ _, s));
      '(cv, dl) ← call_tclient_Get "hls" (URI s) (hash s);
      match cv with
      | Some localPath =>
          http_Redirect r
            ("/api/v4/streams/t/" +:+ localPath +:+ "/master.m3u8")
            StatusPermanentRedirect
      | None =>
          _ ← call_Download dl;
          err ← call_VerifyAccess s token;
          match err with
          | Some e => processStreamError "access" uri r e
          | None =>
              err ← PrepareForReading;
              match err with
              | Some e => processStreamError "retrieval" uri r e
              | None =>
                  _ ← writeHeaders r;
                  if String.eqb (Method r) MethodHead
                  then w_WriteHeader StatusOK
                  else if String.eqb (Method r) MethodGet
                  then
                    err ← call_Play r;
                    match err with
                    | Some e => processStreamError "playback" uri r e
                    | None => mret tt
                    end
                  else mret tt
              end
          end
      end
  end.

Definition HandleV4 (r : Request) : M BS unit :=
  let target :=
    if strings_HasPrefix (URL_String r) SpeechPrefix then
      let uri := string_drop (String.length SpeechPrefix) (URL_String r) in
      let extStart := strings_LastIndex uri "." in
      let uri :=
        if 0 <=? extStart then string_take (Z.to_nat extStart) uri else uri in
      if is_empty uri then None else Some (uri, EmptyString)
    else
      Some (var r "claim_name" +:+ "#" +:+ var r "claim_id", var r "token") in
  match target with
  | None => w_WriteHeader StatusNotFound
  | Some (uri, token) =>
      res ← call_ResolveStream uri;
      respondV4 r uri token res
  end.

End HandlerV4.

(** ** Notions of the properties *)

Section MoreNotions.
Context {BS : Type}.

(** Every prefetch task was started once, for an index that is marked. *)
Definition scheduled_once (st : St BS) : Prop :=
  NoDup (st_spawned st)
  ∧ ∀ k, k ∈ st_spawned st →
         prefetchedChunks (st_stream st) !! k = Some true.

Definition keeps_schedule (st st' : St BS) : Prop :=
  scheduled_once st → scheduled_once st'.

(** The second state differs from the first in the blob source, the trace,
    the prefetch marks and the spawned tasks only. *)
Definition fetches_only (st st' : St BS) : Prop :=
  with_prefetchedChunks (prefetchedChunks (st_stream st)) (st_stream st')
  = st_stream st
  ∧ st_resp st' = st_resp st ∧ st_header st' = st_header st
  ∧ st_out_bytes st' = st_out_bytes st.

(** The second state differs from the first in the response only. *)
Definition responds_only (st st' : St BS) : Prop :=
  st_stream st' = st_stream st ∧ st_bs st' = st_bs st
  ∧ st_trace st' = st_trace st ∧ st_spawned st' = st_spawned st
  ∧ st_header st' = st_header st ∧ st_out_bytes st' = st_out_bytes st.

End MoreNotions.

(** The fetch of a blob info as it appears in the trace. *)
(** The answer of a handler that gave up on the error [e]: the calls [evs]
    were made, no header was set, no prefetch was started, and the response
    is one client or server error status followed by the text of [e]. *)
Definition refused {BS} `{HandlerOps BS} (st st' : St BS)
    (evs : list Event) (e : error) : Prop :=
  st_trace st' = st_trace st ++ evs
  ∧ st_header st' = st_header st
  ∧ st_spawned st' = st_spawned st
  ∧ ∃ code, 400 <= code < 600
      ∧ st_resp st' = st_resp st ++ [WriteHeader code; Write (Error e)].

Definition fetch_event (sd : SDBlob) (bi : BlobInfo) : Event :=
  EvGetChunk (hex_EncodeToString (BlobHash bi)) (Key sd) (IV bi).

Definition is_fetch (ev : Event) : bool :=
  match ev with EvGetChunk _ _ _ => true | _ => false end.

(** The bytes of a string. *)
Definition bytes_of (s : string) : list Z :=
  map byte_val (list_ascii_of_string s).

(** A byte of a multi-byte rune, or one of the ASCII characters of the
    pattern of [writeHeaders]. *)
Definition filename_byte (c : Z) : bool :=
  (128 <=? c) || is_ascii_letter c || is_digit c
  || (c =? 45) || (c =? 46) || (c =? 95) || (c =? 32).

(** An ASCII letter or digit, or one of [-], [_], [.], [%]. *)
Definition escaped_byte (c : Z) : bool :=
  is_ascii_letter c || is_digit c
  || (c =? 45) || (c =? 95) || (c =? 46) || (c =? 37).

(** ** More streams and collaborators for the examples *)

Module Scenario.
Import Fixture.

(** A resolver that knows no "missing#0" and an access check that refuses
    the token "bad". *)
#[export] Instance StrictHandler : HandlerOps Mem := {
  ResolveStream uri m :=
    if String.eqb uri "missing#0" then (inr errStreamNotFound, m)
    else (inl (a_stream 0), m);
  VerifyAccess s token m :=
    if String.eqb token "bad"
    then (Some (errors_New "token is expired"), m)
    else (None, m);
  Play r := mret None;
  os_Getenv name := "";
  os_Hostname := ("player1", None);
  format_http_time t := "Sun, 13 Sep 2020 12:26:40 GMT";
  mime_GetExtensionByType t := "mp4";
  unicode_IsLetter := is_ascii_letter;
  sentinel_text id :=
    match id with
    | PaidStream => "paid stream"
    | StreamNotFound => "stream not found"
    | StreamSizeZero => "stream size is zero"
    | OutOfBounds => "seeking out of bounds"
    | SeekingBeforeStart => "seeking before the beginning of file"
    | EOF => "EOF"
    end;
}.

(** A transcoder that has a variant exactly when the store marks
    "transcoded" as hot, and whose download request fails; a redirect that
    sets Location and writes the status. *)
#[export] Instance TestTranscoder : TranscoderOps Mem := {
  DownloadRequest := unit;
  tclient_Get kind uri h m :=
    if mem_hot "transcoded" (m_hot m) then ((Some "hls/abc", tt), m)
    else ((None, tt), m);
  dl_Download dl m := (Some (errors_New "download refused"), m);
  http_Redirect r url code :=
    _ ← header_Set "Location" url;
    w_WriteHeader code;
}.

Definition mem_transcoded : Mem :=
  {| m_sd := Some sd_small; m_blobs := m_blobs mem_small;
     m_hot := ["transcoded"] |}.

Definition request (method url : string) (vars : list (string * string))
  : Request :=
  {| Method := method; URL_String := url; URL_Query := [];
     Vars := list_to_map vars |}.

(** A descriptor of two full blobs, a short one and the terminator. *)
Definition sd_full : SDBlob :=
  {| Key := "K";
     BlobInfos := [blob 2097152 0 "a" "A"; blob 2097152 1 "b" "B";
                   blob 5008 2 "c" "C"; terminator 3] |}.

(** A store that has no descriptor. *)
Definition mem_empty : Mem := {| m_sd := None; m_blobs := []; m_hot := [] |}.

Definition a_player : Player := {| prefetch := true |}.

End Scenario.

(** * Properties *)

(** ** Machine integers *)

Lemma wrap_uint64_small z : 0 <= z < 2 ^ 64 → wrap_uint64 z = z.
Proof. intros H. unfold wrap_uint64. apply Z.mod_small. lia. Qed.

Lemma wrap_int64_small z : - 2 ^ 63 <= z < 2 ^ 63 → wrap_int64 z = z.
Proof.
  intros H. unfold wrap_int64.
  rewrite Z.mod_small; lia.
Qed.

Lemma wrap_uint64_int64 z : wrap_uint64 (wrap_int64 z) = wrap_uint64 z.
Proof.
  unfold wrap_uint64, wrap_int64.
  rewrite <- Zminus_mod_idemp_l, Z.mod_mod by lia.
  rewrite Zminus_mod_idemp_l. f_equal. lia.
Qed.

Lemma wrap_uint64_add_l a b : wrap_uint64 (wrap_uint64 a + b) = wrap_uint64 (a + b).
Proof. unfold wrap_uint64. apply Zplus_mod_idemp_l. Qed.

Lemma wrap_uint64_add_r a b : wrap_uint64 (a + wrap_uint64 b) = wrap_uint64 (a + b).
Proof. unfold wrap_uint64. apply Zplus_mod_idemp_r. Qed.

Lemma wrap_uint64_mul a b :
  wrap_uint64 (wrap_uint64 a * wrap_uint64 b) = wrap_uint64 (a * b).
Proof. unfold wrap_uint64. symmetry. apply Zmult_mod. Qed.

Lemma wrap_uint64_sub_l a b : wrap_uint64 (wrap_uint64 a - b) = wrap_uint64 (a - b).
Proof. unfold wrap_uint64. apply Zminus_mod_idemp_l. Qed.

(** A conversion to [float64] is exact below [2^53]. *)
Lemma round_to_float64_exact n : 0 <= n <= 2 ^ 53 → round_to_float64 n = n.
Proof.
  intros H. unfold round_to_float64.
  destruct (Z.eq_dec n (2 ^ 53)) as [-> | Hne]; [reflexivity |].
  assert (Hk : Z.log2 n + 1 <= 53).
  { destruct (Z.eq_dec n 0) as [-> | Hn0]; [cbn; lia |].
    assert (Z.log2 n < 53) by (apply Z.log2_lt_pow2; lia). lia. }
  apply Z.leb_le in Hk. cbv zeta. now rewrite Hk.
Qed.

Lemma abs_via_float64_exact offset :
  Z.abs offset <= 2 ^ 53 →
  uint64_of_float64 (math_Abs (float64_of_int64 offset)) = Z.abs offset.
Proof.
  intros H. unfold uint64_of_float64, math_Abs, float64_of_int64.
  rewrite round_to_float64_exact by lia.
  rewrite wrap_uint64_small; destruct offset; cbn in *; lia.
Qed.

(** ** The monad *)

Section Proofs.
Context {BS : Type} {Src : BlobSource BS} {Ops : ChunkOps}.

Local Abbreviation respects := (respects (BS := BS)).
Local Abbreviation same_Size := (same_Size (BS := BS)).
Local Abbreviation same_request := (same_request (BS := BS)).

Lemma bind_Ok {A B} (m : M BS A) (f : A → M BS B) st b st' :
  (m ≫= f) st = Ok (b, st') ↔
  ∃ a st1, m st = Ok (a, st1) ∧ f a st1 = Ok (b, st').
Proof.
  unfold mbind, M_bind. split.
  - destruct (m st) as [[a st1] |]; [eauto | discriminate].
  - intros (a & st1 & -> & H). exact H.
Qed.

Lemma bind_eq {A B} (m : M BS A) (f : A → M BS B) st a st1 :
  m st = Ok (a, st1) → (m ≫= f) st = f a st1.
Proof. unfold mbind, M_bind. now intros ->. Qed.

(** ** Seek *)

(** Below [2^53] the bound check of [Seek] compares [|offset|] with the
    size, and [Seek] is as the specification describes it. *)
Lemma Seek_below_2p53 (offset whence : Z) (st : St BS) :
  Z.abs offset <= 2 ^ 53 →
  let s := st_stream st in
  let resolved :=
    if whence =? io_SeekStart then Some offset
    else if whence =? io_SeekCurrent
    then Some (wrap_int64 (seekOffset s + offset))
    else if whence =? io_SeekEnd
    then Some (wrap_int64 (wrap_int64 (Size s) - offset))
    else None in
  Seek offset whence st =
    if Size s =? 0 then Ok ((0, Some errStreamSizeZero), st)
    else if Size s <? Z.abs offset then Ok ((0, Some errOutOfBounds), st)
    else match resolved with
         | None =>
             Ok ((0, Some (errors_New "invalid seek whence argument")), st)
         | Some newOffset =>
             if newOffset <? 0 then Ok ((0, Some errSeekingBeforeStart), st)
             else Ok ((newOffset, None),
                      upd_stream (with_seekOffset newOffset) st)
         end.
Proof.
  intros H s resolved. unfold Seek.
  rewrite (bind_eq this _ st (st_stream st) st) by reflexivity.
  fold s. rewrite abs_via_float64_exact by exact H.
  destruct (Size s =? 0); [reflexivity |].
  destruct (Size s <? Z.abs offset); [reflexivity |].
  fold resolved. destruct resolved as [newOffset |]; [| reflexivity].
  destruct (newOffset <? 0); reflexivity.
Qed.

(** [Seek] always returns; a failure leaves the state as it was, and a
    success sets the current offset to the non-negative offset returned. *)
Lemma Seek_result (offset whence : Z) (st : St BS) :
  ∃ n err st',
    Seek offset whence st = Ok ((n, err), st')
    ∧ match err with
      | Some _ => n = 0 ∧ st' = st
      | None => 0 <= n ∧ st' = upd_stream (with_seekOffset n) st
      end.
Proof.
  unfold Seek.
  rewrite (bind_eq this _ st (st_stream st) st) by reflexivity.
  destruct (Size (st_stream st) =? 0); [now eexists _, _, _ |].
  destruct (Size (st_stream st) <? _); [now eexists _, _, _ |].
  match goal with
  | |- context [match ?r with Some _ => _ | None => _ end] =>
      destruct r as [newOffset |]
  end; [| now eexists _, _, _].
  destruct (Z.ltb_spec newOffset 0); [now eexists _, _, _ |].
  eexists _, _, _. split; [reflexivity |]. cbn. auto.
Qed.

(** C4, at the failing input: a stream of [2^53] bytes accepts the offset
    [2^53 + 1] from the start, because the conversion of the offset to
    [float64] rounds it down to [2^53]; the current offset moves past the
    size. *)
Theorem Seek_accepts_offset_past_Size (st : St BS) :
  Size (st_stream st) = 2 ^ 53 →
  Seek (2 ^ 53 + 1) io_SeekStart st =
    Ok ((2 ^ 53 + 1, None), upd_stream (with_seekOffset (2 ^ 53 + 1)) st).
Proof.
  intros H. unfold Seek.
  rewrite (bind_eq this _ st (st_stream st) st) by reflexivity.
  rewrite H. reflexivity.
Qed.

(** ** The index guard *)

Lemma index_is_Some {A} (l : list A) (i : Z) :
  is_Some (index l i) ↔ 0 <= i < len l.
Proof.
  unfold index, len. destruct (Z.ltb_spec i 0) as [Hneg | Hpos].
  - split; [intros [x Hx]; discriminate | lia].
  - rewrite lookup_lt_is_Some. lia.
Qed.

Lemma index_None {A} (l : list A) (i : Z) :
  index l i = None ↔ i < 0 ∨ len l <= i.
Proof.
  rewrite eq_None_not_Some, index_is_Some. lia.
Qed.

Lemma the_sdBlob_eq (st : St BS) sd :
  sdBlob (st_stream st) = Some sd → the_sdBlob st = Ok (sd, st).
Proof. unfold the_sdBlob. now intros ->. Qed.

Lemma RemoveChunk_eq (st : St BS) sd chunkIdx :
  sdBlob (st_stream st) = Some sd →
  RemoveChunk chunkIdx st =
    if len (BlobInfos sd) <? chunkIdx then Ok (Some errBlobIndex, st)
    else match index (BlobInfos sd) chunkIdx with
         | None => Panic
         | Some bi =>
             call_clearChuckFromCache (hex_EncodeToString (BlobHash bi)) st
         end.
Proof.
  intros Hsd. unfold RemoveChunk.
  rewrite (bind_eq _ _ _ _ _ (the_sdBlob_eq st sd Hsd)).
  destruct (len (BlobInfos sd) <? chunkIdx); [reflexivity |].
  destruct (index (BlobInfos sd) chunkIdx); reflexivity.
Qed.

Lemma GetChunk_eq (st : St BS) sd chunkIdx :
  sdBlob (st_stream st) = Some sd →
  GetChunk chunkIdx st =
    if len (BlobInfos sd) <? chunkIdx
    then Ok ((None, Some errBlobIndex), st)
    else match index (BlobInfos sd) chunkIdx with
         | None => Panic
         | Some bi =>
             (call_GetChunk (hex_EncodeToString (BlobHash bi)) (Key sd) (IV bi)
              ≫= after_fetch chunkIdx) st
         end.
Proof.
  intros Hsd. unfold GetChunk.
  rewrite (bind_eq _ _ _ _ _ (the_sdBlob_eq st sd Hsd)).
  destruct (len (BlobInfos sd) <? chunkIdx); [reflexivity |].
  destruct (index (BlobInfos sd) chunkIdx); reflexivity.
Qed.

(** C10: the guard of [GetChunk] and [RemoveChunk] rejects an index only
    when it exceeds the number of blob infos; the index equal to that number
    and the negative indices pass the guard and the access to the blob infos
    is then out of range (a run-time panic), so the "blob index out of
    bounds" error is not returned for them; the access is in range exactly
    for [0 <= chunkIdx < len(BlobInfos)]. *)
Theorem index_guard_off_by_one (st : St BS) (sd : SDBlob) (chunkIdx : Z) :
  sdBlob (st_stream st) = Some sd →
  (len (BlobInfos sd) < chunkIdx →
     (GetChunk chunkIdx st = Ok ((None, Some errBlobIndex), st)
      ∧ RemoveChunk chunkIdx st = Ok (Some errBlobIndex, st)))
  ∧ (chunkIdx = len (BlobInfos sd) ∨ chunkIdx < 0 →
     (index (BlobInfos sd) chunkIdx = None
      ∧ GetChunk chunkIdx st = Panic ∧ RemoveChunk chunkIdx st = Panic))
  ∧ (is_Some (index (BlobInfos sd) chunkIdx)
     ↔ 0 <= chunkIdx < len (BlobInfos sd)).
Proof.
  intros Hsd.
  rewrite (GetChunk_eq st sd chunkIdx Hsd), (RemoveChunk_eq st sd chunkIdx Hsd).
  split; [| split].
  - intros Hgt. apply Z.ltb_lt in Hgt. now rewrite Hgt.
  - intros Hout.
    assert (Hnone : index (BlobInfos sd) chunkIdx = None)
      by (apply index_None; lia).
    assert (Hguard : (len (BlobInfos sd) <? chunkIdx) = false).
    { apply Z.ltb_ge. unfold len in *. lia. }
    now rewrite Hguard, Hnone.
  - apply index_is_Some.
Qed.

(** ** Size determination *)

Ltac munfold :=
  unfold mbind, M_bind, mret, M_ret, this, modify, panic, the_sdBlob,
    call_GetSDBlob, call_GetChunk, call_IsCached, call_clearChuckFromCache
    in *.

Ltac destr_in H :=
  match type of H with
  | context [match ?x with _ => _ end] => destruct x eqn:?
  end.

Lemma heuristic_fold (infos : list BlobInfo) (acc : Z) :
  wrap_uint64 (fold_left heuristic_step infos acc)
  = wrap_uint64 (acc + heuristic_sum infos).
Proof.
  revert acc. induction infos as [| blob infos IH]; intros acc.
  - cbn. f_equal. lia.
  - change (fold_left heuristic_step (blob :: infos) acc)
      with (fold_left heuristic_step infos (heuristic_step acc blob)).
    change (heuristic_sum (blob :: infos))
      with (contribution blob + heuristic_sum infos).
    rewrite IH. generalize (heuristic_sum infos) as rest. intros rest.
    unfold heuristic_step, contribution.
    destruct (Length blob =? MaxBlobSize); rewrite wrap_uint64_add_l.
    + replace (acc + wrap_uint64 MaxChunkSize + rest)
        with (acc + rest + wrap_uint64 MaxChunkSize) by lia.
      rewrite wrap_uint64_add_r. f_equal. lia.
    + replace (acc + wrap_uint64 (wrap_int64 (Length blob - 1)) + rest)
        with (acc + rest + wrap_uint64 (wrap_int64 (Length blob - 1))) by lia.
      rewrite wrap_uint64_add_r.
      rewrite <- wrap_uint64_add_r, wrap_uint64_int64, wrap_uint64_add_r.
      f_equal. lia.
Qed.

Lemma heuristic_size (infos : list BlobInfo) :
  wrap_uint64 (fold_left heuristic_step infos 0 - 16)
  = wrap_uint64 (heuristic_sum infos - 16).
Proof.
  rewrite <- wrap_uint64_sub_l, heuristic_fold, wrap_uint64_sub_l.
  reflexivity.
Qed.

Lemma getStreamSizeFromLastBlobSize_inv (st st1 : St BS) sz err :
  getStreamSizeFromLastBlobSize st = Ok ((sz, err), st1) →
  last_blob_result st sz err st1.
Proof.
  unfold getStreamSizeFromLastBlobSize. munfold. intros H.
  destruct (Value_has_stream (claim (st_stream st))) eqn:Hcl; cbn in H.
  2:{ injection H as <- <- <-. now constructor. }
  destruct (sdBlob (st_stream st)) as [sd |] eqn:Hsd; [| discriminate].
  destruct (Z.leb_spec (len (BlobInfos sd) - 1) 0) as [Hn | Hn].
  { injection H as <- <- <-. econstructor 2; eauto. lia. }
  replace (len (BlobInfos sd) - 1 - 1) with (len (BlobInfos sd) - 2) in H by lia.
  destruct (index (BlobInfos sd) (len (BlobInfos sd) - 2)) as [last |] eqn:Hl;
    [| discriminate].
  destruct (bs_GetChunk _ _ _ _) as [[chunk e] b] eqn:Hget.
  destruct e as [e |]; injection H as <- <- <-.
  - eapply (lb_fetch st sd last chunk (Some e) b); eauto. lia.
  - replace (len (BlobInfos sd) - 1 - 1) with (len (BlobInfos sd) - 2) by lia.
    rewrite wrap_uint64_mul, wrap_uint64_add_l, wrap_uint64_add_r.
    eapply (lb_fetch st sd last chunk None b); eauto. lia.
Qed.

(** The outcomes of [setSize]. *)
Lemma setSize_inv (st st' : St BS) :
  setSize st = Ok (tt, st') →
  let s := st_stream st in
  (0 < Size s ∧ st' = st)
  ∨ (Size s <= 0 ∧ 0 < GetSize (source s)
     ∧ st' = upd_stream (with_Size (GetSize (source s))) st)
  ∨ (Size s <= 0 ∧ GetSize (source s) <= 0
     ∧ ∃ sz err st1,
         last_blob_result st sz err st1
         ∧ match err with
           | None => st' = upd_stream (with_Size sz) st1
           | Some _ =>
               ∃ sd, sdBlob (st_stream st) = Some sd
                 ∧ st' = upd_stream
                     (with_Size
                        (wrap_uint64 (heuristic_sum (BlobInfos sd) - 16)))
                     st1
           end).
Proof.
  intros H s. unfold setSize in H.
  rewrite (bind_eq this _ st (st_stream st) st) in H by reflexivity.
  fold s in H.
  destruct (Z.ltb_spec 0 (Size s)) as [Hpos | Hzero].
  { left. injection H as <-. auto. }
  destruct (Z.ltb_spec 0 (GetSize (source s))) as [Hsrc | Hsrc].
  { right. left. injection H as <-. auto. }
  right. right. split; [exact Hzero | split; [exact Hsrc |]].
  apply bind_Ok in H as ([sz err] & st1 & Hlast & H).
  apply getStreamSizeFromLastBlobSize_inv in Hlast.
  exists sz, err, st1. split; [exact Hlast |].
  destruct err as [e |].
  - munfold.
    assert (Hstream : st_stream st1 = st_stream st)
      by (destruct Hlast; reflexivity).
    rewrite Hstream in H.
    destruct (sdBlob (st_stream st)) as [sd |] eqn:Hsd; [| discriminate].
    exists sd. split; [reflexivity |].
    assert (Hsz : sz = 0).
    { inversion Hlast; subst; reflexivity. }
    subst sz. rewrite heuristic_size in H. now injection H as <-.
  - munfold. now injection H as <-.
Qed.

(** ** What a method leaves unchanged *)

#[local] Instance same_Size_preorder : PreOrder same_Size.
Proof.
  split; unfold same_Size; [intros st; reflexivity |].
  intros a b c Hab Hbc. congruence.
Qed.

#[local] Instance same_request_preorder :
  PreOrder same_request.
Proof.
  split; unfold same_request; [intros st; auto |].
  intros a b c Hab Hbc. intuition congruence.
Qed.

Section Respects.
Context (R : relation (St BS)) `{!PreOrder R}.

Lemma respects_ret {A} (a : A) : respects R (mret a).
Proof. intros st a' st' [= <- <-]. reflexivity. Qed.

Lemma respects_panic {A} : respects R (@panic BS A).
Proof. intros st a st' [=]. Qed.

Lemma respects_bind {A B} (m : M BS A) (f : A → M BS B) :
  respects R m → (∀ a, respects R (f a)) → respects R (m ≫= f).
Proof.
  intros Hm Hf st b st' H. apply bind_Ok in H as (a & st1 & H1 & H2).
  transitivity st1; [eapply Hm | eapply Hf]; eauto.
Qed.

Lemma respects_this : respects R this.
Proof. intros st a st' [= <- <-]. reflexivity. Qed.

Lemma respects_the_sdBlob : respects R the_sdBlob.
Proof.
  intros st a st'. unfold the_sdBlob.
  destruct (sdBlob (st_stream st)); intros [= <- <-]. reflexivity.
Qed.

Lemma respects_modify (f : St BS → St BS) :
  (∀ st, R st (f st)) → respects R (modify f).
Proof. intros Hf st a st' [= <- <-]. apply Hf. Qed.

Context (R_bs : ∀ st b evs, R st (upd_bs b evs st)).

Lemma respects_call_GetSDBlob h : respects R (call_GetSDBlob h).
Proof.
  intros st a st'. unfold call_GetSDBlob.
  destruct (bs_GetSDBlob h (st_bs st)). intros [= <- <-]. apply R_bs.
Qed.

Lemma respects_call_GetChunk h key iv : respects R (call_GetChunk h key iv).
Proof.
  intros st a st'. unfold call_GetChunk.
  destruct (bs_GetChunk h key iv (st_bs st)). intros [= <- <-]. apply R_bs.
Qed.

Lemma respects_call_IsCached h : respects R (call_IsCached h).
Proof.
  intros st a st'. unfold call_IsCached.
  destruct (bs_IsCached h (st_bs st)). intros [= <- <-]. apply R_bs.
Qed.

Lemma respects_call_clear h : respects R (call_clearChuckFromCache h).
Proof.
  intros st a st'. unfold call_clearChuckFromCache.
  destruct (bs_clearChuckFromCache h (st_bs st)). intros [= <- <-]. apply R_bs.
Qed.

End Respects.

Ltac frame_rel :=
  intros;
  first [ reflexivity
        | unfold same_Size; reflexivity
        | unfold same_request; repeat split; reflexivity ].

Create HintDb frame.

Ltac frame_step :=
  first
    [ solve [auto with frame nocore]
    | apply respects_ret; typeclasses eauto
    | apply respects_panic
    | apply respects_this; typeclasses eauto
    | apply respects_the_sdBlob; typeclasses eauto
    | apply respects_call_GetSDBlob; frame_rel
    | apply respects_call_GetChunk; frame_rel
    | apply respects_call_IsCached; frame_rel
    | apply respects_call_clear; frame_rel
    | apply respects_modify; frame_rel
    | apply respects_bind; [typeclasses eauto | | intros ?]
    | match goal with
      | |- respects _ (match ?x with _ => _ end) => destruct x
      end ].
Ltac frame := repeat frame_step; eauto.

Lemma prefetch_loop_same_request key window :
  respects same_request (prefetch_loop key window).
Proof.
  induction window as [| bi rest IH]; cbn [prefetch_loop]; frame.
Qed.
#[local] Hint Resolve prefetch_loop_same_request : frame.

Lemma prefetchChunk_same_request chunkIdx :
  respects same_request (prefetchChunk chunkIdx).
Proof.
  unfold prefetchChunk. frame.
Qed.

Lemma RemoveChunk_same_request chunkIdx :
  respects same_request (RemoveChunk chunkIdx).
Proof. unfold RemoveChunk. frame. Qed.

Lemma GetChunk_same_Size chunkIdx : respects same_Size (GetChunk chunkIdx).
Proof. unfold GetChunk. frame. Qed.
#[local] Hint Resolve GetChunk_same_Size : frame.

Lemma attempt_loop_same_Size sr fuel i read dest :
  respects same_Size (attempt_loop sr fuel i read dest).
Proof.
  revert i read dest.
  induction fuel as [| fuel IH]; intros i read dest; cbn [attempt_loop];
    frame.
Qed.
#[local] Hint Resolve attempt_loop_same_Size : frame.

Lemma RemoveChunk_same_Size chunkIdx :
  respects same_Size (RemoveChunk chunkIdx).
Proof. unfold RemoveChunk. frame. Qed.
#[local] Hint Resolve RemoveChunk_same_Size : frame.

Lemma readFromChunks_loop_same_Size iters read sr dest :
  respects same_Size (readFromChunks_loop iters read sr dest).
Proof.
  revert dest.
  induction iters as [| iters IH]; intros dest; cbn [readFromChunks_loop];
    frame.
  apply attempt_loop_same_Size.
Qed.
#[local] Hint Resolve readFromChunks_loop_same_Size : frame.

Lemma Read_same_Size dest : respects same_Size (Read dest).
Proof.
  unfold Read, readFromChunks. frame.
Qed.

Lemma Seek_same_Size offset whence : respects same_Size (Seek offset whence).
Proof. unfold Seek. frame. Qed.

Lemma prefetchChunk_same_Size chunkIdx :
  respects same_Size (prefetchChunk chunkIdx).
Proof.
  intros st a st' H. apply prefetchChunk_same_request in H as [H _].
  unfold same_Size. now rewrite H.
Qed.

Lemma setSize_positive (st : St BS) :
  0 < Size (st_stream st) → setSize st = Ok (tt, st).
Proof.
  intros H. unfold setSize.
  rewrite (bind_eq this _ st (st_stream st) st) by reflexivity.
  apply Z.ltb_lt in H. now rewrite H.
Qed.

Lemma PrepareForReading_positive (st st' : St BS) r :
  0 < Size (st_stream st) → PrepareForReading st = Ok (r, st') →
  Size (st_stream st') = Size (st_stream st).
Proof.
  intros Hpos H. unfold PrepareForReading in H.
  rewrite (bind_eq this _ st (st_stream st) st) in H by reflexivity.
  apply bind_Ok in H as ([sd err] & st1 & Hsd & H).
  assert (Hst1 : st_stream st1 = st_stream st).
  { unfold call_GetSDBlob in Hsd.
    destruct (bs_GetSDBlob _ _). now injection Hsd as _ <-. }
  destruct err as [e |].
  - injection H as _ <-. now rewrite Hst1.
  - munfold. rewrite setSize_positive in H by (cbn; now rewrite Hst1).
    injection H as _ <-. cbn. now rewrite Hst1.
Qed.

Lemma Size_immutable (op : StreamOp) (st st' : St BS) :
  (is_sizing op = true → 0 < Size (st_stream st)) →
  run_op op st = Ok (tt, st') →
  Size (st_stream st') = Size (st_stream st).
Proof.
  intros Hpos H. destruct op; cbn [run_op is_sizing] in *.
  - apply bind_Ok in H as (a & st1 & H & [= <-]).
    now apply Seek_same_Size in H.
  - apply bind_Ok in H as (a & st1 & H & [= <-]).
    now apply Read_same_Size in H.
  - apply bind_Ok in H as (a & st1 & H & [= <-]).
    now apply GetChunk_same_Size in H.
  - apply bind_Ok in H as (a & st1 & H & [= <-]).
    now apply RemoveChunk_same_Size in H.
  - now apply prefetchChunk_same_Size in H.
  - rewrite setSize_positive in H by auto. now injection H as <-.
  - apply bind_Ok in H as (a & st1 & H & [= <-]).
    eapply PrepareForReading_positive; eauto.
Qed.

Lemma PrepareForReading_inv (st st' : St BS) :
  PrepareForReading st = Ok (None, st') →
  ∃ sdo b1,
    bs_GetSDBlob (hash (st_stream st)) (st_bs st) = ((sdo, None), b1)
    ∧ setSize (upd_stream (with_sdBlob sdo)
                 (upd_bs b1 [EvGetSDBlob (hash (st_stream st))] st))
      = Ok (tt, st').
Proof.
  intros H. unfold PrepareForReading in H.
  rewrite (bind_eq this _ st (st_stream st) st) in H by reflexivity.
  unfold call_GetSDBlob in H. munfold.
  destruct (bs_GetSDBlob _ _) as [[sdo err] b1].
  destruct err as [e |]; [discriminate |].
  exists sdo, b1. split; [reflexivity |].
  destruct (setSize _) as [[[] st2] |]; [| discriminate].
  now injection H as <-.
Qed.

(** C1, amended: after a successful [PrepareForReading] a positive size is
    left as it was; else a positive size of the claim's source is taken;
    else, for a claim with a stream value, a descriptor with at most one blob
    info (no content blob) gives size 0, and otherwise the last chunk before
    the terminator is fetched and, when that succeeds, the size is
    [MaxChunkSize * (n - 2) + len(last_chunk)]; when the fetch fails, or the
    claim has no stream value, the size is the heuristic sum minus 16 (all in
    unsigned 64-bit arithmetic).  No operation on the stream changes the size
    afterwards: [Seek], [Read], [GetChunk], [RemoveChunk] and [prefetchChunk]
    never assign it, and [setSize] and [PrepareForReading] leave a positive
    size alone. *)
Theorem PrepareForReading_Size (st st' : St BS) :
  PrepareForReading st = Ok (None, st') →
  let s := st_stream st in
  let s' := st_stream st' in
  (0 < Size s → Size s' = Size s)
  ∧ (Size s <= 0 → 0 < GetSize (source s) → Size s' = GetSize (source s))
  ∧ (Size s <= 0 → GetSize (source s) <= 0 →
     ∃ sd b1,
       bs_GetSDBlob (hash s) (st_bs st) = ((Some sd, None), b1)
       ∧ sdBlob s' = Some sd
       ∧ let n := len (BlobInfos sd) in
         let heuristic := wrap_uint64 (heuristic_sum (BlobInfos sd) - 16) in
         if Value_has_stream (claim s) then
           (n <= 1 → Size s' = 0)
           ∧ (2 <= n →
              ∃ last chunk e b2,
                index (BlobInfos sd) (n - 2) = Some last
                ∧ bs_GetChunk (hex_EncodeToString (BlobHash last)) (Key sd)
                    (IV last) b1 = ((chunk, e), b2)
                ∧ Size s' =
                    match e with
                    | None =>
                        wrap_uint64 (MaxChunkSize * (n - 2) + chunk_len chunk)
                    | Some _ => heuristic
                    end)
         else Size s' = heuristic)
  ∧ (∀ op st1 st2,
       (is_sizing op = true → 0 < Size (st_stream st1)) →
       run_op op st1 = Ok (tt, st2) →
       Size (st_stream st2) = Size (st_stream st1)).
Proof.
  intros H s s'. subst s s'.
  apply PrepareForReading_inv in H as (sdo & b1 & Hsd & Hset).
  apply setSize_inv in Hset. cbn in Hset.
  repeat split.
  - intros Hpos. destruct Hset as [[_ ->] | [(? & _) | (? & _)]]; [| lia ..].
    reflexivity.
  - intros Hz Hsrc.
    destruct Hset as [[? _] | [(_ & _ & ->) | (_ & ? & _)]]; [lia | | lia].
    reflexivity.
  - intros Hz Hsrc.
    destruct Hset as [[? _] | [(_ & ? & _) | (_ & _ & Hlast)]]; [lia .. |].
    destruct Hlast as (sz & err & st1 & Hlast & Hst').
    inversion Hlast as [Hcl Hsz Herr Hst1
                       | sd Hcl Hsdo Hn Hsz Herr Hst1
                       | sd last chunk e b2 Hcl Hsdo Hn Hidx Hget Hsz Herr Hst1];
      cbn in Hcl; subst.
    + destruct Hst' as (sd & Hsdo & ->). cbn in Hsdo. subst sdo.
      exists sd, b1. rewrite Hcl. cbn. auto.
    + cbn in Hsdo. subst sdo. exists sd, b1. rewrite Hcl. subst st'. cbn.
      split; [assumption |]. split; [reflexivity |].
      split; [reflexivity | lia].
    + cbn in Hsdo. subst sdo. exists sd, b1. rewrite Hcl.
      split; [assumption |].
      assert (Hsds' : sdBlob (st_stream st') = Some sd).
      { destruct err; [destruct Hst' as (? & _ & ->) | subst st'];
          reflexivity. }
      split; [exact Hsds' |]. cbn zeta. split; [lia |].
      intros _. exists last, chunk, err, b2.
      split; [assumption |]. split; [exact Hget |].
      destruct err.
      * destruct Hst' as (sd' & Hsd' & ->). cbn in Hsd'.
        injection Hsd' as <-. reflexivity.
      * subst st'. reflexivity.
  - intros op st1 st2. apply Size_immutable.
Qed.

Lemma last_blob_error_size (st st1 : St BS) sz e :
  getStreamSizeFromLastBlobSize st = Ok ((sz, Some e), st1) →
  sz = 0 ∧ st_stream st1 = st_stream st.
Proof.
  intros H. apply getStreamSizeFromLastBlobSize_inv in H.
  inversion H; subst; auto.
Qed.

(** C2, amended: for blob infos of lengths 2097136, 2097136, 5000 and the
    terminator's 0, when neither the claim size nor the last chunk gives the
    size, the heuristic path of [setSize] computes
    [2097135 + 2097135 + 4999 + (2^64 - 1) - 16 mod 2^64 = 4199252]: no
    length equals [MaxBlobSize], so every blob info, the terminator
    included, contributes its length minus one. *)
Theorem setSize_heuristic_scenario (st st1 : St BS) (sd : SDBlob) sz e :
  sdBlob (st_stream st) = Some sd →
  map Length (BlobInfos sd) = [2097136; 2097136; 5000; 0] →
  Size (st_stream st) = 0 →
  GetSize (source (st_stream st)) = 0 →
  getStreamSizeFromLastBlobSize st = Ok ((sz, Some e), st1) →
  setSize st = Ok (tt, upd_stream (with_Size 4199252) st1)
  ∧ wrap_uint64 (2097135 + 2097135 + 4999 + (2 ^ 64 - 1) - 16) = 4199252.
Proof.
  intros Hsd Hlen Hsize Hsrc Hlast. split; [| reflexivity].
  destruct (last_blob_error_size _ _ _ _ Hlast) as [-> Hstream].
  unfold setSize.
  rewrite (bind_eq this _ st (st_stream st) st) by reflexivity.
  rewrite Hsize, Hsrc. cbn [Z.ltb Z.compare].
  rewrite (bind_eq _ _ _ _ _ Hlast).
  rewrite (bind_eq the_sdBlob _ st1 sd st1)
    by (apply the_sdBlob_eq; now rewrite Hstream).
  destruct (BlobInfos sd) as [| b0 [| b1 [| b2 [| b3 [| ? ?]]]]];
    try discriminate.
  injection Hlen as H0 H1 H2 H3.
  cbn [fold_left]. unfold heuristic_step. rewrite H0, H1, H2, H3.
  reflexivity.
Qed.

(** ** The retry of a read *)

(** A pass that ends without an error stops one past the last chunk of the
    range (at the first chunk when the range is empty). *)
Lemma attempt_loop_stops sr fuel i read dest (st st' : St BS) i' n d :
  attempt_loop sr fuel i read dest st = Ok ((i', n, None, d), st') →
  i' = i + Z.of_nat fuel.
Proof.
  revert i read dest st.
  induction fuel as [| fuel IH]; intros i read dest st H;
    cbn [attempt_loop] in H.
  - injection H as <- _ _ _. lia.
  - destruct (ByteRangeForChunk sr i) as [offset readLen].
    apply bind_Ok in H as ([b err] & st1 & Hget & H).
    destruct err as [e |]; [discriminate |].
    destruct ((read <? 0) || (slen dest <? read)); [discriminate |].
    destruct (chunk_Read _ _ _ _) as [[k err] tail].
    destruct err as [e |]; [discriminate |].
    apply IH in H. lia.
Qed.

Lemma attemptReadFromChunks_stops sr dest (st st' : St BS) i n d :
  attemptReadFromChunks sr dest st = Ok ((i, n, None, d), st') →
  i = Z.max (FirstChunkIdx sr) (wrap_int64 (LastChunkIdx sr + 1)).
Proof.
  unfold attemptReadFromChunks. intros H.
  apply attempt_loop_stops in H. lia.
Qed.



(** ** Prefetch *)

Lemma slice_elem {A} (l w : list A) (lo hi : Z) (x : A) :
  slice l lo hi = Some w → x ∈ w →
  ∃ j, lo <= j < hi ∧ index l j = Some x.
Proof.
  unfold slice. intros Hw Hx.
  destruct ((lo <? 0) || (hi <? lo) || (len l <? hi)) eqn:Hc; [discriminate |].
  injection Hw as <-.
  apply orb_false_elim in Hc as [Hc Hhi].
  apply orb_false_elim in Hc as [Hlo Hle].
  apply Z.ltb_ge in Hlo, Hle, Hhi.
  apply list_elem_of_lookup in Hx as [k Hk].
  apply lookup_take_Some in Hk as [Hk Hlt].
  rewrite lookup_drop in Hk.
  exists (lo + Z.of_nat k). split; [lia |].
  unfold index. destruct (Z.ltb_spec (lo + Z.of_nat k) 0); [lia |].
  rewrite <- Hk. f_equal. lia.
Qed.

Lemma window_event_cons key bi window ev :
  window_event key window ev → window_event key (bi :: window) ev.
Proof.
  intros (b & Hb & H). exists b. split; [now apply list_elem_of_further | exact H].
Qed.

Lemma prefetch_loop_trace key window (st : St BS) :
  ∃ st' evs,
    prefetch_loop key window st = Ok (tt, st')
    ∧ st_trace st' = st_trace st ++ evs
    ∧ well_guarded evs = true
    ∧ Forall (window_event key window) evs.
Proof.
  revert st. induction window as [| bi rest IH]; intros st.
  - exists st, []. cbn. rewrite app_nil_r. auto.
  - cbn [prefetch_loop]. unfold call_IsCached. munfold.
    destruct (bs_IsCached _ _) as [c b1].
    set (h := hex_EncodeToString (BlobHash bi)).
    assert (Hhead : ∀ ev, (ev = EvGetChunk h key (IV bi)
                           ∨ ∃ c', ev = EvIsCached h c') →
                    window_event key (bi :: rest) ev).
    { intros ev Hev. exists bi. split; [apply list_elem_of_here | exact Hev]. }
    destruct c.
    + destruct (IH (upd_bs b1 [EvIsCached h true] st))
        as (st' & evs & Hrun & Htr & Hg & Hall).
      exists st', (EvIsCached h true :: evs). rewrite Hrun.
      split; [reflexivity |]. split; [| split].
      * rewrite Htr. cbn. now rewrite <- app_assoc.
      * exact Hg.
      * constructor; [apply Hhead; eauto |].
        eapply Forall_impl; [exact Hall |].
        intros ev. apply window_event_cons.
    + cbn. destruct (bs_GetChunk _ _ _ _) as [[chunk err] b2].
      destruct err as [e |].
      * eexists _, [EvIsCached h false; EvGetChunk h key (IV bi)].
        split; [reflexivity |]. split; [| split].
        -- cbn. now rewrite <- app_assoc.
        -- cbn. now rewrite String.eqb_refl.
        -- repeat constructor; apply Hhead; eauto.
      * destruct (IH (upd_bs b2 [EvGetChunk h key (IV bi)]
                        (upd_bs b1 [EvIsCached h false] st)))
          as (st' & evs & Hrun & Htr & Hg & Hall).
        exists st', (EvIsCached h false :: EvGetChunk h key (IV bi) :: evs).
        rewrite Hrun. split; [reflexivity |]. split; [| split].
        -- rewrite Htr. cbn. now rewrite <- !app_assoc.
        -- cbn. now rewrite String.eqb_refl.
        -- constructor; [apply Hhead; eauto |].
           constructor; [apply Hhead; eauto |].
           eapply Forall_impl; [exact Hall |].
           intros ev. apply window_event_cons.
Qed.

Lemma prefetchChunk_trace (st : St BS) (sd : SDBlob) (i : Z) :
  sdBlob (st_stream st) = Some sd →
  len (BlobInfos sd) <= MaxInt64 →
  0 <= i < len (BlobInfos sd) →
  ∃ st' evs,
    prefetchChunk (i + 1) st = Ok (tt, st')
    ∧ st_trace st' = st_trace st ++ evs
    ∧ well_guarded evs = true
    ∧ Forall (in_window sd i) evs.
Proof.
  intros Hsd Hmax Hi. unfold MaxInt64 in Hmax. unfold prefetchChunk.
  rewrite (bind_eq _ _ _ _ _ (the_sdBlob_eq st sd Hsd)).
  rewrite (wrap_int64_small (len (BlobInfos sd) - (i + 1))) by lia.
  rewrite (wrap_int64_small (len (BlobInfos sd) - (i + 1) - 1)) by lia.
  set (chunksLeft := len (BlobInfos sd) - (i + 1) - 1).
  set (prefetchLen := if chunksLeft <? DefaultPrefetchLen then chunksLeft
                      else DefaultPrefetchLen).
  assert (Hlen : prefetchLen <= chunksLeft ∧ prefetchLen <= DefaultPrefetchLen).
  { subst prefetchLen. destruct (Z.ltb_spec chunksLeft DefaultPrefetchLen); lia. }
  destruct (Z.leb_spec prefetchLen 0) as [Hnone | Hsome].
  { exists st, []. cbn. rewrite app_nil_r. auto. }
  rewrite (wrap_int64_small (i + 1 + prefetchLen)) by lia.
  destruct (slice (BlobInfos sd) (i + 1) (i + 1 + prefetchLen))
    as [window |] eqn:Hw.
  2:{ unfold slice in Hw.
      destruct (Z.ltb_spec (i + 1) 0); [lia |].
      destruct (Z.ltb_spec (i + 1 + prefetchLen) (i + 1)); [lia |].
      destruct (Z.ltb_spec (len (BlobInfos sd)) (i + 1 + prefetchLen));
        [lia | discriminate]. }
  destruct (prefetch_loop_trace (Key sd) window st)
    as (st' & evs & Hrun & Htr & Hg & Hall).
  exists st', evs. repeat split; try assumption.
  eapply Forall_impl; [exact Hall |].
  intros ev (bi & Hbi & Hev).
  destruct (slice_elem _ _ _ _ _ Hw Hbi) as (j & Hj & Hidx).
  exists j, bi. repeat split; try assumption; lia.
Qed.

(** The loop of [prefetchChunk] is its task, run without another call in
    between. *)
Lemma prefetch_loop_task key window (st : St BS) :
  prefetch_loop key window st = run_task (prefetch_task key window) st.
Proof.
  revert st. induction window as [| bi rest IH]; intros st; [reflexivity |].
  cbn [prefetch_loop prefetch_task run_task].
  unfold call_IsCached, call_GetChunk. munfold.
  destruct (bs_IsCached _ _) as [cached b1].
  destruct cached; [apply IH |].
  cbn [run_task]. unfold call_GetChunk. munfold. cbn.
  destruct (bs_GetChunk _ _ _ _) as [[chunk err] b2].
  destruct err as [e |]; [reflexivity | apply IH].
Qed.

(** Whatever the blob source answers, and whatever is called in between,
    the calls of the task are those of the specification. *)
Lemma prefetch_task_calls key window calls :
  task_calls (prefetch_task key window) calls →
  claimed_calls key window calls.
Proof.
  revert calls. induction window as [| bi rest IH]; intros calls H;
    cbn [prefetch_task] in H.
  - inversion H. constructor.
  - inversion H as [| h k b cached b1 calls1 Hask Hrest |]; subst.
    destruct cached.
    + constructor. now apply IH.
    + inversion Hrest as [| | h key' iv k b' r err b1' calls2 Hget Hrest2];
        subst.
      destruct err as [e |].
      * inversion Hrest2. constructor.
      * constructor. now apply IH.
Qed.

Lemma prefetch_loop_calls key window (st : St BS) :
  ∃ st' calls,
    prefetch_loop key window st = Ok (tt, st')
    ∧ st_trace st' = st_trace st ++ map call_event calls
    ∧ claimed_calls key window calls
    ∧ answered_by calls (st_bs st) (st_bs st').
Proof.
  revert st. induction window as [| bi rest IH]; intros st.
  - exists st, []. cbn. rewrite app_nil_r. repeat split. constructor.
  - cbn [prefetch_loop]. unfold call_IsCached. munfold.
    destruct (bs_IsCached _ _) as [cached b1] eqn:Hask.
    set (h := hex_EncodeToString (BlobHash bi)) in *.
    destruct cached.
    + destruct (IH (upd_bs b1 [EvIsCached h true] st))
        as (st' & calls & Hrun & Htr & Hcalls & Hans).
      exists st', (AskCached h true :: calls). rewrite Hrun.
      split; [reflexivity |]. split; [| split].
      * rewrite Htr. cbn. now rewrite <- app_assoc.
      * now constructor.
      * cbn. eauto.
    + cbn. destruct (bs_GetChunk _ _ _ _) as [[chunk err] b2] eqn:Hget.
      destruct err as [e |].
      * eexists _, [AskCached h false; Fetch h key (IV bi) (Some e)].
        split; [reflexivity |]. split; [| split].
        -- cbn. now rewrite <- app_assoc.
        -- constructor.
        -- cbn. eauto 10.
      * destruct (IH (upd_bs b2 [EvGetChunk h key (IV bi)]
                        (upd_bs b1 [EvIsCached h false] st)))
          as (st' & calls & Hrun & Htr & Hcalls & Hans).
        exists st', (AskCached h false :: Fetch h key (IV bi) None :: calls).
        rewrite Hrun. split; [reflexivity |]. split; [| split].
        -- rewrite Htr. cbn. now rewrite <- !app_assoc.
        -- now constructor.
        -- cbn. eauto 10.
Qed.

(** The blob infos of the window, by their indices. *)
Lemma claimed_window_lookup (sd : SDBlob) (i : Z) (k : nat) (bj : BlobInfo) :
  0 <= i →
  claimed_window sd i !! k = Some bj
  ↔ Z.of_nat k < DefaultPrefetchLen
    ∧ i + 1 + Z.of_nat k < len (BlobInfos sd) - 1
    ∧ index (BlobInfos sd) (i + 1 + Z.of_nat k) = Some bj.
Proof.
  intros Hi. unfold claimed_window, index. cbv zeta.
  destruct (Z.ltb_spec (i + 1 + Z.of_nat k) 0); [lia |].
  rewrite lookup_take_Some, lookup_drop.
  replace (Z.to_nat (i + 1 + Z.of_nat k)) with (Z.to_nat (i + 1) + k)%nat
    by lia.
  split.
  - intros [Hl Hk]. repeat split; [lia | lia | exact Hl].
  - intros (Hd & Hlen & Hl). split; [exact Hl | lia].
Qed.

(** [prefetchChunk] after chunk [i] runs its loop over the window of the
    specification; the slice it takes is within the blob infos. *)
Lemma prefetchChunk_window (st : St BS) (sd : SDBlob) (i : Z) :
  sdBlob (st_stream st) = Some sd →
  len (BlobInfos sd) <= MaxInt64 →
  0 <= i < len (BlobInfos sd) →
  prefetchChunk (i + 1) st = prefetch_loop (Key sd) (claimed_window sd i) st.
Proof.
  intros Hsd Hmax Hi. unfold MaxInt64 in Hmax. unfold prefetchChunk.
  rewrite (bind_eq _ _ _ _ _ (the_sdBlob_eq st sd Hsd)).
  rewrite (wrap_int64_small (len (BlobInfos sd) - (i + 1))) by lia.
  rewrite (wrap_int64_small (len (BlobInfos sd) - (i + 1) - 1)) by lia.
  unfold claimed_window. cbv zeta.
  set (chunksLeft := len (BlobInfos sd) - (i + 1) - 1).
  replace (len (BlobInfos sd) - 1 - (i + 1)) with chunksLeft
    by (subst chunksLeft; lia).
  set (prefetchLen := if chunksLeft <? DefaultPrefetchLen then chunksLeft
                      else DefaultPrefetchLen).
  assert (Hlen : prefetchLen = Z.min DefaultPrefetchLen chunksLeft).
  { subst prefetchLen. destruct (Z.ltb_spec chunksLeft DefaultPrefetchLen); lia. }
  rewrite <- Hlen.
  destruct (Z.leb_spec prefetchLen 0) as [Hnone | Hsome].
  { replace (Z.to_nat prefetchLen) with 0%nat by lia. reflexivity. }
  rewrite (wrap_int64_small (i + 1 + prefetchLen)) by lia.
  unfold slice.
  destruct (Z.ltb_spec (i + 1) 0); [lia |].
  destruct (Z.ltb_spec (i + 1 + prefetchLen) (i + 1)); [lia |].
  destruct (Z.ltb_spec (len (BlobInfos sd)) (i + 1 + prefetchLen)); [lia |].
  cbn [orb].
  replace (i + 1 + prefetchLen - (i + 1)) with prefetchLen by lia.
  reflexivity.
Qed.

(** C5: a successful fetch of chunk [i] with prefetch enabled and [i + 1]
    not yet scheduled marks [i + 1] as scheduled and starts one background
    task for it.  The task goes through the window of the specification
    (the blob infos from index [i + 1] on, fewer than [DefaultPrefetchLen]
    past it and before the terminator): whatever the blob source answers
    and whatever is called in between, it asks [IsCached] for each blob
    info of the window in order, fetches next each one that is not cached
    and none that is, and ends with the first fetch that fails, else with
    the window.  Run in one piece from any later state, it ends without an
    error of its own, leaves the stream, the list of tasks and the
    response alone, and its trace is these calls, answered by the blob
    source one after the other. *)
Theorem GetChunk_prefetch (st : St BS) (sd : SDBlob) (i : Z) (bi : BlobInfo)
    (c : ReadableChunk) (b' : BS) :
  sdBlob (st_stream st) = Some sd →
  len (BlobInfos sd) <= MaxInt64 →
  index (BlobInfos sd) i = Some bi →
  bs_GetChunk (hex_EncodeToString (BlobHash bi)) (Key sd) (IV bi) (st_bs st)
    = ((Some c, None), b') →
  prefetch (player (st_stream st)) = true →
  default false (prefetchedChunks (st_stream st) !! (i + 1)) = false →
  ∃ st1,
    GetChunk i st = Ok ((Some c, None), st1)
    ∧ prefetchedChunks (st_stream st1) !! (i + 1) = Some true
    ∧ st_spawned st1 = st_spawned st ++ [i + 1]
    ∧ (∀ k bj,
         claimed_window sd i !! k = Some bj
         ↔ Z.of_nat k < DefaultPrefetchLen
           ∧ i + 1 + Z.of_nat k < len (BlobInfos sd) - 1
           ∧ index (BlobInfos sd) (i + 1 + Z.of_nat k) = Some bj)
    ∧ (∀ calls,
         task_calls (prefetch_task (Key sd) (claimed_window sd i)) calls →
         claimed_calls (Key sd) (claimed_window sd i) calls)
    ∧ ∀ st2,
        sdBlob (st_stream st2) = Some sd →
        prefetchChunk (i + 1) st2
        = run_task (prefetch_task (Key sd) (claimed_window sd i)) st2
        ∧ ∃ st3 calls,
            prefetchChunk (i + 1) st2 = Ok (tt, st3)
            ∧ same_request st2 st3
            ∧ st_trace st3 = st_trace st2 ++ map call_event calls
            ∧ claimed_calls (Key sd) (claimed_window sd i) calls
            ∧ answered_by calls (st_bs st2) (st_bs st3)
            ∧ well_guarded (map call_event calls) = true
            ∧ Forall (in_window sd i) (map call_event calls).
Proof.
  intros Hsd Hmax Hbi Hget Hpre Hnot.
  assert (Hi : 0 <= i < len (BlobInfos sd)) by (apply index_is_Some; eauto).
  rewrite (GetChunk_eq st sd i Hsd), Hbi.
  destruct (Z.ltb_spec (len (BlobInfos sd)) i); [lia |].
  unfold call_GetChunk. munfold. rewrite Hget. cbn.
  unfold MaxInt64 in Hmax. rewrite (wrap_int64_small (i + 1)) by lia.
  rewrite (bind_eq this _ _ (st_stream st) _) by reflexivity.
  rewrite Hpre, Hnot. munfold. cbn.
  eexists. split; [reflexivity |]. cbn.
  split; [apply lookup_insert_eq |]. split; [reflexivity |].
  split; [intros k bj; apply claimed_window_lookup; lia |].
  split; [intros calls; apply prefetch_task_calls |].
  intros st2 Hsd2.
  assert (Hwin : prefetchChunk (i + 1) st2
                 = prefetch_loop (Key sd) (claimed_window sd i) st2)
    by (apply prefetchChunk_window; [exact Hsd2 | unfold MaxInt64; lia | lia]).
  split; [rewrite Hwin; apply prefetch_loop_task |].
  destruct (prefetch_loop_calls (Key sd) (claimed_window sd i) st2)
    as (st3 & calls & Hrun & Htr & Hcalls & Hans).
  rewrite <- Hwin in Hrun.
  destruct (prefetchChunk_trace st2 sd i Hsd2)
    as (st3' & evs & Hrun' & Htr' & Hguard & Hin);
    [unfold MaxInt64; lia | lia |].
  assert (st3' = st3) by congruence. subst st3'.
  assert (evs = map call_event calls).
  { rewrite Htr in Htr'. now apply app_inv_head in Htr'. }
  subst evs.
  exists st3, calls. repeat split; try assumption.
  all: eapply prefetchChunk_same_request; eauto.
Qed.

(** ** The errors of a read *)

Section ReadErrors.
Context (P : error → Prop) (Hcol : collaborators_return P)
        (Hidx : P errBlobIndex).

Lemma GetChunk_error i (st st' : St BS) c e :
  GetChunk i st = Ok ((c, Some e), st') → P e.
Proof.
  destruct Hcol as (Hget & _ & _).
  unfold GetChunk, call_GetChunk. munfold. intros H.
  destruct (sdBlob (st_stream st)) as [sd |]; [| discriminate].
  destruct (len (BlobInfos sd) <? i).
  { injection H as _ <- _. exact Hidx. }
  destruct (index (BlobInfos sd) i) as [bi |]; [| discriminate].
  destruct (bs_GetChunk _ _ _ _) as [[chunk err] b] eqn:Hcall.
  destruct err as [e0 |].
  { injection H as _ <- _. eapply Hget; eauto. }
  destruct chunk; [| discriminate].
  cbn in H. destruct (_ && _) in H; discriminate.
Qed.

Lemma RemoveChunk_error i (st st' : St BS) e :
  RemoveChunk i st = Ok (Some e, st') → P e.
Proof.
  destruct Hcol as (_ & Hclear & _).
  unfold RemoveChunk, call_clearChuckFromCache. munfold. intros H.
  destruct (sdBlob (st_stream st)) as [sd |]; [| discriminate].
  destruct (len (BlobInfos sd) <? i).
  { injection H as <- _. exact Hidx. }
  destruct (index (BlobInfos sd) i) as [bi |]; [| discriminate].
  destruct (bs_clearChuckFromCache _ _) as [err b] eqn:Hcall.
  injection H as -> _. eapply Hclear; eauto.
Qed.

Lemma attempt_loop_error sr fuel i read dest (st st' : St BS) i' n e d :
  attempt_loop sr fuel i read dest st = Ok ((i', n, Some e, d), st') → P e.
Proof.
  destruct Hcol as (_ & _ & Hread).
  revert i read dest st.
  induction fuel as [| fuel IH]; intros i read dest st H;
    cbn [attempt_loop] in H.
  - discriminate.
  - destruct (ByteRangeForChunk sr i) as [offset readLen].
    apply bind_Ok in H as ([b err] & st1 & Hget & H).
    destruct err as [e0 |].
    { injection H as _ _ <- _ _. eapply GetChunk_error; eauto. }
    destruct ((read <? 0) || (slen dest <? read)); [discriminate |].
    destruct (chunk_Read _ _ _ _) as [[k err] tail] eqn:Hcall.
    destruct err as [e0 |].
    { injection H as _ _ <- _ _. eapply Hread; eauto. }
    eapply IH; eauto.
Qed.

Lemma readFromChunks_loop_error iters read sr dest (st st' : St BS) n e d :
  readFromChunks_loop iters read sr dest st = Ok ((n, Some e, d), st') → P e.
Proof.
  revert dest st.
  induction iters as [| iters IH]; intros dest st H;
    cbn [readFromChunks_loop] in H.
  - discriminate.
  - apply bind_Ok in H as ([[[idx read'] err] d1] & st1 & Hatt & H).
    destruct err as [e0 |].
    { injection H as _ <- _ _. eapply attempt_loop_error; eauto. }
    destruct (0 <? read'); [discriminate |].
    apply bind_Ok in H as (err & st2 & Hrm & H).
    destruct err as [e0 |].
    { injection H as _ <- _ _. eapply RemoveChunk_error; eauto. }
    eapply IH; eauto.
Qed.

Lemma Read_error dest (st st' : St BS) n e d :
  Read dest st = Ok ((n, Some e, d), st') → P e.
Proof.
  unfold Read. intros H.
  rewrite (bind_eq this _ st (st_stream st) st) in H by reflexivity.
  apply bind_Ok in H as ([[n0 err] d0] & st1 & Hread & H).
  munfold. injection H as _ -> _ _.
  eapply readFromChunks_loop_error; eauto.
Qed.

End ReadErrors.

(** C6, amended: [Read] creates no [io.EOF]: at the current offset equal to
    the size, as at any other offset, an error that it returns is the one
    returned by the fetch of a chunk, by the chunk's own read or by the
    purge, or the index error of [GetChunk] and [RemoveChunk]; when the blob
    source and the chunk reader never return [io.EOF], neither does
    [Read]. *)
Theorem Read_returns_no_EOF (dest : string) (st st' : St BS) n err d :
  collaborators_return (λ e, e ≠ io_EOF) →
  Read dest st = Ok ((n, err, d), st') →
  err ≠ Some io_EOF.
Proof.
  intros Hcol H ->.
  apply (Read_error (λ e, e ≠ io_EOF) Hcol ltac:(discriminate)
           _ _ _ _ _ _ H).
  reflexivity.
Qed.

End Proofs.

(** ** Strings and runes *)

Lemma app_cons (c : ascii) (a b : string) :
  String c a +:+ b = String c (a +:+ b).
Proof. reflexivity. Qed.

Lemma string_take_drop (n : nat) (s : string) :
  string_take n s +:+ string_drop n s = s.
Proof.
  revert s. induction n as [| n IH]; intros s; [reflexivity |].
  destruct s as [| c s]; [reflexivity |].
  cbn [string_take string_drop]. rewrite app_cons. now f_equal.
Qed.

Lemma string_drop_length (n : nat) (s : string) :
  String.length (string_drop n s) = (String.length s - n)%nat.
Proof.
  revert s. induction n as [| n IH]; intros s; cbn [string_drop].
  - lia.
  - destruct s as [| c s]; cbn [String.length]; [reflexivity | apply IH].
Qed.

(** A rune is one to four bytes wide, and no wider than the string. *)
Lemma utf8_width (c : ascii) (t : string) :
  (1 <= snd (utf8_DecodeRuneInString (String c t))
   <= String.length (String c t))%nat.
Proof.
  unfold utf8_DecodeRuneInString.
  destruct t as [| c1 [| c2 [| c3 t]]];
    cbn [string_take list_ascii_of_string map String.length];
    repeat match goal with
      | |- context [if ?b then _ else _] => destruct b
      end; cbn [snd]; lia.
Qed.

(** The runes of a string partition its bytes. *)
Lemma decode_runes_concat (fuel : nat) (s : string) :
  (String.length s <= fuel)%nat →
  string_concat (map snd (decode_runes fuel s)) = s.
Proof.
  revert s. induction fuel as [| fuel IH]; intros s Hlen.
  - destruct s; [reflexivity | cbn in Hlen; lia].
  - destruct s as [| c t]; [reflexivity |].
    cbn [decode_runes].
    pose proof (utf8_width c t) as Hw.
    destruct (utf8_DecodeRuneInString (String c t)) as [r w].
    cbn [snd] in Hw. cbn [map snd string_concat].
    rewrite IH.
    + apply string_take_drop.
    + rewrite string_drop_length. cbn [String.length] in *. lia.
Qed.

Lemma runes_concat (s : string) : string_concat (map snd (runes s)) = s.
Proof. apply decode_runes_concat. lia. Qed.

Lemma app_nil_l (b : string) : "" +:+ b = b.
Proof. reflexivity. Qed.

Lemma string_app_assoc (a b c : string) : (a +:+ b) +:+ c = a +:+ (b +:+ c).
Proof.
  induction a as [| x a IH]; [reflexivity |].
  rewrite !app_cons. now f_equal.
Qed.

Lemma string_app_nil_r (a : string) : a +:+ "" = a.
Proof.
  induction a as [| x a IH]; [reflexivity |].
  rewrite app_cons. now f_equal.
Qed.

Lemma prefix_app (p s : string) :
  String.prefix p s = true ↔ ∃ post, s = p +:+ post.
Proof.
  revert s. induction p as [| c p IH]; intros s.
  - split; [intros _; now exists s | intros _; now destruct s].
  - destruct s as [| d s]; cbn [String.prefix].
    + split; [discriminate | intros [post H]; discriminate].
    + destruct (Ascii.ascii_dec c d) as [-> | Hne].
      * rewrite IH. split; intros [post H]; exists post.
        -- rewrite app_cons. now f_equal.
        -- rewrite app_cons in H. now injection H.
      * split; [discriminate |].
        intros [post H]. rewrite app_cons in H. congruence.
Qed.

Lemma HasPrefix_drop (s p : string) :
  strings_HasPrefix s p = true → s = p +:+ string_drop (String.length p) s.
Proof.
  unfold strings_HasPrefix. intros H. apply prefix_app in H as [post ->].
  f_equal. induction p as [| c p IH]; [reflexivity | exact IH].
Qed.

Lemma string_take_app (p x : string) :
  string_take (String.length p) (p +:+ x) = p.
Proof.
  induction p as [| c p IH]; [now destruct x |].
  rewrite app_cons. cbn [String.length string_take]. now f_equal.
Qed.

(** [strings.Contains] finds the substring where it occurs. *)
Lemma strings_Contains_spec (s substr : string) :
  strings_Contains s substr = true ↔ ∃ pre post, s = pre +:+ substr +:+ post.
Proof.
  induction s as [| c s IH]; cbn [strings_Contains].
  - rewrite orb_false_r, prefix_app. split.
    + intros [post H]. now exists "", post.
    + intros (pre & post & H). exists post.
      destruct pre; [exact H | discriminate].
  - rewrite orb_true_iff, prefix_app, IH. split.
    + intros [[post H] | (pre & post & H)].
      * now exists "", post.
      * exists (String c pre), post. rewrite app_cons. now f_equal.
    + intros (pre & post & H). destruct pre as [| d pre].
      * left. now exists post.
      * right. rewrite app_cons in H. injection H as _ H. now exists pre, post.
Qed.

Lemma last_index_no_dot (pos : Z) (s : string) :
  strings_Contains s "." = false → last_index_from pos s "." = -1.
Proof.
  revert pos. induction s as [| c s IH]; intros pos H.
  - reflexivity.
  - cbn [strings_Contains] in H. apply orb_false_elim in H as [Hp Hs].
    cbn [last_index_from]. rewrite (IH _ Hs), Hp. reflexivity.
Qed.

Lemma last_index_dot (pos : Z) (p q : string) :
  0 <= pos → strings_Contains q "." = false →
  last_index_from pos (p +:+ "." +:+ q) "." = pos + Z.of_nat (String.length p).
Proof.
  revert pos. induction p as [| c p IH]; intros pos Hpos Hq.
  - rewrite app_nil_l, app_cons, app_nil_l. cbn [last_index_from].
    rewrite (last_index_no_dot _ _ Hq).
    assert (Hdot : String.prefix "." (String "." q) = true)
      by (apply prefix_app; now exists q).
    rewrite Hdot. cbn. lia.
  - rewrite app_cons. cbn [last_index_from String.length].
    rewrite (IH (pos + 1)) by (lia || assumption).
    destruct (Z.leb_spec 0 (pos + 1 + Z.of_nat (String.length p))); lia.
Qed.

(** The residue of a speech URL: the suffix that starts at the last dot is
    removed. *)
Lemma speech_residue (rest : string) :
  let extStart := strings_LastIndex rest "." in
  let uri :=
    if 0 <=? extStart then string_take (Z.to_nat extStart) rest else rest in
  (∀ p q, rest = p +:+ "." +:+ q → strings_Contains q "." = false → uri = p)
  ∧ (strings_Contains rest "." = false → uri = rest).
Proof.
  cbv zeta. unfold strings_LastIndex. split.
  - intros p q -> Hq. rewrite (last_index_dot 0 p q) by (lia || assumption).
    destruct (Z.leb_spec 0 (0 + Z.of_nat (String.length p))); [| lia].
    replace (Z.to_nat (0 + Z.of_nat (String.length p)))
      with (String.length p) by lia.
    apply string_take_app.
  - intros H. now rewrite (last_index_no_dot 0 rest H).
Qed.

Section HandlerProofs.
Context {BS : Type} {Src : BlobSource BS} {Ops : ChunkOps}
        {HOps : HandlerOps BS}.

(** C7: [processStreamError] writes one status and then the text of the
    error as the body; the status is that of the first matching row, in this
    order: 402 for the paid-stream error, 404 for the stream-not-found error,
    503 for a text with "blob not found" or "hash in response does not
    match", 401 for a text with "token contains an invalid number of
    segments" or "crypto/rsa: verification error", 410 for a text with
    "token is expired", and 500 otherwise. *)
Theorem processStreamError_status (errorType uri : string) (r : Request)
    (err : error) (st : St BS) :
  processStreamError errorType uri r err st =
    Ok (tt, upd_resp
              (λ l, (l ++ [WriteHeader (claimed_status err)])
                    ++ [Write (Error err)]) st).
Proof.
  unfold processStreamError, claimed_status.
  destruct (errors_Is err PaidStream); [reflexivity |].
  destruct (errors_Is err StreamNotFound); [reflexivity |].
  destruct (strings_Contains (Error err) "blob not found"); [reflexivity |].
  destruct (strings_Contains (Error err) "hash in response does not match");
    [reflexivity |].
  destruct (strings_Contains (Error err)
              "token contains an invalid number of segments"); [reflexivity |].
  destruct (strings_Contains (Error err) "crypto/rsa: verification error");
    [reflexivity |].
  destruct (strings_Contains (Error err) "token is expired"); reflexivity.
Qed.

(** C9: for a URL that begins with "/speech/" the URI is the rest of the URL
    with the suffix that starts at its last dot removed (the rest itself when
    it has no dot); an empty URI is answered with 404 and nothing else
    happens; otherwise, and for every other URL with the URI
    [claim_name#claim_id] of the route variables, the handler starts by
    resolving that URI. *)
Theorem Handle_uri (r : Request) (st : St BS) :
  (strings_HasPrefix (URL_String r) SpeechPrefix = true →
   ∃ rest uri,
     URL_String r = SpeechPrefix +:+ rest
     ∧ (∀ p q, rest = p +:+ "." +:+ q → strings_Contains q "." = false →
        uri = p)
     ∧ (strings_Contains rest "." = false → uri = rest)
     ∧ (uri = "" →
        Handle r st =
          Ok (tt, upd_resp (λ l, l ++ [WriteHeader StatusNotFound]) st))
     ∧ (uri ≠ "" →
        Handle r st =
          (res ← call_ResolveStream uri; respond r uri "" res) st))
  ∧ (strings_HasPrefix (URL_String r) SpeechPrefix = false →
     let uri := var r "claim_name" +:+ "#" +:+ var r "claim_id" in
     Handle r st =
       (res ← call_ResolveStream uri; respond r uri (var r "token") res) st).
Proof.
  unfold Handle. split; intros Hpre; rewrite Hpre; [| reflexivity].
  set (rest := string_drop (String.length SpeechPrefix) (URL_String r)).
  set (extStart := strings_LastIndex rest ".").
  set (uri := if 0 <=? extStart then string_take (Z.to_nat extStart) rest
              else rest).
  exists rest, uri. split; [now apply HasPrefix_drop |].
  destruct (speech_residue rest) as [Hdot Hnodot].
  split; [exact Hdot |]. split; [exact Hnodot |].
  split; intros Huri.
  - now rewrite Huri.
  - destruct uri; [congruence | reflexivity].
Qed.

(** ** The download header *)

Lemma replace_runs_delete (keep : Z → bool) (in_match : bool)
    (rs : list (Z * string)) :
  replace_runs keep "" in_match rs
  = string_concat (map snd (filter (λ p, keep (fst p) = true) rs)).
Proof.
  revert in_match. induction rs as [| [c bytes] rs IH]; intros in_match.
  - reflexivity.
  - cbn [replace_runs]. destruct (keep c) eqn:Hk.
    + rewrite filter_cons_True by exact Hk. cbn [map snd string_concat].
      now rewrite IH.
    + rewrite filter_cons_False by (cbn; congruence).
      rewrite IH. now destruct in_match.
Qed.

Lemma ReplaceAllString_delete (keep : Z → bool) (name : string) :
  ReplaceAllString keep name "" = delete_outside keep name.
Proof. apply replace_runs_delete. Qed.

Lemma Query_Get_absent (q : list (string * string)) (key : string) :
  key ∉ map fst q → Query_Get q key = "".
Proof.
  induction q as [| [k v] q IH]; intros Hnot; [reflexivity |].
  cbn [Query_Get]. destruct (String.eqb_spec k key) as [-> | Hne].
  - exfalso. apply Hnot. cbn. apply list_elem_of_here.
  - apply IH. intros Hin. apply Hnot. cbn. now apply list_elem_of_further.
Qed.

Lemma is_empty_false (s : string) : s ≠ "" → is_empty s = false.
Proof. now destruct s. Qed.

Lemma filter_agree {A} (P Q : A → Prop) `{∀ x, Decision (P x)}
    `{∀ x, Decision (Q x)} (l : list A) :
  Forall (λ x, P x ↔ Q x) l → filter P l = filter Q l.
Proof.
  induction 1 as [| x l Hx Hl IH]; [reflexivity |].
  rewrite !filter_cons, IH.
  destruct (decide (P x)), (decide (Q x)); tauto.
Qed.

(** The sanitisation of the end-to-end scenario 5: on ASCII letters the
    category L is [A-Za-z]. *)
Lemma delete_outside_My_Movie :
  (∀ c, 0 <= c < 128 → unicode_IsLetter c = is_ascii_letter c) →
  delete_outside filename_class "My Movie!" = "My Movie".
Proof.
  intros Hascii. unfold delete_outside.
  let rs := eval vm_compute in (runes "My Movie!") in
  change (runes "My Movie!") with rs.
  rewrite (filter_agree _
             (λ p, (is_ascii_letter (fst p) || is_digit (fst p)
                    || (fst p =? 45) || (fst p =? 46) || (fst p =? 95)
                    || (fst p =? 32)) = true)).
  - vm_compute. reflexivity.
  - repeat constructor; cbn [fst]; unfold filename_class;
      now rewrite Hascii by lia.
Qed.

(** C8: with a non-empty [download] parameter [writeHeaders] sets
    [Content-Disposition] to an attachment whose file name is the name of the
    stream with every rune deleted that is not a letter, an ASCII digit,
    [-], [.], [_] or a space, followed by its percent-encoding after
    [filename*=UTF-8'']; without the parameter (or with an empty one) the
    header is left as it was; and the name [My Movie!] becomes [My Movie]. *)
Theorem writeHeaders_Content_Disposition (r : Request) (st : St BS) :
  let name := delete_outside filename_class (Filename (st_stream st)) in
  ∃ st',
    writeHeaders r st = Ok (tt, st')
    ∧ (Query_Get (URL_Query r) paramDownload ≠ "" →
       st_header st' !! "Content-Disposition"
       = Some ("attachment; filename=" +:+ dquote +:+ name +:+ dquote
               +:+ "; filename*=UTF-8''" +:+ url_PathEscape name))
    ∧ (paramDownload ∉ map fst (URL_Query r)
       ∨ Query_Get (URL_Query r) paramDownload = "" →
       st_header st' !! "Content-Disposition"
       = st_header st !! "Content-Disposition")
    ∧ ((∀ c, 0 <= c < 128 → unicode_IsLetter c = is_ascii_letter c) →
       Filename (st_stream st) = "My Movie!" → name = "My Movie").
Proof.
  intros name. unfold writeHeaders.
  rewrite (bind_eq this _ st (st_stream st) st) by reflexivity.
  rewrite ReplaceAllString_delete. fold name.
  destruct (is_empty (Query_Get (URL_Query r) paramDownload)) eqn:Hq.
  - eexists. split; [reflexivity |]. split; [| split].
    + intros Hne. now rewrite (is_empty_false _ Hne) in Hq.
    + intros _. cbn. now rewrite !lookup_insert_ne by discriminate.
    + intros Hascii Hname. subst name. rewrite Hname.
      now apply delete_outside_My_Movie.
  - eexists. split; [reflexivity |]. split; [| split].
    + intros _. cbn. apply lookup_insert_eq.
    + intros [Habs | Hemp].
      * now rewrite (Query_Get_absent _ _ Habs) in Hq.
      * now rewrite Hemp in Hq.
    + intros Hascii Hname. subst name. rewrite Hname.
      now apply delete_outside_My_Movie.
Qed.

End HandlerProofs.

(** * The claims on concrete streams *)

Section Concrete.
Import Fixture.

(** The conversion of [2^53 + 1] to [float64] in the model is the one of
    IEEE 754 binary64, here computed by the primitive floats. *)
Example float64_of_2p53_plus_1 :
  round_to_float64 (2 ^ 53 + 1) = 2 ^ 53
  ∧ FloatOps.Prim2SF (PrimFloat.of_uint63 (Uint63.of_Z (2 ^ 53 + 1)))
    = SpecFloat.S754_finite false (2 ^ 52) 1.
Proof. split; vm_compute; reflexivity. Qed.

Example hex_of_bytes : hex_EncodeToString "ab" = "6162".
Proof. reflexivity. Qed.

Example PathEscape_of_space : url_PathEscape "My Movie" = "My%20Movie".
Proof. reflexivity. Qed.

(** The paid-stream check comes before the checks of the text. *)
Example status_order :
  claimed_status (Wrapped "access: token is expired" errPaidStream) = 402
  ∧ claimed_status (errors_New "blob not found, token is expired") = 503
  ∧ claimed_status (errors_New "token is expired") = 410
  ∧ claimed_status (errors_New "unexpected") = 500.
Proof. repeat split; reflexivity. Qed.

(** ** C4 *)

Lemma Seek_accepts_offset_past_Size_witness :
  Size (st_stream (state (a_stream (2 ^ 53)) mem_small)) = 2 ^ 53
  ∧ Seek (2 ^ 53 + 1) io_SeekStart (state (a_stream (2 ^ 53)) mem_small)
    = Ok ((2 ^ 53 + 1, None),
          upd_stream (with_seekOffset (2 ^ 53 + 1))
            (state (a_stream (2 ^ 53)) mem_small)).
Proof.
  split; [reflexivity |].
  apply Seek_accepts_offset_past_Size. reflexivity.
Defined.

(** ** C10 *)

Lemma index_guard_off_by_one_witness :
  let st := state (with_seek sd_small 0 (a_stream 15)) mem_small in
  sdBlob (st_stream st) = Some sd_small
  ∧ len (BlobInfos sd_small) = 4
  ∧ GetChunk 5 st = Ok ((None, Some errBlobIndex), st)
  ∧ GetChunk 4 st = Panic
  ∧ RemoveChunk (-1) st = Panic.
Proof.
  intros st. split; [reflexivity |]. split; [reflexivity |].
  split; [| split].
  - apply (index_guard_off_by_one st sd_small 5 eq_refl). reflexivity.
  - apply (index_guard_off_by_one st sd_small 4 eq_refl). left. reflexivity.
  - apply (index_guard_off_by_one st sd_small (-1) eq_refl). right. reflexivity.
Defined.

(** ** C1 *)

(** C1, as stated, fails: for a descriptor with the terminator only there is
    no chunk before the terminator to fetch, and the size is 0, not the
    heuristic sum minus 16. *)
Lemma PrepareForReading_terminator_only :
  let st := state (a_stream 0) (mem_without_blobs sd_empty) in
  ∃ st',
    PrepareForReading st = Ok (None, st')
    ∧ sdBlob (st_stream st') = Some sd_empty
    ∧ len (BlobInfos sd_empty) = 1
    ∧ Size (st_stream st') = 0
    ∧ claimed_Size (Size (st_stream st)) (GetSize (source (st_stream st)))
        None (BlobInfos sd_empty) = 2 ^ 64 - 17
    ∧ Size (st_stream st')
      ≠ claimed_Size (Size (st_stream st)) (GetSize (source (st_stream st)))
          None (BlobInfos sd_empty).
Proof.
  intros st. eexists. split; [vm_compute; reflexivity |].
  repeat split; try reflexivity. vm_compute. discriminate.
Qed.

Lemma PrepareForReading_Size_witness :
  let st := state (a_stream 0) mem_small in
  ∃ st',
    PrepareForReading st = Ok (None, st')
    ∧ Size (st_stream st') = 2 * 2097136 + 5.
Proof.
  intros st.
  assert (H : ∃ st', PrepareForReading st = Ok (None, st'))
    by (eexists; vm_compute; reflexivity).
  destruct H as [st' H]. exists st'. split; [exact H |].
  destruct (PrepareForReading_Size st st' H) as (_ & _ & Hthird & _).
  destruct Hthird as (sd & b1 & Hsd & _ & Hcase);
    [vm_compute; discriminate | vm_compute; discriminate |].
  vm_compute in Hsd. injection Hsd as <- <-.
  destruct Hcase as [_ Hlast].
  destruct Hlast as (last & chunk & e & b2 & Hidx & Hget & Hsize);
    [vm_compute; discriminate |].
  vm_compute in Hidx. injection Hidx as <-.
  vm_compute in Hget. injection Hget as <- <- _.
  exact Hsize.
Defined.

(** ** C2 *)

(** C2, as stated, fails: the heuristic path gives 4199252, not 4199191
    (and the sum written in the claim is 4199255). *)
Lemma setSize_heuristic_is_not_4199191 :
  let st := state (with_sdBlob (Some sd_three) (a_stream 0))
              (mem_without_blobs sd_three) in
  map Length (BlobInfos sd_three) = [2097136; 2097136; 5000; 0]
  ∧ ∃ st1 st',
      getStreamSizeFromLastBlobSize st = Ok ((0, Some errBlobNotFound), st1)
      ∧ setSize st = Ok (tt, st')
      ∧ Size (st_stream st') = 4199252
      ∧ Size (st_stream st') ≠ 4199191
      ∧ 2097136 + 2097136 + 4999 - 16 = 4199255.
Proof.
  intros st. split; [reflexivity |]. eexists. eexists.
  split; [vm_compute; reflexivity |].
  split; [vm_compute; reflexivity |].
  repeat split; try reflexivity. vm_compute. discriminate.
Qed.

Lemma setSize_heuristic_scenario_witness :
  let st := state (with_sdBlob (Some sd_three) (a_stream 0))
              (mem_without_blobs sd_three) in
  ∃ st1,
    getStreamSizeFromLastBlobSize st = Ok ((0, Some errBlobNotFound), st1)
    ∧ setSize st = Ok (tt, upd_stream (with_Size 4199252) st1).
Proof.
  intros st. eexists. split; [vm_compute; reflexivity |].
  refine (proj1 (setSize_heuristic_scenario st _ sd_three 0 errBlobNotFound
                   eq_refl eq_refl eq_refl eq_refl _)).
  vm_compute. reflexivity.
Defined.

(** ** C3 *)



(** ** C5 *)

Lemma GetChunk_prefetch_witness :
  let st := state (with_seek sd_small 0 (a_stream 15)) mem_small in
  ∃ st1 st3 calls,
    GetChunk 0 st = Ok ((Some "hello", None), st1)
    ∧ st_spawned st1 = [1]
    ∧ prefetchedChunks (st_stream st1) !! 1 = Some true
    ∧ claimed_window sd_small 0 = [blob 6 1 "b" "B"; blob 6 2 "c" "C"]
    ∧ prefetchChunk 1 st1 = Ok (tt, st3)
    ∧ claimed_calls "K" (claimed_window sd_small 0) calls
    ∧ map call_event calls
      = [EvIsCached "62" true; EvIsCached "63" false;
         EvGetChunk "63" "K" "C"]
    ∧ st_trace st3 = st_trace st1 ++ map call_event calls.
Proof.
  intros st.
  destruct (GetChunk_prefetch st sd_small 0 (blob 6 0 "a" "A") "hello"
              {| m_sd := Some sd_small; m_blobs := m_blobs mem_small;
                 m_hot := ["61"; "62"] |})
    as (st1 & Hget & Hmark & Hspawn & _ & _ & Htask);
    [reflexivity | vm_compute; discriminate | reflexivity | reflexivity
    | reflexivity | reflexivity |].
  assert (Hst1 : ∃ st1', GetChunk 0 st = Ok ((Some "hello", None), st1')
                         ∧ sdBlob (st_stream st1') = Some sd_small
                         ∧ ∃ st3, prefetchChunk 1 st1' = Ok (tt, st3)
                             ∧ st_trace st3
                               = st_trace st1'
                                 ++ [EvIsCached "62" true;
                                     EvIsCached "63" false;
                                     EvGetChunk "63" "K" "C"]).
  { eexists. split; [vm_compute; reflexivity |].
    split; [vm_compute; reflexivity |].
    eexists. split; vm_compute; reflexivity. }
  destruct Hst1 as (st1' & Hget' & Hsd & st3 & Hrun & Htr).
  assert (Heq : st1' = st1) by congruence. subst st1'.
  destruct (Htask st1 Hsd)
    as (_ & st3' & calls & Hrun' & _ & Htr' & Hcalls & _).
  change (prefetchChunk 1 st1 = Ok (tt, st3')) in Hrun'.
  assert (Heq : st3' = st3) by congruence. subst st3'.
  assert (Hevs : map call_event calls
                 = [EvIsCached "62" true; EvIsCached "63" false;
                    EvGetChunk "63" "K" "C"]).
  { rewrite Htr in Htr'. apply app_inv_head in Htr'. now symmetry. }
  exists st1, st3, calls. rewrite Hevs.
  repeat split; try assumption; try reflexivity.
Defined.

(** A fetch that fails is the last call of the task: with no blob in the
    store, the task after chunk 0 asks for chunk 1, fails to fetch it, and
    does not go on to chunk 2. *)
Example prefetch_ends_with_failed_fetch :
  let st := state (with_seek sd_small 0 (a_stream 15))
              (mem_without_blobs sd_small) in
  ∃ st3,
    prefetchChunk 1 st = Ok (tt, st3)
    ∧ st_trace st3 = [EvIsCached "62" false; EvGetChunk "62" "K" "B"]
    ∧ claimed_calls "K" (claimed_window sd_small 0)
        [AskCached "62" false; Fetch "62" "K" "B" (Some errBlobNotFound)].
Proof.
  intros st. eexists. split; [vm_compute; reflexivity |].
  split; [reflexivity |]. apply (claimed_failed "K" (blob 6 1 "b" "B")).
Qed.

(** ** C6 *)

Lemma fixture_returns_no_EOF : collaborators_return (λ e, e ≠ io_EOF).
Proof.
  repeat split.
  - intros h key iv b r e b'. cbn.
    destruct (assoc (m_blobs b) h); intros [= <- <-]; discriminate.
  - intros h b e b'. cbn. discriminate.
  - intros c offset n dest k e dest'. cbn. unfold spec_chunk_Read.
    destruct (_ || _); intros [= <- <-]; discriminate.
Qed.

(** C6, as stated, fails: for a stream of one chunk of five bytes, a read at
    the current offset 5, the size, fetches that chunk and reads it at
    offset 5, which the chunk reader refuses; [Read] returns that error, not
    [io.EOF]. *)
Lemma Read_at_Size_is_not_EOF :
  let st := state (with_seek sd_hello 5 (a_stream 5)) mem_hello in
  0 < Size (st_stream st)
  ∧ seekOffset (st_stream st) = Size (st_stream st)
  ∧ (∃ st', Read "0123456789" st
            = Ok ((0, Some errOutOfBounds, "0123456789"), st'))
  ∧ ¬ ∃ d st', Read "0123456789" st = Ok ((0, Some io_EOF, d), st').
Proof.
  intros st. split; [reflexivity |]. split; [reflexivity |].
  assert (H : ∃ st', Read "0123456789" st
                     = Ok ((0, Some errOutOfBounds, "0123456789"), st'))
    by (eexists; vm_compute; reflexivity).
  split; [exact H |].
  destruct H as [st' H]. intros (d & st'' & H'). rewrite H in H'.
  discriminate.
Qed.

Lemma Read_returns_no_EOF_witness :
  let st := state (with_seek sd_small 15 (a_stream 15)) mem_small in
  ∃ st',
    Read "0123456789" st = Ok ((0, Some errOutOfBounds, "0123456789"), st')
    ∧ Some errOutOfBounds ≠ Some io_EOF.
Proof.
  intros st.
  assert (H : ∃ st', Read "0123456789" st
                     = Ok ((0, Some errOutOfBounds, "0123456789"), st'))
    by (eexists; vm_compute; reflexivity).
  destruct H as [st' H]. exists st'. split; [exact H |].
  exact (Read_returns_no_EOF _ _ _ _ _ _ fixture_returns_no_EOF H).
Defined.

(** ** C8 *)

Lemma writeHeaders_Content_Disposition_witness :
  let st := state (a_stream 0) mem_small in
  let r := a_request "/claims/my-movie/abc" [("download", "1")] in
  ∃ st',
    writeHeaders r st = Ok (tt, st')
    ∧ st_header st' !! "Content-Disposition"
      = Some ("attachment; filename=" +:+ dquote +:+ "My Movie" +:+ dquote
              +:+ "; filename*=UTF-8''My%20Movie").
Proof.
  intros st r.
  destruct (writeHeaders_Content_Disposition r st)
    as (st' & Hrun & Hset & _ & Hname).
  exists st'. split; [exact Hrun |].
  rewrite Hset by discriminate.
  rewrite Hname by reflexivity. reflexivity.
Defined.

(** ** C9 *)

Lemma Handle_uri_witness :
  let st := state (a_stream 0) mem_small in
  let r := a_request "/speech/foo.mp4" [] in
  strings_HasPrefix (URL_String r) SpeechPrefix = true
  ∧ Handle r st = (res ← call_ResolveStream "foo"; respond r "foo" "" res) st.
Proof.
  intros st r. split; [reflexivity |].
  destruct (proj1 (Handle_uri r st) eq_refl)
    as (rest & uri & Hurl & Hdot & _ & _ & Hres).
  assert (Hrest : rest = "foo.mp4").
  { change (URL_String r) with (SpeechPrefix +:+ "foo.mp4") in Hurl.
    now apply (inj (String.app SpeechPrefix)) in Hurl. }
  assert (Huri : uri = "foo")
    by (apply (Hdot "foo" "mp4"); [exact Hrest | reflexivity]).
  subst uri. apply Hres. discriminate.
Defined.

End Concrete.

(** * Further properties of the stream and the handler *)

Ltac mrun :=
  unfold mbind, M_bind, mret, M_ret, this, modify, panic, the_sdBlob,
    call_GetSDBlob, call_GetChunk, call_IsCached, call_clearChuckFromCache
    in *.

Ltac rel_side tac := first [typeclasses eauto | intros; tac].

Ltac rel_step tac :=
  first
    [ apply respects_ret; typeclasses eauto
    | apply respects_panic
    | apply respects_this; typeclasses eauto
    | apply respects_the_sdBlob; typeclasses eauto
    | apply respects_call_GetSDBlob; rel_side tac
    | apply respects_call_GetChunk; rel_side tac
    | apply respects_call_IsCached; rel_side tac
    | apply respects_call_clear; rel_side tac
    | apply respects_modify; rel_side tac
    | apply respects_bind; [typeclasses eauto | | intros ?]
    | match goal with
      | |- respects _ (match ?x with _ => _ end) => destruct x
      end ].

(** * More properties of the stream *)

Section MoreStream.
Context {BS : Type} {Src : BlobSource BS} {Ops : ChunkOps}.

Local Abbreviation respects := (respects (BS := BS)).

(** ** Seek *)

Lemma Seek_eq (offset whence : Z) (st : St BS) :
  Seek offset whence st =
    let s := st_stream st in
    if Size s =? 0 then Ok ((0, Some errStreamSizeZero), st)
    else if Size s <? uint64_of_float64 (math_Abs (float64_of_int64 offset))
    then Ok ((0, Some errOutOfBounds), st)
    else
      match (if whence =? io_SeekStart then Some offset
             else if whence =? io_SeekCurrent
             then Some (wrap_int64 (seekOffset s + offset))
             else if whence =? io_SeekEnd
             then Some (wrap_int64 (wrap_int64 (Size s) - offset))
             else None)
      with
      | None => Ok ((0, Some (errors_New "invalid seek whence argument")), st)
      | Some newOffset =>
          if newOffset <? 0 then Ok ((0, Some errSeekingBeforeStart), st)
          else Ok ((newOffset, None),
                   upd_stream (with_seekOffset newOffset) st)
      end.
Proof.
  unfold Seek.
  rewrite (bind_eq this _ st (st_stream st) st) by reflexivity.
  cbv zeta.
  destruct (Size (st_stream st) =? 0); [reflexivity |].
  destruct (Size (st_stream st) <? _); [reflexivity |].
  destruct (if whence =? io_SeekStart then _ else _) as [newOffset |];
    [| reflexivity].
  destruct (newOffset <? 0); reflexivity.
Qed.

(** X1: [Seek] from the end measures backwards: for a size within [int64] and
    [0 <= k <= Size] (below [2^53]), [Seek(k, io.SeekEnd)] moves to
    [Size - k] and returns it; with [k = 0] it returns the size. *)
Theorem Seek_from_end (k : Z) (st : St BS) :
  0 < Size (st_stream st) <= MaxInt64 →
  0 <= k <= Size (st_stream st) →
  k <= 2 ^ 53 →
  Seek k io_SeekEnd st =
    Ok ((Size (st_stream st) - k, None),
        upd_stream (with_seekOffset (Size (st_stream st) - k)) st).
Proof.
  intros HS Hk Hk53. unfold MaxInt64 in HS. rewrite Seek_eq. cbv zeta.
  rewrite abs_via_float64_exact by lia.
  destruct (Z.eqb_spec (Size (st_stream st)) 0); [lia |].
  destruct (Z.ltb_spec (Size (st_stream st)) (Z.abs k)); [lia |].
  change (io_SeekEnd =? io_SeekStart) with false.
  change (io_SeekEnd =? io_SeekCurrent) with false.
  change (io_SeekEnd =? io_SeekEnd) with true. cbv iota.
  rewrite (wrap_int64_small (Size (st_stream st))) by lia.
  rewrite wrap_int64_small by lia.
  destruct (Z.ltb_spec (Size (st_stream st) - k) 0); [lia | reflexivity].
Qed.

(** X2: A size beyond [int64] cannot be measured: for [2^63 <= Size < 2^64],
    [Seek(0, io.SeekEnd)] fails with SeekingBeforeStart and leaves the offset
    as it was. *)
Theorem Seek_from_end_huge (st : St BS) :
  2 ^ 63 <= Size (st_stream st) < 2 ^ 64 →
  Seek 0 io_SeekEnd st = Ok ((0, Some errSeekingBeforeStart), st).
Proof.
  intros HS. rewrite Seek_eq. cbv zeta.
  destruct (Z.eqb_spec (Size (st_stream st)) 0); [lia |].
  change (uint64_of_float64 (math_Abs (float64_of_int64 0))) with 0.
  destruct (Z.ltb_spec (Size (st_stream st)) 0); [lia |].
  change (io_SeekEnd =? io_SeekStart) with false.
  change (io_SeekEnd =? io_SeekCurrent) with false.
  change (io_SeekEnd =? io_SeekEnd) with true. cbv iota.
  assert (Hw : wrap_int64 (Size (st_stream st))
               = Size (st_stream st) - 2 ^ 64).
  { unfold wrap_int64.
    replace (Size (st_stream st) + 2 ^ 63)
      with (Size (st_stream st) - 2 ^ 63 + 1 * 2 ^ 64) by lia.
    rewrite Z.mod_add by lia. rewrite Z.mod_small by lia. lia. }
  rewrite Hw, Z.sub_0_r, wrap_int64_small by lia.
  destruct (Z.ltb_spec (Size (st_stream st) - 2 ^ 64) 0); [reflexivity | lia].
Qed.

(** X3: Two seeks compose: from the start to [a] and then by [b] from the
    current offset is one seek from the start to [a + b], when the three
    offsets are within the size (below [2^53]) and [a] and [a + b] are not
    negative. *)
Theorem Seek_start_then_current (a b : Z) (st st1 : St BS) r :
  0 < Size (st_stream st) →
  0 <= a → 0 <= a + b →
  Z.abs a <= Size (st_stream st) → Z.abs b <= Size (st_stream st) →
  a + b <= Size (st_stream st) →
  Size (st_stream st) <= 2 ^ 53 →
  Seek a io_SeekStart st = Ok (r, st1) →
  Seek b io_SeekCurrent st1 = Seek (a + b) io_SeekStart st
  ∧ Seek (a + b) io_SeekStart st
    = Ok ((a + b, None), upd_stream (with_seekOffset (a + b)) st).
Proof.
  intros HS Ha Hab Haa Hbb Hle H53 H1.
  rewrite Seek_eq in H1. cbv zeta in H1.
  rewrite abs_via_float64_exact in H1 by lia.
  destruct (Z.eqb_spec (Size (st_stream st)) 0); [lia |].
  destruct (Z.ltb_spec (Size (st_stream st)) (Z.abs a)); [lia |].
  change (io_SeekStart =? io_SeekStart) with true in H1. cbv iota in H1.
  destruct (Z.ltb_spec a 0); [lia |].
  injection H1 as _ <-.
  rewrite !Seek_eq. cbv zeta. cbn [st_stream upd_stream with_seekOffset Size seekOffset].
  rewrite !abs_via_float64_exact by lia.
  destruct (Z.eqb_spec (Size (st_stream st)) 0); [lia |].
  destruct (Z.ltb_spec (Size (st_stream st)) (Z.abs b)); [lia |].
  destruct (Z.ltb_spec (Size (st_stream st)) (Z.abs (a + b))); [lia |].
  change (io_SeekCurrent =? io_SeekStart) with false.
  change (io_SeekCurrent =? io_SeekCurrent) with true.
  change (io_SeekStart =? io_SeekStart) with true. cbv iota.
  rewrite wrap_int64_small by lia.
  destruct (Z.ltb_spec (a + b) 0); [lia |].
  split; reflexivity.
Qed.

(** X4: [Seek] bounds the distance, not the position: relative to the current
    offset, a step of at most the size is taken wherever it leads, also
    past the end of the stream. *)
Theorem Seek_current_unchecked (b : Z) (st : St BS) :
  0 < Size (st_stream st) <= 2 ^ 53 →
  Z.abs b <= Size (st_stream st) →
  0 <= seekOffset (st_stream st) + b < 2 ^ 63 →
  Seek b io_SeekCurrent st =
    Ok ((seekOffset (st_stream st) + b, None),
        upd_stream (with_seekOffset (seekOffset (st_stream st) + b)) st).
Proof.
  intros HS Hb Hnew. rewrite Seek_eq. cbv zeta.
  rewrite abs_via_float64_exact by lia.
  destruct (Z.eqb_spec (Size (st_stream st)) 0); [lia |].
  destruct (Z.ltb_spec (Size (st_stream st)) (Z.abs b)); [lia |].
  change (io_SeekCurrent =? io_SeekStart) with false.
  change (io_SeekCurrent =? io_SeekCurrent) with true. cbv iota.
  rewrite wrap_int64_small by lia.
  destruct (Z.ltb_spec (seekOffset (st_stream st) + b) 0); [lia | reflexivity].
Qed.

End MoreStream.

Section MoreRead.
Context {BS : Type} {Src : BlobSource BS} {Ops : ChunkOps}.

Local Abbreviation respects := (respects (BS := BS)).
Local Abbreviation fetches_only := (fetches_only (BS := BS)).
Local Abbreviation keeps_schedule := (keeps_schedule (BS := BS)).

#[local] Instance fetches_only_preorder : PreOrder fetches_only.
Proof.
  split.
  - intros st. unfold fetches_only. repeat split.
    now destruct (st_stream st).
  - intros a b c (Hab & Hab1 & Hab2 & Hab3) (Hbc & Hbc1 & Hbc2 & Hbc3).
    unfold fetches_only. repeat split; try congruence.
    destruct (st_stream a), (st_stream b), (st_stream c).
    cbn in *. injection Hab as <- <- <- <- <- <- <- <- <-.
    injection Hbc as <- <- <- <- <- <- <- <- <-. reflexivity.
Qed.

#[local] Instance keeps_schedule_preorder : PreOrder keeps_schedule.
Proof.
  split; unfold keeps_schedule; [intros st H; exact H |].
  intros a b c Hab Hbc H. auto.
Qed.

Lemma fetches_only_bs (st : St BS) b evs : fetches_only st (upd_bs b evs st).
Proof. unfold fetches_only. cbn. repeat split. now destruct (st_stream st). Qed.

Lemma keeps_schedule_bs (st : St BS) b evs :
  keeps_schedule st (upd_bs b evs st).
Proof. intros H. exact H. Qed.

Ltac fetches_rel :=
  unfold fetches_only; cbn; repeat split;
  match goal with |- context [st_stream ?st] => now destruct (st_stream st) end.

(** [GetChunk] keeps to the blob source, the trace, the prefetch marks and
    the spawned tasks. *)
Lemma GetChunk_fetches_only i : respects fetches_only (GetChunk i).
Proof. unfold GetChunk. repeat rel_step fetches_rel. Qed.

Lemma RemoveChunk_fetches_only i : respects fetches_only (RemoveChunk i).
Proof. unfold RemoveChunk. repeat rel_step fetches_rel. Qed.

Lemma attempt_loop_fetches_only sr fuel i read dest :
  respects fetches_only (attempt_loop sr fuel i read dest).
Proof.
  revert i read dest.
  induction fuel as [| fuel IH]; intros i read dest; cbn [attempt_loop].
  - repeat rel_step fetches_rel.
  - destruct (ByteRangeForChunk sr i) as [offset readLen].
    apply respects_bind;
      [typeclasses eauto | apply GetChunk_fetches_only |].
    intros [b err]. repeat rel_step fetches_rel. apply IH.
Qed.

Lemma readFromChunks_loop_fetches_only iters read sr dest :
  respects fetches_only (readFromChunks_loop iters read sr dest).
Proof.
  revert dest.
  induction iters as [| iters IH]; intros dest; cbn [readFromChunks_loop].
  - repeat rel_step fetches_rel.
  - apply respects_bind;
      [typeclasses eauto | apply attempt_loop_fetches_only |].
    intros [[[idx read'] err] d].
    destruct err; [repeat rel_step fetches_rel |].
    destruct (0 <? read'); [repeat rel_step fetches_rel |].
    apply respects_bind;
      [typeclasses eauto | apply RemoveChunk_fetches_only |].
    intros err. destruct err; [repeat rel_step fetches_rel | apply IH].
Qed.

(** A read that returns no error returns the count declared before the
    loop, which no pass assigns. *)
Lemma readFromChunks_loop_count iters read sr dest (st st' : St BS) n d :
  readFromChunks_loop iters read sr dest st = Ok ((n, None, d), st') →
  n = read.
Proof.
  revert dest st.
  induction iters as [| iters IH]; intros dest st H;
    cbn [readFromChunks_loop] in H.
  - now injection H as <- _ _.
  - apply bind_Ok in H as ([[[idx read'] err] d1] & st1 & Hatt & H).
    destruct err as [e |]; [discriminate |].
    destruct (0 <? read'); [now injection H as <- _ _ |].
    apply bind_Ok in H as (err & st2 & Hrm & H).
    destruct err as [e |]; [discriminate |].
    eapply IH; eauto.
Qed.

(** X5: [Read] moves the current offset and the counter of delivered bytes by
    the count it returns, and otherwise changes the prefetch marks, the
    spawned tasks, the blob source and the trace only: the stream after the
    read is the stream before it with the new offset and the new marks, so
    its URI, content type, hash, player, claim, source, size and descriptor
    are as they were, and so are the response and its headers. *)
Theorem Read_advances_by_count (dest : string) (st st' : St BS) n err d :
  Read dest st = Ok ((n, err, d), st') →
  st_stream st'
  = with_seekOffset (wrap_int64 (seekOffset (st_stream st) + n))
      (with_prefetchedChunks (prefetchedChunks (st_stream st'))
         (st_stream st))
  ∧ seekOffset (st_stream st') = wrap_int64 (seekOffset (st_stream st) + n)
  ∧ st_out_bytes st' = st_out_bytes st + n
  ∧ URI (st_stream st') = URI (st_stream st)
  ∧ ContentType (st_stream st') = ContentType (st_stream st)
  ∧ hash (st_stream st') = hash (st_stream st)
  ∧ player (st_stream st') = player (st_stream st)
  ∧ claim (st_stream st') = claim (st_stream st)
  ∧ source (st_stream st') = source (st_stream st)
  ∧ Size (st_stream st') = Size (st_stream st)
  ∧ sdBlob (st_stream st') = sdBlob (st_stream st)
  ∧ st_resp st' = st_resp st
  ∧ st_header st' = st_header st.
Proof.
  unfold Read. intros H.
  rewrite (bind_eq this _ st (st_stream st) st) in H by reflexivity.
  apply bind_Ok in H as ([[n0 err0] d0] & st1 & Hread & H).
  apply readFromChunks_loop_fetches_only in Hread
    as (Hs & Hresp & Hhdr & Hout).
  mrun. injection H as <- <- <- <-. cbn.
  rewrite Hresp, Hhdr, Hout, <- Hs.
  destruct (st_stream st1). cbn. repeat split.
Qed.

(** X6: A read that meets no error returns the count 0, whatever the passes
    copied into the destination: the offset and the counter of delivered
    bytes do not move. *)
Theorem Read_without_error_counts_zero (dest : string) (st st' : St BS) n d :
  - 2 ^ 63 <= seekOffset (st_stream st) < 2 ^ 63 →
  Read dest st = Ok ((n, None, d), st') →
  n = 0
  ∧ seekOffset (st_stream st') = seekOffset (st_stream st)
  ∧ st_out_bytes st' = st_out_bytes st.
Proof.
  unfold Read. intros Hoff H.
  rewrite (bind_eq this _ st (st_stream st) st) in H by reflexivity.
  apply bind_Ok in H as ([[n0 err0] d0] & st1 & Hread & H).
  mrun. injection H as -> -> -> <-.
  pose proof (readFromChunks_loop_count _ _ _ _ _ _ _ _ Hread) as ->.
  apply readFromChunks_loop_fetches_only in Hread
    as (Hs & Hresp & Hhdr & Hout).
  cbn. rewrite Hout, <- Hs. cbn.
  split; [reflexivity |]. split; [| lia].
  rewrite Z.add_0_r. apply wrap_int64_small. rewrite <- Hs in Hoff.
  exact Hoff.
Qed.

(** ** A stream without its descriptor *)

Lemma the_sdBlob_nil (st : St BS) :
  sdBlob (st_stream st) = None → the_sdBlob st = Panic.
Proof. unfold the_sdBlob. now intros ->. Qed.

Lemma bind_Panic_l {A B} (m : M BS A) (f : A → M BS B) st :
  m st = Panic → (m ≫= f) st = Panic.
Proof. unfold mbind, M_bind. now intros ->. Qed.

Lemma GetChunk_nil (st : St BS) i :
  sdBlob (st_stream st) = None → GetChunk i st = Panic.
Proof. intros H. apply bind_Panic_l. now apply the_sdBlob_nil. Qed.

Lemma RemoveChunk_nil (st : St BS) i :
  sdBlob (st_stream st) = None → RemoveChunk i st = Panic.
Proof. intros H. apply bind_Panic_l. now apply the_sdBlob_nil. Qed.

Lemma attempt_loop_nil sr fuel i read dest (st : St BS) :
  sdBlob (st_stream st) = None →
  attempt_loop sr fuel i read dest st =
    match fuel with
    | O => Ok ((i, read, None, dest), st)
    | S _ => Panic
    end.
Proof.
  intros H. destruct fuel as [| fuel]; [reflexivity |].
  cbn [attempt_loop]. destruct (ByteRangeForChunk sr i).
  apply bind_Panic_l. now apply GetChunk_nil.
Qed.

Lemma Read_nil (st : St BS) dest :
  sdBlob (st_stream st) = None → Read dest st = Panic.
Proof.
  intros H. unfold Read.
  rewrite (bind_eq this _ st (st_stream st) st) by reflexivity.
  apply bind_Panic_l. unfold readFromChunks.
  cbn [readFromChunks_loop]. unfold attemptReadFromChunks.
  destruct (Z.to_nat _) as [| fuel] eqn:Hfuel.
  - rewrite (bind_eq _ _ _ _ _ (attempt_loop_nil _ 0 _ _ _ st H)).
    cbn [Z.ltb Z.compare]. apply bind_Panic_l. now apply RemoveChunk_nil.
  - apply bind_Panic_l. now rewrite attempt_loop_nil.
Qed.

(** X7: Before [PrepareForReading] has loaded the descriptor, [Read],
    [GetChunk], [RemoveChunk] and [prefetchChunk] end in a nil dereference,
    for every argument. *)
Theorem nil_descriptor_panics (st : St BS) :
  sdBlob (st_stream st) = None →
  (∀ dest, Read dest st = Panic)
  ∧ (∀ i, GetChunk i st = Panic)
  ∧ (∀ i, RemoveChunk i st = Panic)
  ∧ (∀ i, prefetchChunk i st = Panic).
Proof.
  intros H. split; [| split; [| split]].
  - intros dest. now apply Read_nil.
  - intros i. now apply GetChunk_nil.
  - intros i. now apply RemoveChunk_nil.
  - intros i. apply bind_Panic_l. now apply the_sdBlob_nil.
Qed.

(** ** The chunks of a pass *)

Lemma GetChunk_ok_trace (st st' : St BS) sd i c :
  sdBlob (st_stream st) = Some sd →
  GetChunk i st = Ok ((c, None), st') →
  ∃ bi, index (BlobInfos sd) i = Some bi
        ∧ st_trace st' = st_trace st ++ [fetch_event sd bi]
        ∧ sdBlob (st_stream st') = Some sd.
Proof.
  intros Hsd H. rewrite (GetChunk_eq st sd i Hsd) in H.
  destruct (len (BlobInfos sd) <? i); [discriminate |].
  destruct (index (BlobInfos sd) i) as [bi |]; [| discriminate].
  exists bi. split; [reflexivity |].
  unfold call_GetChunk, after_fetch in H. mrun.
  destruct (bs_GetChunk _ _ _ _) as [[chunk err] b].
  cbn in H. destruct err as [e |]; [discriminate |].
  destruct chunk as [chunk |].
  - destruct (prefetch _ && negb _); cbn in H; injection H as _ <-;
      cbn; auto.
  - injection H as _ <-. cbn. auto.
Qed.

Lemma attempt_loop_trace sr fuel i read dest (st st' : St BS) sd i' n d :
  sdBlob (st_stream st) = Some sd →
  attempt_loop sr fuel i read dest st = Ok ((i', n, None, d), st') →
  ∃ bis,
    length bis = fuel
    ∧ (∀ k bi, bis !! k = Some bi →
               index (BlobInfos sd) (i + Z.of_nat k) = Some bi)
    ∧ st_trace st' = st_trace st ++ map (fetch_event sd) bis.
Proof.
  revert i read dest st.
  induction fuel as [| fuel IH]; intros i read dest st Hsd H;
    cbn [attempt_loop] in H.
  - injection H as _ _ _ <-. exists []. cbn. rewrite app_nil_r.
    repeat split. intros k bi Hk. discriminate.
  - destruct (ByteRangeForChunk sr i) as [offset readLen].
    apply bind_Ok in H as ([b err] & st1 & Hget & H).
    destruct err as [e |]; [discriminate |].
    destruct (GetChunk_ok_trace _ _ _ _ _ Hsd Hget) as (bi & Hbi & Htr & Hsd1).
    destruct ((read <? 0) || (slen dest <? read)); [discriminate |].
    destruct (chunk_Read _ _ _ _) as [[k err] tail].
    destruct err as [e |]; [discriminate |].
    destruct (IH _ _ _ _ Hsd1 H) as (bis & Hlen & Hidx & Htr').
    exists (bi :: bis). split; [cbn; now rewrite Hlen |]. split.
    + intros [| j] bj Hj.
      * injection Hj as <-. now rewrite Z.add_0_r.
      * cbn in Hj. apply Hidx in Hj.
        rewrite <- Hj. f_equal. lia.
    + rewrite Htr', Htr. cbn. now rewrite <- app_assoc.
Qed.

(** X8: A pass that meets no error has fetched the chunks of its range, each
    once and in order: the new part of the trace is the fetches of the blob
    infos at [FirstChunkIdx], [FirstChunkIdx + 1], ..., [LastChunkIdx], and
    all of these indices are within the blob infos. *)
Theorem attemptReadFromChunks_fetches_range (sr : streamRange) (dest : string)
    (st st' : St BS) (sd : SDBlob) i n d :
  sdBlob (st_stream st) = Some sd →
  attemptReadFromChunks sr dest st = Ok ((i, n, None, d), st') →
  ∃ bis,
    length bis
    = Z.to_nat (wrap_int64 (LastChunkIdx sr + 1) - FirstChunkIdx sr)
    ∧ (∀ k bi, bis !! k = Some bi →
               index (BlobInfos sd) (FirstChunkIdx sr + Z.of_nat k)
               = Some bi)
    ∧ st_trace st' = st_trace st ++ map (fetch_event sd) bis.
Proof.
  intros Hsd H. unfold attemptReadFromChunks in H.
  exact (attempt_loop_trace _ _ _ _ _ _ _ _ _ _ _ Hsd H).
Qed.

End MoreRead.

Section MoreChunks.
Context {BS : Type} {Src : BlobSource BS} {Ops : ChunkOps}.

Local Abbreviation respects := (respects (BS := BS)).
Local Abbreviation keeps_schedule := (keeps_schedule (BS := BS)).
Local Abbreviation same_request := (same_request (BS := BS)).

#[local] Existing Instance keeps_schedule_preorder.

Ltac keeps_rel :=
  let H := fresh in intros H; exact H.

(** ** The prefetch schedule *)

Lemma scheduled_once_snoc (st : St BS) (j : Z) :
  default false (prefetchedChunks (st_stream st) !! j) = false →
  scheduled_once st →
  scheduled_once
    (upd_spawned (λ l, l ++ [j])
       (upd_stream (λ s, with_prefetchedChunks
                           (<[j := true]> (prefetchedChunks s)) s) st)).
Proof.
  intros Hj [Hnd Hmark]. split; cbn.
  - apply NoDup_app. split; [exact Hnd |]. split; [| apply NoDup_singleton].
    intros k Hk Hkj. apply list_elem_of_singleton in Hkj as ->.
    apply Hmark in Hk. rewrite Hk in Hj. discriminate.
  - intros k Hk. destruct (decide (k = j)) as [-> | Hne].
    + apply lookup_insert_eq.
    + rewrite lookup_insert_ne by congruence.
      apply elem_of_app in Hk as [Hk | Hk]; [now apply Hmark |].
      apply list_elem_of_singleton in Hk. contradiction.
Qed.

Lemma GetChunk_keeps_schedule i : respects keeps_schedule (GetChunk i).
Proof.
  intros st r st' H.
  destruct (sdBlob (st_stream st)) as [sd |] eqn:Hsd;
    [| rewrite GetChunk_nil in H by exact Hsd; discriminate].
  rewrite (GetChunk_eq st sd i Hsd) in H.
  destruct (len (BlobInfos sd) <? i).
  { injection H as _ <-. keeps_rel. }
  destruct (index (BlobInfos sd) i) as [bi |]; [| discriminate].
  unfold call_GetChunk, after_fetch in H. mrun.
  destruct (bs_GetChunk _ _ _ _) as [[chunk err] b]. cbn in H.
  destruct err as [e |]; [injection H as _ <-; keeps_rel |].
  destruct chunk as [chunk |]; [| injection H as _ <-; keeps_rel].
  destruct (prefetch _); cbn in H; [| injection H as _ <-; keeps_rel].
  destruct (default false _) eqn:Hp; cbn in H; injection H as _ <-;
    [keeps_rel |].
  intros Hs. apply (scheduled_once_snoc (upd_bs b _ st) _ Hp Hs).
Qed.

Lemma RemoveChunk_keeps_schedule i : respects keeps_schedule (RemoveChunk i).
Proof. unfold RemoveChunk. repeat rel_step keeps_rel. Qed.

Lemma attempt_loop_keeps_schedule sr fuel i read dest :
  respects keeps_schedule (attempt_loop sr fuel i read dest).
Proof.
  revert i read dest.
  induction fuel as [| fuel IH]; intros i read dest; cbn [attempt_loop].
  - repeat rel_step keeps_rel.
  - destruct (ByteRangeForChunk sr i) as [offset readLen].
    apply respects_bind;
      [typeclasses eauto | apply GetChunk_keeps_schedule |].
    intros [b err]. repeat rel_step keeps_rel. apply IH.
Qed.

Lemma readFromChunks_loop_keeps_schedule iters read sr dest :
  respects keeps_schedule (readFromChunks_loop iters read sr dest).
Proof.
  revert dest.
  induction iters as [| iters IH]; intros dest; cbn [readFromChunks_loop].
  - repeat rel_step keeps_rel.
  - apply respects_bind;
      [typeclasses eauto | apply attempt_loop_keeps_schedule |].
    intros [[[idx read'] err] d].
    destruct err; [repeat rel_step keeps_rel |].
    destruct (0 <? read'); [repeat rel_step keeps_rel |].
    apply respects_bind;
      [typeclasses eauto | apply RemoveChunk_keeps_schedule |].
    intros err. destruct err; [repeat rel_step keeps_rel | apply IH].
Qed.

Lemma Read_keeps_schedule dest : respects keeps_schedule (Read dest).
Proof.
  unfold Read, readFromChunks.
  apply respects_bind; [typeclasses eauto | repeat rel_step keeps_rel |].
  intros s.
  apply respects_bind;
    [typeclasses eauto | apply readFromChunks_loop_keeps_schedule |].
  intros [[n err] d]. repeat rel_step keeps_rel.
Qed.

Lemma prefetch_loop_keeps_schedule key window :
  respects keeps_schedule (prefetch_loop key window).
Proof.
  induction window as [| bi rest IH]; cbn [prefetch_loop].
  - repeat rel_step keeps_rel.
  - apply respects_bind; [typeclasses eauto | repeat rel_step keeps_rel |].
    intros cached. destruct cached; [apply IH |].
    apply respects_bind; [typeclasses eauto | repeat rel_step keeps_rel |].
    intros [c err]. destruct err; [repeat rel_step keeps_rel | apply IH].
Qed.

Lemma prefetchChunk_keeps_schedule i :
  respects keeps_schedule (prefetchChunk i).
Proof.
  unfold prefetchChunk.
  apply respects_bind; [typeclasses eauto | repeat rel_step keeps_rel |].
  intros sd. destruct (_ <=? 0); [repeat rel_step keeps_rel |].
  destruct (slice _ _ _); [apply prefetch_loop_keeps_schedule |].
  repeat rel_step keeps_rel.
Qed.

Lemma Seek_keeps_schedule offset whence :
  respects keeps_schedule (Seek offset whence).
Proof. unfold Seek. repeat rel_step keeps_rel. Qed.

Lemma getStreamSizeFromLastBlobSize_keeps_schedule :
  respects keeps_schedule getStreamSizeFromLastBlobSize.
Proof. unfold getStreamSizeFromLastBlobSize. repeat rel_step keeps_rel. Qed.

Lemma setSize_keeps_schedule : respects keeps_schedule setSize.
Proof.
  unfold setSize.
  apply respects_bind; [typeclasses eauto | repeat rel_step keeps_rel |].
  intros s. destruct (0 <? Size s); [repeat rel_step keeps_rel |].
  destruct (0 <? GetSize (source s)); [repeat rel_step keeps_rel |].
  apply respects_bind;
    [typeclasses eauto | apply getStreamSizeFromLastBlobSize_keeps_schedule |].
  intros [size err]. repeat rel_step keeps_rel.
Qed.

Lemma PrepareForReading_keeps_schedule :
  respects keeps_schedule PrepareForReading.
Proof.
  unfold PrepareForReading.
  apply respects_bind; [typeclasses eauto | repeat rel_step keeps_rel |].
  intros s.
  apply respects_bind; [typeclasses eauto | repeat rel_step keeps_rel |].
  intros [sd err]. destruct err; [repeat rel_step keeps_rel |].
  apply respects_bind; [typeclasses eauto | repeat rel_step keeps_rel |].
  intros _.
  apply respects_bind; [typeclasses eauto | apply setSize_keeps_schedule |].
  intros _. repeat rel_step keeps_rel.
Qed.

(** X9: No method of the stream starts a second prefetch task for an index:
    when the tasks started so far are for distinct indices, each marked in
    [prefetchedChunks], the same holds after any method has returned. *)
Theorem prefetch_scheduled_once (op : StreamOp) (st st' : St BS) :
  scheduled_once st →
  run_op op st = Ok (tt, st') →
  scheduled_once st'.
Proof.
  intros Hs H. revert Hs. change (keeps_schedule st st').
  destruct op; cbn [run_op] in H.
  - apply bind_Ok in H as (a & st1 & H & [= <-]).
    eapply Seek_keeps_schedule; eauto.
  - apply bind_Ok in H as (a & st1 & H & [= <-]).
    eapply Read_keeps_schedule; eauto.
  - apply bind_Ok in H as (a & st1 & H & [= <-]).
    eapply GetChunk_keeps_schedule; eauto.
  - apply bind_Ok in H as (a & st1 & H & [= <-]).
    eapply RemoveChunk_keeps_schedule; eauto.
  - eapply prefetchChunk_keeps_schedule; eauto.
  - eapply setSize_keeps_schedule; eauto.
  - apply bind_Ok in H as (a & st1 & H & [= <-]).
    eapply PrepareForReading_keeps_schedule; eauto.
Qed.

(** X10: [GetChunk] schedules no prefetch when prefetching is off, when the next
    index is already marked, or when it returns no chunk (the fetch failed,
    the index is past the guard, or the source returned nil): the stream
    and the spawned tasks are then as before. *)
Theorem GetChunk_schedules_nothing (i : Z) (st st' : St BS) c err :
  GetChunk i st = Ok ((c, err), st') →
  prefetch (player (st_stream st)) = false
  ∨ prefetchedChunks (st_stream st) !! wrap_int64 (i + 1) = Some true
  ∨ c = None →
  st_stream st' = st_stream st ∧ st_spawned st' = st_spawned st.
Proof.
  intros H Hcase.
  destruct (sdBlob (st_stream st)) as [sd |] eqn:Hsd;
    [| rewrite GetChunk_nil in H by exact Hsd; discriminate].
  rewrite (GetChunk_eq st sd i Hsd) in H.
  destruct (len (BlobInfos sd) <? i).
  { injection H as _ _ <-. auto. }
  destruct (index (BlobInfos sd) i) as [bi |]; [| discriminate].
  unfold call_GetChunk, after_fetch in H. mrun.
  destruct (bs_GetChunk _ _ _ _) as [[chunk e] b]. cbn in H.
  destruct e as [e |]; [injection H as _ _ <-; auto |].
  destruct chunk as [chunk |]; [| injection H as _ _ <-; auto].
  change (st_stream (upd_bs b _ st)) with (st_stream st) in H.
  destruct Hcase as [Hoff | [Hmarked | ->]].
  - rewrite Hoff in H. cbn in H. injection H as _ _ <-. auto.
  - rewrite Hmarked in H. rewrite andb_false_r in H. cbn in H.
    injection H as _ _ <-. auto.
  - destruct (prefetch _ && negb _); cbn in H; discriminate.
Qed.

(** ** The size of a prefetch *)

Lemma prefetch_loop_count key window (st : St BS) :
  ∃ st' evs,
    prefetch_loop key window st = Ok (tt, st')
    ∧ st_trace st' = st_trace st ++ evs
    ∧ (length (List.filter is_fetch evs) <= length window)%nat
    ∧ (length (List.filter (λ ev, negb (is_fetch ev)) evs) <= length window)%nat.
Proof.
  revert st. induction window as [| bi rest IH]; intros st.
  - exists st, []. cbn. rewrite app_nil_r. auto.
  - cbn [prefetch_loop]. unfold call_IsCached. mrun.
    destruct (bs_IsCached _ _) as [c b1].
    set (h := hex_EncodeToString (BlobHash bi)).
    destruct c.
    + destruct (IH (upd_bs b1 [EvIsCached h true] st))
        as (st' & evs & Hrun & Htr & Hf & Hc).
      exists st', (EvIsCached h true :: evs). rewrite Hrun.
      split; [reflexivity |]. split; [| split].
      * rewrite Htr. cbn. now rewrite <- app_assoc.
      * cbn. lia.
      * cbn. lia.
    + cbn. destruct (bs_GetChunk _ _ _ _) as [[chunk err] b2].
      destruct err as [e |].
      * eexists _, [EvIsCached h false; EvGetChunk h key (IV bi)].
        split; [reflexivity |]. split; [| split].
        -- cbn. now rewrite <- app_assoc.
        -- cbn. lia.
        -- cbn. lia.
      * destruct (IH (upd_bs b2 [EvGetChunk h key (IV bi)]
                        (upd_bs b1 [EvIsCached h false] st)))
          as (st' & evs & Hrun & Htr & Hf & Hc).
        exists st', (EvIsCached h false :: EvGetChunk h key (IV bi) :: evs).
        rewrite Hrun. split; [reflexivity |]. split; [| split].
        -- rewrite Htr. cbn. now rewrite <- !app_assoc.
        -- cbn. lia.
        -- cbn. lia.
Qed.

(** X11: A prefetch task for index [i] returns, having asked for and fetched at
    most [min DefaultPrefetchLen (len - i - 1)] chunks: never more than
    [DefaultPrefetchLen], never the terminator, and nothing at all when
    [i] is the terminator's index or beyond. *)
Theorem prefetchChunk_bounded (st : St BS) (sd : SDBlob) (i : Z) :
  sdBlob (st_stream st) = Some sd →
  len (BlobInfos sd) <= MaxInt64 →
  0 <= i <= MaxInt64 →
  ∃ st' evs,
    prefetchChunk i st = Ok (tt, st')
    ∧ st_trace st' = st_trace st ++ evs
    ∧ let n := Z.min DefaultPrefetchLen (len (BlobInfos sd) - i - 1) in
      Z.of_nat (length (List.filter is_fetch evs)) <= Z.max 0 n
      ∧ Z.of_nat (length (List.filter (λ ev, negb (is_fetch ev)) evs))
        <= Z.max 0 n.
Proof.
  intros Hsd Hmax Hi. unfold MaxInt64 in *. unfold prefetchChunk.
  rewrite (bind_eq _ _ _ _ _ (the_sdBlob_eq st sd Hsd)).
  assert (0 <= len (BlobInfos sd)) by (unfold len; lia).
  rewrite (wrap_int64_small (len (BlobInfos sd) - i)) by lia.
  rewrite (wrap_int64_small (len (BlobInfos sd) - i - 1)) by lia.
  set (chunksLeft := len (BlobInfos sd) - i - 1).
  set (prefetchLen := if chunksLeft <? DefaultPrefetchLen then chunksLeft
                      else DefaultPrefetchLen).
  assert (Hlen : prefetchLen = Z.min DefaultPrefetchLen chunksLeft).
  { subst prefetchLen. destruct (Z.ltb_spec chunksLeft DefaultPrefetchLen); lia. }
  destruct (Z.leb_spec prefetchLen 0) as [Hnone | Hsome].
  { exists st, []. cbn. rewrite app_nil_r. repeat split; lia. }
  rewrite (wrap_int64_small (i + prefetchLen)) by lia.
  destruct (slice (BlobInfos sd) i (i + prefetchLen))
    as [window |] eqn:Hw.
  2:{ unfold slice in Hw.
      destruct (Z.ltb_spec i 0); [lia |].
      destruct (Z.ltb_spec (i + prefetchLen) i); [lia |].
      destruct (Z.ltb_spec (len (BlobInfos sd)) (i + prefetchLen));
        [lia | discriminate]. }
  assert (Hwl : Z.of_nat (length window) <= prefetchLen).
  { unfold slice in Hw. destruct (_ || _); [discriminate |].
    injection Hw as <-. rewrite length_take. lia. }
  destruct (prefetch_loop_count (Key sd) window st)
    as (st' & evs & Hrun & Htr & Hf & Hc).
  exists st', evs. split; [exact Hrun |]. split; [exact Htr |].
  cbn zeta. fold chunksLeft. lia.
Qed.

End MoreChunks.

Section MorePrepare.
Context {BS : Type} {Src : BlobSource BS} {Ops : ChunkOps}.

Lemma PrepareForReading_trace (st st' : St BS) (r : option error) :
  PrepareForReading st = Ok (r, st') →
  let s := st_stream st in
  ∃ evs,
    st_trace st' = st_trace st ++ EvGetSDBlob (hash s) :: evs
    ∧ (length evs <= 1)%nat
    ∧ forallb is_fetch evs = true
    ∧ (0 < Size s ∨ 0 < GetSize (source s) ∨ r ≠ None → evs = [])
    ∧ (r ≠ None → st_stream st' = s)
    ∧ st_spawned st' = st_spawned st
    ∧ prefetchedChunks (st_stream st') = prefetchedChunks s
    ∧ st_resp st' = st_resp st
    ∧ st_header st' = st_header st.
Proof.
  intros H s. destruct r as [e |].
  - unfold PrepareForReading in H.
    rewrite (bind_eq this _ st (st_stream st) st) in H by reflexivity.
    unfold call_GetSDBlob in H. mrun.
    destruct (bs_GetSDBlob _ _) as [[sdo err] b1].
    destruct err as [e' |].
    + injection H as _ <-. exists []. cbn. repeat split; auto.
    + destruct (setSize _) as [[[] st2] |]; discriminate.
  - apply PrepareForReading_inv in H as (sdo & b1 & _ & H). fold s in H.
    apply setSize_inv in H. cbn in H.
    assert (Hpc : ∀ z (s0 : Stream),
               prefetchedChunks (with_Size z (with_sdBlob sdo s0))
               = prefetchedChunks s0) by (intros z []; reflexivity).
    assert (Hpc0 : ∀ s0 : Stream,
               prefetchedChunks (with_sdBlob sdo s0) = prefetchedChunks s0)
      by (intros []; reflexivity).
    assert (HSize : Size (with_sdBlob sdo s) = Size s)
      by (now destruct s).
    assert (Hsrc : source (with_sdBlob sdo s) = source s)
      by (now destruct s).
    fold s in H. rewrite ?HSize, ?Hsrc in H.
    destruct H as [[Hpos ->] | [(Hz & Hpos & ->) | (Hz & Hsz & H)]].
    + exists []. cbn. repeat split; auto; congruence.
    + exists []. cbn. repeat split; auto; congruence.
    + destruct H as (sz & err & st1 & Hlb & H).
      assert (Hst1 : ∃ evs,
                 st_trace st1 = st_trace st ++ EvGetSDBlob (hash s) :: evs
                 ∧ (length evs <= 1)%nat ∧ forallb is_fetch evs = true
                 ∧ st_spawned st1 = st_spawned st
                 ∧ st_stream st1 = with_sdBlob sdo s
                 ∧ st_resp st1 = st_resp st
                 ∧ st_header st1 = st_header st).
      { inversion Hlb; subst.
        - exists []. cbn. repeat split; auto.
        - exists []. cbn. repeat split; auto.
        - eexists [_]. cbn. rewrite <- app_assoc. repeat split; auto. }
      destruct Hst1 as (evs & Htr & Hlen & Hall & Hsp & Hs1 & Hre & Hhe).
      exists evs.
      assert (Hno : 0 < Size s ∨ 0 < GetSize (source s)
                    ∨ @None error ≠ None → evs = []).
      { intros [? | [? | ?]]; [lia | lia | congruence]. }
      destruct err as [e |].
      * destruct H as (sd & _ & ->). cbn. rewrite Hs1.
        repeat split; auto; congruence.
      * subst st'. cbn. rewrite Hs1. repeat split; auto; congruence.
Qed.

(** X12: [PrepareForReading] asks the blob source for the descriptor once and
    then fetches at most one chunk; it fetches none when the stream or the
    claim's source carries a size, or when the descriptor cannot be had, in
    which case the stream is left as it was.  It starts no prefetch. *)
Theorem PrepareForReading_calls (st st' : St BS) (r : option error) :
  PrepareForReading st = Ok (r, st') →
  let s := st_stream st in
  ∃ evs,
    st_trace st' = st_trace st ++ EvGetSDBlob (hash s) :: evs
    ∧ (length evs <= 1)%nat
    ∧ forallb is_fetch evs = true
    ∧ (0 < Size s ∨ 0 < GetSize (source s) ∨ r ≠ None → evs = [])
    ∧ (r ≠ None → st_stream st' = s)
    ∧ st_spawned st' = st_spawned st
    ∧ prefetchedChunks (st_stream st') = prefetchedChunks s.
Proof.
  intros H s.
  destruct (PrepareForReading_trace _ _ _ H)
    as (evs & Htr & Hlen & Hall & Hno & Hst & Hsp & Hpc & _).
  exists evs. auto 10.
Qed.

End MorePrepare.

(** * More properties of the handlers *)

Section MoreHandler.
Context {BS : Type} {Src : BlobSource BS} {Ops : ChunkOps}
        {HOps : HandlerOps BS}.

Lemma processStreamError_responds (errorType uri : string) (r : Request)
    (err : error) :
  ∃ code, 400 <= code < 600
    ∧ ∀ st : St BS,
        processStreamError errorType uri r err st
        = Ok (tt, upd_resp (λ l, (l ++ [WriteHeader code])
                                 ++ [Write (Error err)]) st).
Proof.
  unfold processStreamError.
  repeat match goal with
         | |- context [if ?c then _ else _] => destruct c
         end;
    (eexists; split; [| intros st; reflexivity]);
    unfold StatusPaymentRequired, StatusNotFound, StatusServiceUnavailable,
      StatusUnauthorized, StatusGone, StatusInternalServerError; lia.
Qed.

Lemma Handle_eq (r : Request) (st : St BS) :
  Handle r st =
    match request_target r with
    | None => w_WriteHeader StatusNotFound st
    | Some (uri, token) =>
        (res ← call_ResolveStream uri; respond r uri token res) st
    end.
Proof.
  unfold Handle, request_target.
  destruct (strings_HasPrefix _ _); [| reflexivity].
  destruct (is_empty _); reflexivity.
Qed.

Lemma writeHeaders_run (r : Request) (st : St BS) :
  ∃ h,
    writeHeaders r st = Ok (tt, upd_header (λ _, h) st)
    ∧ h !! "Content-Length" = Some (fmt_uint (Size (st_stream st)))
    ∧ h !! "Content-Type" = Some (ContentType (st_stream st)).
Proof.
  unfold writeHeaders, header_Set.
  rewrite (bind_eq this _ st (st_stream st) st) by reflexivity.
  destruct (negb (is_empty (Query_Get (URL_Query r) paramDownload)));
    (eexists; split; [reflexivity |]); split;
    cbn [st_header upd_header];
    rewrite ?lookup_insert_ne by discriminate; apply lookup_insert_eq.
Qed.

Lemma refused_intro (st st0 : St BS) errorType uri r e st' evs :
  st_trace st0 = st_trace st ++ evs →
  st_header st0 = st_header st →
  st_spawned st0 = st_spawned st →
  st_resp st0 = st_resp st →
  processStreamError errorType uri r e st0 = Ok (tt, st') →
  refused st st' evs e.
Proof.
  intros Htr Hh Hsp Hre H.
  destruct (processStreamError_responds errorType uri r e)
    as (code & Hcode & Hrun).
  rewrite Hrun in H. injection H as <-. unfold refused. cbn.
  repeat split; auto. exists code. split; [exact Hcode |].
  rewrite Hre, <- app_assoc. reflexivity.
Qed.

(** X13: When [Handle] gives up, it has not gone further than the step that
    failed: after a resolver error only the resolver was called; after a
    refused access check no blob was asked for; after a failed retrieval of
    the descriptor no chunk was fetched.  In the three cases no header is
    set and the response is an error status with the text of the error. *)
Theorem Handle_failure_response (r : Request) (st st' : St BS)
    (uri token : string) :
  request_target r = Some (uri, token) →
  Handle r st = Ok (tt, st') →
  (∀ e b1,
     ResolveStream uri (st_bs st) = (inr e, b1) →
     refused st st' [EvResolveStream uri] e)
  ∧ (∀ s b1 e b2,
       ResolveStream uri (st_bs st) = (inl s, b1) →
       VerifyAccess s token b1 = (Some e, b2) →
       refused st st' [EvResolveStream uri; EvVerifyAccess token] e)
  ∧ (∀ s b1 b2 sdo e b3,
       ResolveStream uri (st_bs st) = (inl s, b1) →
       VerifyAccess s token b1 = (None, b2) →
       bs_GetSDBlob (hash s) b2 = ((sdo, Some e), b3) →
       refused st st'
         [EvResolveStream uri; EvVerifyAccess token; EvGetSDBlob (hash s)] e).
Proof.
  intros Ht H. rewrite Handle_eq, Ht in H.
  apply bind_Ok in H as (res & st1 & Hres & H).
  unfold call_ResolveStream in Hres.
  destruct (ResolveStream uri (st_bs st)) as [res0 b0] eqn:HR.
  injection Hres as <- <-.
  split; [| split].
  - intros e b1 [= -> <-]. cbn [respond] in H.
    eapply refused_intro; [| | | | exact H]; reflexivity.
  - intros s b1 e b2 [= -> <-] HV. cbn [respond] in H.
    apply bind_Ok in H as ([] & st2 & [= <-] & H).
    apply bind_Ok in H as (err & st3 & Hv & H).
    unfold call_VerifyAccess in Hv. cbn in Hv. rewrite HV in Hv.
    injection Hv as <- <-.
    eapply refused_intro; [| | | | exact H]; try reflexivity.
    cbn. now rewrite <- app_assoc.
  - intros s b1 b2 sdo e b3 [= -> <-] HV HG. cbn [respond] in H.
    apply bind_Ok in H as ([] & st2 & [= <-] & H).
    apply bind_Ok in H as (err & st3 & Hv & H).
    unfold call_VerifyAccess in Hv. cbn in Hv. rewrite HV in Hv.
    injection Hv as <- <-.
    apply bind_Ok in H as (perr & st4 & Hp & H).
    unfold PrepareForReading in Hp.
    rewrite (bind_eq this _ _ s _) in Hp by reflexivity.
    unfold call_GetSDBlob in Hp. mrun. cbn in Hp. rewrite HG in Hp.
    injection Hp as <- <-.
    eapply refused_intro; [| | | | exact H]; try reflexivity.
    cbn. now rewrite <- !app_assoc.
Qed.

Lemma no_play_after (t t' known evs : list Event) :
  t' = t ++ known → t' = t ++ evs → EvPlay ∈ evs → EvPlay ∈ known.
Proof.
  intros H1 H2. rewrite H1 in H2. apply app_inv_head in H2. now subst.
Qed.

Ltac not_in_list :=
  let Hin := fresh "Hin" in
  intros Hin;
  repeat (apply elem_of_cons in Hin as [Hin | Hin]; [discriminate |]);
  now apply elem_of_nil in Hin.

Lemma fetches_are_no_play (evs : list Event) :
  forallb is_fetch evs = true → EvPlay ∉ evs.
Proof.
  intros H Hin. apply list_elem_of_In in Hin.
  rewrite forallb_forall in H. apply H in Hin. discriminate.
Qed.

(** X14: [Handle] plays a stream only for a GET request, and only after the
    resolver has returned the stream, the access check has accepted the
    token and [PrepareForReading] has succeeded. *)
Theorem Handle_plays_only_verified (r : Request) (st st' : St BS)
    (evs : list Event) :
  Handle r st = Ok (tt, st') →
  st_trace st' = st_trace st ++ evs →
  EvPlay ∈ evs →
  Method r = MethodGet
  ∧ ∃ uri token s b1 b2 st2,
      request_target r = Some (uri, token)
      ∧ ResolveStream uri (st_bs st) = (inl s, b1)
      ∧ VerifyAccess s token b1 = (None, b2)
      ∧ PrepareForReading
          (upd_bs b2 [EvVerifyAccess token]
             (upd_stream (λ _, s) (upd_bs b1 [EvResolveStream uri] st)))
        = Ok (None, st2).
Proof.
  intros H Htr Hplay. rewrite Handle_eq in H.
  assert (Habsurd : ∀ known, st_trace st' = st_trace st ++ known →
                             EvPlay ∉ known → False).
  { intros known Hk Hno. apply Hno.
    exact (no_play_after _ _ _ _ Hk Htr Hplay). }
  destruct (request_target r) as [[uri token] |] eqn:Ht.
  2:{ injection H as <-. exfalso. apply (Habsurd []); [| not_in_list].
      cbn. now rewrite app_nil_r. }
  apply bind_Ok in H as (res & st1 & Hres & H).
  unfold call_ResolveStream in Hres.
  destruct (ResolveStream uri (st_bs st)) as [res0 b1] eqn:HR.
  injection Hres as <- <-.
  destruct res0 as [s | e]; cbn [respond] in H.
  2:{ exfalso.
      destruct (processStreamError_responds "resolve" uri r e)
        as (code & _ & Hrun).
      rewrite Hrun in H. injection H as <-.
      apply (Habsurd [EvResolveStream uri]); [reflexivity | not_in_list]. }
  apply bind_Ok in H as ([] & st2 & [= <-] & H).
  apply bind_Ok in H as (err & st3 & Hv & H).
  unfold call_VerifyAccess in Hv. cbn in Hv.
  destruct (VerifyAccess s token b1) as [verr b2] eqn:HV.
  injection Hv as <- <-.
  destruct verr as [e |].
  { exfalso.
    destruct (processStreamError_responds "access" uri r e)
      as (code & _ & Hrun).
    rewrite Hrun in H. injection H as <-.
    apply (Habsurd [EvResolveStream uri; EvVerifyAccess token]);
      [cbn; now rewrite <- app_assoc | not_in_list]. }
  apply bind_Ok in H as (perr & st4 & Hp & H).
  destruct (PrepareForReading_trace _ _ _ Hp)
    as (evs0 & Htr0 & _ & Hall & _ & _ & _ & _ & _ & _).
  cbn in Htr0.
  assert (Hknown : st_trace st4
                   = st_trace st
                     ++ [EvResolveStream uri; EvVerifyAccess token;
                         EvGetSDBlob (hash s)] ++ evs0).
  { rewrite Htr0. now rewrite <- !app_assoc. }
  assert (Hnone : EvPlay ∉ [EvResolveStream uri; EvVerifyAccess token;
                            EvGetSDBlob (hash s)] ++ evs0).
  { intros Hin. apply elem_of_app in Hin as [Hin | Hin];
      [revert Hin; not_in_list | now apply fetches_are_no_play in Hin]. }
  destruct perr as [e |].
  { exfalso.
    destruct (processStreamError_responds "retrieval" uri r e)
      as (code & _ & Hrun).
    rewrite Hrun in H. injection H as <-.
    exact (Habsurd _ Hknown Hnone). }
  apply bind_Ok in H as ([] & st5 & Hw & H).
  destruct (writeHeaders_run r st4) as (h & Hrun & _).
  rewrite Hrun in Hw. injection Hw as <-.
  destruct (String.eqb (Method r) MethodHead).
  { exfalso. injection H as <-. exact (Habsurd _ Hknown Hnone). }
  destruct (String.eqb_spec (Method r) MethodGet) as [Hget | Hother].
  2:{ exfalso. injection H as <-. exact (Habsurd _ Hknown Hnone). }
  split; [exact Hget |].
  exists uri, token, s, b1, b2, st4. auto.
Qed.

(** X15: A request that is not a GET gets the headers and no body: when the
    resolver, the access check and [PrepareForReading] succeed, [Handle]
    returns with Content-Length set to the size that was determined, and
    has written the status 200 for a HEAD request and nothing otherwise;
    it has called nothing after [PrepareForReading]. *)
Theorem Handle_without_body (r : Request) (st st2 : St BS)
    (uri token : string) (s : Stream) (b1 b2 : BS) :
  request_target r = Some (uri, token) →
  Method r ≠ MethodGet →
  ResolveStream uri (st_bs st) = (inl s, b1) →
  VerifyAccess s token b1 = (None, b2) →
  PrepareForReading
    (upd_bs b2 [EvVerifyAccess token]
       (upd_stream (λ _, s) (upd_bs b1 [EvResolveStream uri] st)))
  = Ok (None, st2) →
  ∃ st',
    Handle r st = Ok (tt, st')
    ∧ st_resp st'
      = st_resp st ++ (if String.eqb (Method r) MethodHead
                       then [WriteHeader StatusOK] else [])
    ∧ st_header st' !! "Content-Length"
      = Some (fmt_uint (Size (st_stream st2)))
    ∧ st_header st' !! "Content-Type" = Some (ContentType (st_stream st2))
    ∧ st_trace st' = st_trace st2
    ∧ st_stream st' = st_stream st2.
Proof.
  intros Ht Hm HR HV Hp. rewrite Handle_eq, Ht.
  unfold call_ResolveStream.
  unfold mbind at 1, M_bind at 1. rewrite HR. cbn [respond].
  rewrite (bind_eq (modify _) _ _ tt _) by reflexivity.
  unfold call_VerifyAccess. unfold mbind at 1, M_bind at 1.
  cbn [st_bs upd_stream upd_bs]. rewrite HV.
  rewrite (bind_eq _ _ _ _ _ Hp).
  destruct (PrepareForReading_trace _ _ _ Hp)
    as (evs0 & _ & _ & _ & _ & _ & _ & _ & Hre & _).
  cbn in Hre.
  destruct (writeHeaders_run r st2) as (h & Hrun & Hcl & Hct).
  rewrite (bind_eq _ _ _ _ _ Hrun).
  destruct (String.eqb (Method r) MethodHead).
  - eexists. split; [reflexivity |]. cbn. rewrite Hre. auto.
  - destruct (String.eqb_spec (Method r) MethodGet) as [Hget | _];
      [contradiction |].
    eexists. split; [reflexivity |]. cbn. rewrite Hre, app_nil_r. auto.
Qed.

(** X21: For a GET request, when the resolver, the access check and
    [PrepareForReading] succeed, [Handle] hands over to the player with the
    headers set and nothing written yet, and answers an error of the player
    with [processStreamError]. *)
Theorem Handle_get (r : Request) (st st2 : St BS)
    (uri token : string) (s : Stream) (b1 b2 : BS) :
  request_target r = Some (uri, token) →
  Method r = MethodGet →
  ResolveStream uri (st_bs st) = (inl s, b1) →
  VerifyAccess s token b1 = (None, b2) →
  PrepareForReading
    (upd_bs b2 [EvVerifyAccess token]
       (upd_stream (λ _, s) (upd_bs b1 [EvResolveStream uri] st)))
  = Ok (None, st2) →
  ∃ st3,
    Handle r st
    = (err ← Play r;
       match err with
       | Some e => processStreamError "playback" uri r e
       | None => mret tt
       end) st3
    ∧ st_trace st3 = st_trace st2 ++ [EvPlay]
    ∧ st_resp st3 = st_resp st
    ∧ st_header st3 !! "Content-Length"
      = Some (fmt_uint (Size (st_stream st2)))
    ∧ st_stream st3 = st_stream st2
    ∧ st_bs st3 = st_bs st2.
Proof.
  intros Ht Hm HR HV Hp. rewrite Handle_eq, Ht.
  unfold call_ResolveStream.
  unfold mbind at 1, M_bind at 1. rewrite HR. cbn [respond].
  rewrite (bind_eq (modify _) _ _ tt _) by reflexivity.
  unfold call_VerifyAccess. unfold mbind at 1, M_bind at 1.
  cbn [st_bs upd_stream upd_bs]. rewrite HV.
  rewrite (bind_eq _ _ _ _ _ Hp).
  destruct (PrepareForReading_trace _ _ _ Hp)
    as (evs0 & _ & _ & _ & _ & _ & _ & _ & Hre & _).
  cbn in Hre.
  destruct (writeHeaders_run r st2) as (h & Hrun & Hcl & Hct).
  rewrite (bind_eq _ _ _ _ _ Hrun). rewrite Hm.
  change (String.eqb MethodGet MethodHead) with false.
  change (String.eqb MethodGet MethodGet) with true. cbv iota.
  unfold call_Play.
  eexists. split.
  - unfold mbind at 1, M_bind at 1.
    rewrite (bind_eq (modify _) _ _ tt _) by reflexivity. reflexivity.
  - cbn. rewrite Hre. auto.
Qed.

(** X22: [writeHeaders] sets six headers, and Content-Disposition on a download;
    every other header, the response, the stream and the collaborators stay
    as they were.  X-Powered-By is the PLAYER_NAME of the environment when
    that is not empty, else the host name, and "unknown-player" when the
    host name cannot be had. *)
Theorem writeHeaders_fixed_headers (r : Request) (st : St BS) :
  ∃ st',
    writeHeaders r st = Ok (tt, st')
    ∧ let h := st_header st' in
      let s := st_stream st in
      h !! "Content-Length" = Some (fmt_uint (Size s))
      ∧ h !! "Content-Type" = Some (ContentType s)
      ∧ h !! "Cache-Control" = Some "public, max-age=31536000"
      ∧ h !! "Last-Modified"
        = Some (format_http_time (wrap_int64 (Timestamp (claim s))))
      ∧ h !! "Access-Control-Expose-Headers" = Some "X-Powered-By"
      ∧ (os_Getenv "PLAYER_NAME" ≠ "" →
         h !! "X-Powered-By" = Some (os_Getenv "PLAYER_NAME"))
      ∧ (os_Getenv "PLAYER_NAME" = "" → snd os_Hostname = None →
         h !! "X-Powered-By" = Some (fst os_Hostname))
      ∧ (os_Getenv "PLAYER_NAME" = "" → snd os_Hostname ≠ None →
         h !! "X-Powered-By" = Some "unknown-player")
      ∧ (∀ key,
           key ∉ ["Content-Length"; "Content-Type"; "Cache-Control";
                  "Last-Modified"; "X-Powered-By";
                  "Access-Control-Expose-Headers"; "Content-Disposition"] →
           h !! key = st_header st !! key)
      ∧ st_resp st' = st_resp st
      ∧ st_stream st' = st_stream st
      ∧ st_trace st' = st_trace st
      ∧ st_bs st' = st_bs st.
Proof.
  unfold writeHeaders, header_Set.
  rewrite (bind_eq this _ st (st_stream st) st) by reflexivity.
  assert (Hother : ∀ (key : string) (l : list string),
             key ∉ l → ∀ k, k ∈ l → k ≠ key).
  { intros key l Hno k Hk ->. contradiction. }
  destruct (negb (is_empty (Query_Get (URL_Query r) paramDownload)));
    (eexists; split; [reflexivity |]); cbv zeta;
    cbn [st_header upd_header st_resp st_stream st_trace st_bs];
    repeat match goal with |- _ ∧ _ => split end;
    try reflexivity;
    try (rewrite ?lookup_insert_ne by discriminate; apply lookup_insert_eq).
  all: try (intros Henv; rewrite ?lookup_insert_ne by discriminate;
            rewrite lookup_insert_eq; f_equal;
            destruct (os_Getenv "PLAYER_NAME"); [congruence | reflexivity]).
  all: try (intros Henv Hhost; rewrite ?lookup_insert_ne by discriminate;
            rewrite lookup_insert_eq; f_equal; rewrite Henv;
            destruct os_Hostname as [name [e |]]; cbn in *; congruence).
  all: intros key Hkey; pose proof (Hother key _ Hkey) as Hk;
    rewrite !lookup_insert_ne; [reflexivity | ..];
    apply Hk; repeat (first [apply list_elem_of_here
                            | apply list_elem_of_further]).
Qed.

End MoreHandler.

Section MoreHandlerV4.
Context {BS : Type} {Src : BlobSource BS} {Ops : ChunkOps}
        {HOps : HandlerOps BS} {TOps : TranscoderOps BS}.

Lemma HandleV4_eq (r : Request) (st : St BS) :
  HandleV4 r st =
    match request_target r with
    | None => w_WriteHeader StatusNotFound st
    | Some (uri, token) =>
        (res ← call_ResolveStream uri; respondV4 r uri token res) st
    end.
Proof.
  unfold HandleV4, request_target.
  destruct (strings_HasPrefix _ _); [| reflexivity].
  destruct (is_empty _); reflexivity.
Qed.

(** X16: [HandleV4] sends the client to a transcoded variant before any access
    check: when the transcoder client has a variant of the resolved stream,
    the handler is the redirect with status 308 to
    [/api/v4/streams/t/<local path>/master.m3u8], run in a state in which
    only the resolver has been called; no token is verified and no blob is
    asked for. *)
Theorem HandleV4_redirects_unverified (r : Request) (st : St BS)
    (uri token : string) (s : Stream) (b1 b2 : BS) (path : string)
    (dl : DownloadRequest) :
  request_target r = Some (uri, token) →
  ResolveStream uri (st_bs st) = (inl s, b1) →
  tclient_Get "hls" (URI s) (hash s) b1 = ((Some path, dl), b2) →
  ∃ st1,
    HandleV4 r st
    = http_Redirect r ("/api/v4/streams/t/" +:+ path +:+ "/master.m3u8")
        StatusPermanentRedirect st1
    ∧ st_trace st1 = st_trace st ++ [EvResolveStream uri]
    ∧ st_stream st1 = s ∧ st_bs st1 = b2
    ∧ st_resp st1 = st_resp st ∧ st_header st1 = st_header st.
Proof.
  intros Ht HR HG. rewrite HandleV4_eq, Ht.
  unfold call_ResolveStream. unfold mbind at 1, M_bind at 1. rewrite HR.
  cbn [respondV4].
  rewrite (bind_eq (modify _) _ _ tt _) by reflexivity.
  unfold call_tclient_Get. unfold mbind at 1, M_bind at 1.
  cbn [st_bs upd_stream upd_bs]. rewrite HG.
  eexists. split; [reflexivity |]. cbn. auto.
Qed.

(** X17: Without a transcoded variant [HandleV4] asks for the download, drops
    its result, and goes on as [Handle] does after the resolver: with a
    transcoder client that leaves the collaborators as they are, the two
    handlers agree. *)
Theorem HandleV4_falls_back (r : Request) (st : St BS)
    (uri token : string) (s : Stream) (b1 b2 b3 : BS)
    (dl : DownloadRequest) (derr : option error) :
  request_target r = Some (uri, token) →
  ResolveStream uri (st_bs st) = (inl s, b1) →
  tclient_Get "hls" (URI s) (hash s) b1 = ((None, dl), b2) →
  dl_Download dl b2 = (derr, b3) →
  HandleV4 r st
  = respond r uri token (inl s)
      (set_bs b3 (upd_bs b1 [EvResolveStream uri] st))
  ∧ (b3 = b1 → HandleV4 r st = Handle r st).
Proof.
  intros Ht HR HG HD.
  assert (H4 : HandleV4 r st
               = respond r uri token (inl s)
                   (set_bs b3 (upd_bs b1 [EvResolveStream uri] st))).
  { rewrite HandleV4_eq, Ht.
    unfold call_ResolveStream. unfold mbind at 1, M_bind at 1. rewrite HR.
    cbn [respondV4].
    rewrite (bind_eq (modify _) _ _ tt _) by reflexivity.
    unfold call_tclient_Get. unfold mbind at 1, M_bind at 1.
    cbn [st_bs upd_stream upd_bs]. rewrite HG.
    unfold call_Download. unfold mbind at 1, M_bind at 1.
    cbn [st_bs set_bs]. rewrite HD.
    cbn [respond].
    rewrite !(bind_eq (modify _) _ _ tt _) by reflexivity.
    reflexivity. }
  split; [exact H4 |].
  intros ->. rewrite H4, Handle_eq, Ht.
  unfold call_ResolveStream. unfold mbind at 1, M_bind at 1. rewrite HR.
  reflexivity.
Qed.

(** X23: Until the stream is resolved the two handlers are one: for a speech
    URL without a name, and when the resolver fails, [HandleV4] answers as
    [Handle] does. *)
Theorem HandleV4_same_until_resolved (r : Request) (st : St BS) :
  (∀ uri token, request_target r = Some (uri, token) →
                ∃ e b, ResolveStream uri (st_bs st) = (inr e, b)) →
  HandleV4 r st = Handle r st.
Proof.
  intros Hfail. rewrite HandleV4_eq, Handle_eq.
  destruct (request_target r) as [[uri token] |]; [| reflexivity].
  destruct (Hfail uri token eq_refl) as (e & b & HR).
  unfold call_ResolveStream. unfold mbind, M_bind. rewrite HR. reflexivity.
Qed.

End MoreHandlerV4.

(** * The bytes of the file name in Content-Disposition *)

Lemma bytes_of_app (a b : string) :
  bytes_of (a +:+ b) = bytes_of a ++ bytes_of b.
Proof.
  unfold bytes_of. induction a as [| c a IH]; [reflexivity |].
  rewrite app_cons. cbn [list_ascii_of_string map]. cbn. now f_equal.
Qed.

(** A rune is one ASCII byte, which is the rune, or bytes from 128 on. *)
Lemma rune_bytes (c : ascii) (t : string) :
  let '(r, w) := utf8_DecodeRuneInString (String c t) in
  (string_take w (String c t) = String c "" ∧ r = byte_val c ∧ 0 <= r < 128)
  ∨ Forall (λ b, 128 <= b) (bytes_of (string_take w (String c t))).
Proof.
  assert (Hc : 0 <= byte_val c) by (unfold byte_val; lia).
  unfold utf8_DecodeRuneInString, is_cont.
  destruct t as [| c1 [| c2 [| c3 t]]];
    cbn [string_take list_ascii_of_string map];
    repeat match goal with
      | |- context [if ?b then _ else _] => destruct b eqn:?
      end;
    repeat match goal with
      | H : _ && _ = true |- _ => apply andb_true_iff in H as [? ?]
      | H : (_ <? _) = true |- _ => apply Z.ltb_lt in H
      | H : (_ <? _) = false |- _ => apply Z.ltb_ge in H
      | H : (_ <=? _) = true |- _ => apply Z.leb_le in H
      | H : context [if ?b then _ else _] |- _ => destruct b
      end;
    first
      [ left; repeat split; lia
      | right; unfold bytes_of;
        cbn [string_take list_ascii_of_string map];
        repeat (apply List.Forall_cons; [lia |]); apply List.Forall_nil ].
Qed.

Lemma decode_runes_bytes (fuel : nat) (s : string) :
  Forall (λ p : Z * string,
            (snd p = String (ascii_of_N (Z.to_N (fst p))) ""
             ∧ 0 <= fst p < 128)
            ∨ Forall (λ b, 128 <= b) (bytes_of (snd p)))
         (decode_runes fuel s).
Proof.
  revert s. induction fuel as [| fuel IH]; intros s; [constructor |].
  destruct s as [| c t]; [constructor |].
  cbn [decode_runes]. pose proof (rune_bytes c t) as Hr.
  destruct (utf8_DecodeRuneInString (String c t)) as [r w].
  constructor; [| apply IH]. cbn [fst snd].
  destruct Hr as [(Ht & -> & Hlt) | Hhigh]; [left | now right].
  split; [| exact Hlt]. rewrite Ht. f_equal.
  unfold byte_val. now rewrite N2Z.id, ascii_N_embedding.
Qed.

Section FilenameBytes.
Context {BS : Type} {HOps : HandlerOps BS}.
Hypothesis ascii_letters :
  ∀ c, 0 <= c < 128 → unicode_IsLetter c = is_ascii_letter c.

Lemma kept_rune_bytes (p : Z * string) :
  (snd p = String (ascii_of_N (Z.to_N (fst p))) "" ∧ 0 <= fst p < 128)
  ∨ Forall (λ b, 128 <= b) (bytes_of (snd p)) →
  filename_class (fst p) = true →
  Forall (λ c, filename_byte c = true) (bytes_of (snd p)).
Proof.
  intros [[Hs Hr] | Hhigh] Hkeep.
  - rewrite Hs. unfold bytes_of. cbn [list_ascii_of_string map].
    repeat constructor. unfold byte_val.
    rewrite N_ascii_embedding by lia. rewrite Z2N.id by lia.
    unfold filename_class in Hkeep. rewrite ascii_letters in Hkeep by exact Hr.
    unfold filename_byte. rewrite <- !orb_assoc in *.
    rewrite Hkeep. apply orb_true_r.
  - eapply Forall_impl; [exact Hhigh |]. intros b Hb. unfold filename_byte.
    apply Z.leb_le in Hb. now rewrite Hb.
Qed.

Lemma delete_outside_bytes (rs : list (Z * string)) :
  Forall (λ p : Z * string,
            (snd p = String (ascii_of_N (Z.to_N (fst p))) ""
             ∧ 0 <= fst p < 128)
            ∨ Forall (λ b, 128 <= b) (bytes_of (snd p))) rs →
  Forall (λ c, filename_byte c = true)
    (bytes_of (string_concat
                 (map snd (filter (λ p, filename_class (fst p) = true) rs)))).
Proof.
  induction 1 as [| p rs Hp Hrs IH]; [constructor |].
  destruct (filename_class (fst p)) eqn:Hk.
  - rewrite filter_cons_True by exact Hk. cbn [map string_concat].
    rewrite bytes_of_app. apply Forall_app. split; [| exact IH].
    now apply kept_rune_bytes.
  - rewrite filter_cons_False by congruence. exact IH.
Qed.

Lemma escape_hex (c : ascii) :
  escaped_byte (byte_val (upperhex (N.div (N_of_ascii c) 16))) = true
  ∧ escaped_byte (byte_val (upperhex (N.modulo (N_of_ascii c) 16))) = true.
Proof. destruct c as [[] [] [] [] [] [] [] []]; vm_compute; auto. Qed.

Lemma unescaped_byte (c : ascii) :
  filename_byte (byte_val c) = true →
  shouldEscape (byte_val c) = false →
  escaped_byte (byte_val c) = true.
Proof.
  destruct c as [[] [] [] [] [] [] [] []]; vm_compute; congruence.
Qed.

Lemma PathEscape_bytes (s : string) :
  Forall (λ c, filename_byte c = true) (bytes_of s) →
  Forall (λ c, escaped_byte c = true) (bytes_of (url_PathEscape s)).
Proof.
  induction s as [| c s IH]; intros H; [constructor |].
  unfold bytes_of in H. cbn [list_ascii_of_string map] in H.
  apply Forall_cons in H as [Hc Hs]. cbn [url_PathEscape].
  destruct (shouldEscape (byte_val c)) eqn:He;
    unfold bytes_of; cbn [list_ascii_of_string map].
  - destruct (escape_hex c) as [H1 H2].
    repeat constructor; [exact H1 | exact H2 | now apply IH].
  - constructor; [now apply unescaped_byte | now apply IH].
Qed.

(** X18: The file name that [writeHeaders] puts into Content-Disposition cannot
    break out of the header: between the quotes every byte is an ASCII
    letter, a digit, [-], [.], [_], a space or a byte of a non-ASCII rune,
    so there is no quote, backslash, semicolon or control character; and
    after [filename*=UTF-8''] every byte is an ASCII letter, a digit, [-],
    [.], [_] or [%]. *)
Theorem Content_Disposition_bytes (name : string) :
  let filename := ReplaceAllString filename_class name "" in
  Forall (λ c, filename_byte c = true) (bytes_of filename)
  ∧ Forall (λ c, escaped_byte c = true) (bytes_of (url_PathEscape filename)).
Proof.
  intros filename.
  assert (H : Forall (λ c, filename_byte c = true) (bytes_of filename)).
  { subst filename. rewrite ReplaceAllString_delete. unfold delete_outside.
    apply delete_outside_bytes. apply decode_runes_bytes. }
  split; [exact H | now apply PathEscape_bytes].
Qed.

End FilenameBytes.

(** * Construction *)

Section MoreNewStream.
Context {BS : Type} {Src : BlobSource BS} {Ops : ChunkOps}.

(** X19: [NewStream] dereferences the source of the claim's stream value: it
    panics exactly when the claim has no stream value or the value has no
    source.  The stream it returns has no descriptor yet, and [Read] on it
    panics until [PrepareForReading] has run. *)
Theorem NewStream_needs_source (patchMediaType : string → string)
    (p : Player) (uri : string) (c : Claim) (stream_source : option Source) :
  (NewStream patchMediaType p uri c stream_source = Panic
   ↔ Value_has_stream c = false ∨ stream_source = None)
  ∧ ∀ s, NewStream patchMediaType p uri c stream_source = Ok s →
      source s = stream_source
      ∧ Size s = GetSize stream_source
      ∧ seekOffset s = 0
      ∧ prefetchedChunks s = ∅
      ∧ ∀ (st : St BS) dest, st_stream st = s → Read dest st = Panic.
Proof.
  unfold NewStream. split.
  - destruct (Value_has_stream c), stream_source as [src |]; cbn;
      split; try tauto; try discriminate.
    intros [H | H]; discriminate.
  - intros s H.
    destruct (Value_has_stream c); [| discriminate].
    destruct stream_source as [src |]; [| discriminate].
    injection H as <-. cbn. repeat split.
    intros st dest Hst. apply Read_nil. now rewrite Hst.
Qed.

(** X20: For a stream that [NewStream] made, two branches of the size
    determination are dead: the size of the claim's source is the size the
    stream was made with, and the claim has a stream value.  So [setSize]
    returns at once for a positive size, and otherwise relies on the
    descriptor: size 0 without a content blob, else one fetch of the last
    content chunk, whose failure alone leads to the heuristic sum. *)
Theorem NewStream_size_paths (patchMediaType : string → string)
    (p : Player) (uri : string) (c : Claim) (stream_source : option Source)
    (s : Stream) (sdo : option SDBlob) (st st' : St BS) :
  NewStream patchMediaType p uri c stream_source = Ok s →
  st_stream st = with_sdBlob sdo s →
  setSize st = Ok (tt, st') →
  (0 < Size s ∧ st' = st)
  ∨ (Size s <= 0
     ∧ ∃ sd, sdo = Some sd
       ∧ let n := len (BlobInfos sd) in
         (n <= 1 ∧ st' = upd_stream (with_Size 0) st)
         ∨ (2 <= n
            ∧ ∃ last chunk e b,
                index (BlobInfos sd) (n - 2) = Some last
                ∧ bs_GetChunk (hex_EncodeToString (BlobHash last)) (Key sd)
                    (IV last) (st_bs st) = ((chunk, e), b)
                ∧ st'
                  = upd_stream
                      (with_Size
                         match e with
                         | None =>
                             wrap_uint64
                               (MaxChunkSize * (n - 2) + chunk_len chunk)
                         | Some _ =>
                             wrap_uint64 (heuristic_sum (BlobInfos sd) - 16)
                         end)
                      (upd_bs b [fetch_event sd last] st))).
Proof.
  intros Hnew Hst H.
  assert (Hs : Size s = GetSize (source s)
               ∧ Value_has_stream (claim s) = true).
  { unfold NewStream in Hnew.
    destruct (Value_has_stream c) eqn:Hv; [| discriminate].
    destruct stream_source as [src |]; [| discriminate].
    injection Hnew as <-. cbn. auto. }
  destruct Hs as [HSize Hval].
  assert (Hst_Size : Size (st_stream st) = Size s)
    by (rewrite Hst; now destruct s).
  assert (Hst_src : source (st_stream st) = source s)
    by (rewrite Hst; now destruct s).
  assert (Hst_claim : claim (st_stream st) = claim s)
    by (rewrite Hst; now destruct s).
  assert (Hst_sd : sdBlob (st_stream st) = sdo)
    by (rewrite Hst; now destruct s).
  apply setSize_inv in H. cbv zeta in H.
  rewrite Hst_Size, Hst_src in H.
  destruct H as [[Hpos ->] | [(Hz & Hpos & _) | (Hz & _ & H)]];
    [left; auto | lia |].
  right. split; [exact Hz |].
  destruct H as (sz & err & st1 & Hlb & H).
  inversion Hlb as [Hno | sd Hyes Hsd Hn | sd last chunk e b Hyes Hsd Hn Hl Hg];
    subst.
  - rewrite Hst_claim in Hno. congruence.
  - exists sd. split; [congruence |]. left. split; [exact Hn |]. exact H.
  - exists sd. split; [congruence |]. right. split; [exact Hn |].
    exists last, chunk, err, b. split; [exact Hl |]. split; [exact Hg |].
    destruct err as [e |].
    + destruct H as (sd' & Hsd' & ->).
      assert (sd' = sd) by congruence. subst sd'. reflexivity.
    + exact H.
Qed.

End MoreNewStream.

(** * The further properties on concrete streams and requests *)

Section MoreConcrete.
Import Fixture.
Import Scenario.

(** ** Seek *)

Lemma Seek_from_end_witness :
  let st := state (a_stream 10) mem_small in
  Seek 3 io_SeekEnd st = Ok ((7, None), upd_stream (with_seekOffset 7) st).
Proof.
  intros st.
  apply (Seek_from_end 3 st); cbn; unfold MaxInt64; lia.
Defined.

Lemma Seek_from_end_huge_witness :
  let st := state (a_stream (2 ^ 63)) mem_small in
  Seek 0 io_SeekEnd st = Ok ((0, Some errSeekingBeforeStart), st).
Proof.
  intros st. apply (Seek_from_end_huge st). cbn. lia.
Defined.

Lemma Seek_start_then_current_witness :
  let st := state (a_stream 10) mem_small in
  Seek 4 io_SeekStart st = Ok ((4, None), upd_stream (with_seekOffset 4) st)
  ∧ Seek (-3) io_SeekCurrent (upd_stream (with_seekOffset 4) st)
    = Seek 1 io_SeekStart st
  ∧ Seek 1 io_SeekStart st
    = Ok ((1, None), upd_stream (with_seekOffset 1) st).
Proof.
  intros st.
  assert (H : Seek 4 io_SeekStart st
              = Ok ((4, None), upd_stream (with_seekOffset 4) st))
    by (vm_compute; reflexivity).
  split; [exact H |].
  apply (Seek_start_then_current 4 (-3) st (upd_stream (with_seekOffset 4) st)
           (4, None)); [cbn; lia .. | exact H].
Defined.

Lemma Seek_current_unchecked_witness :
  let st := state (with_seek sd_small 8 (a_stream 10)) mem_small in
  Size (st_stream st) = 10
  ∧ Seek 5 io_SeekCurrent st
    = Ok ((13, None), upd_stream (with_seekOffset 13) st).
Proof.
  intros st. split; [reflexivity |].
  apply (Seek_current_unchecked 5 st); cbn; lia.
Defined.

(** ** Read *)

Lemma Read_advances_by_count_witness :
  let st := state (with_seek sd_small 15 (a_stream 15)) mem_small in
  ∃ st',
    Read "0123456789" st = Ok ((0, Some errOutOfBounds, "0123456789"), st')
    ∧ seekOffset (st_stream st') = 15
    ∧ st_out_bytes st' = 0
    ∧ URI (st_stream st') = "my-movie#abc"
    ∧ hash (st_stream st') = "73"
    ∧ Size (st_stream st') = 15.
Proof.
  intros st.
  assert (H : ∃ st', Read "0123456789" st
                     = Ok ((0, Some errOutOfBounds, "0123456789"), st'))
    by (eexists; vm_compute; reflexivity).
  destruct H as [st' H]. exists st'. split; [exact H |].
  destruct (Read_advances_by_count _ _ _ _ _ _ H)
    as (_ & Hoff & Hout & HURI & _ & Hhash & _ & _ & _ & HSize & _).
  auto 10.
Defined.

(** The chunk is copied into the buffer, and the count returned is 0. *)
Lemma Read_without_error_counts_zero_witness :
  let st := state (with_seek sd_hello 0 (a_stream 5)) mem_hello in
  ∃ st',
    Read "0123456789" st = Ok ((0, None, "hello56789"), st')
    ∧ seekOffset (st_stream st') = 0
    ∧ st_out_bytes st' = 0.
Proof.
  intros st.
  assert (H : ∃ st', Read "0123456789" st
                     = Ok ((0, None, "hello56789"), st'))
    by (eexists; vm_compute; reflexivity).
  destruct H as [st' H]. exists st'. split; [exact H |].
  destruct (Read_without_error_counts_zero "0123456789" st st' 0 "hello56789")
    as (_ & Hoff & Hout); [cbn; lia | exact H |].
  auto.
Defined.

Lemma nil_descriptor_panics_witness :
  let st := state (a_stream 15) mem_small in
  sdBlob (st_stream st) = None
  ∧ Read "0123456789" st = Panic
  ∧ GetChunk 0 st = Panic.
Proof.
  intros st. split; [reflexivity |].
  destruct (nil_descriptor_panics st eq_refl) as (HR & HG & _).
  split; [apply HR | apply HG].
Defined.

Lemma attemptReadFromChunks_fetches_range_witness :
  let st := state (with_seek sd_hello 0 (a_stream 5)) mem_hello in
  let sr := getRange 0 10 in
  ∃ st' bis,
    attemptReadFromChunks sr "0123456789" st
    = Ok ((1, 5, None, "hello56789"), st')
    ∧ length bis = 1%nat
    ∧ st_trace st' = st_trace st ++ map (fetch_event sd_hello) bis.
Proof.
  intros st sr.
  assert (H : ∃ st', attemptReadFromChunks sr "0123456789" st
                     = Ok ((1, 5, None, "hello56789"), st'))
    by (eexists; vm_compute; reflexivity).
  destruct H as [st' H].
  destruct (attemptReadFromChunks_fetches_range sr "0123456789" st st'
              sd_hello 1 5 "hello56789" eq_refl H)
    as (bis & Hlen & _ & Htr).
  exists st', bis. auto.
Defined.

(** ** Chunks *)

Lemma prefetch_scheduled_once_witness :
  let st := state (with_seek sd_small 0 (a_stream 15)) mem_small in
  ∃ st',
    run_op (OpGetChunk 0) st = Ok (tt, st')
    ∧ st_spawned st' = [1]
    ∧ scheduled_once st'.
Proof.
  intros st.
  assert (H : ∃ st', run_op (OpGetChunk 0) st = Ok (tt, st')
                     ∧ st_spawned st' = [1])
    by (eexists; split; vm_compute; reflexivity).
  destruct H as (st' & H & Hsp). exists st'.
  split; [exact H |]. split; [exact Hsp |].
  apply (prefetch_scheduled_once (OpGetChunk 0) st st'); [| exact H].
  split; [constructor |]. intros k Hk. now apply elem_of_nil in Hk.
Defined.

Lemma GetChunk_schedules_nothing_witness :
  let st := state (with_seek sd_small 0 (a_stream 15))
              (mem_without_blobs sd_small) in
  ∃ st',
    GetChunk 0 st = Ok ((None, Some errBlobNotFound), st')
    ∧ st_stream st' = st_stream st
    ∧ st_spawned st' = [].
Proof.
  intros st.
  assert (H : ∃ st', GetChunk 0 st = Ok ((None, Some errBlobNotFound), st'))
    by (eexists; vm_compute; reflexivity).
  destruct H as [st' H]. exists st'. split; [exact H |].
  apply (GetChunk_schedules_nothing 0 st st' None (Some errBlobNotFound) H).
  right. right. reflexivity.
Defined.

Lemma prefetchChunk_bounded_witness :
  let st := state (with_seek sd_small 0 (a_stream 15)) mem_small in
  ∃ st' evs,
    prefetchChunk 1 st = Ok (tt, st')
    ∧ st_trace st' = st_trace st ++ evs
    ∧ Z.of_nat (length (List.filter is_fetch evs)) <= 2.
Proof.
  intros st.
  destruct (prefetchChunk_bounded st sd_small 1 eq_refl)
    as (st' & evs & Hrun & Htr & Hf & _);
    [vm_compute; discriminate | unfold MaxInt64; lia |].
  exists st', evs. split; [exact Hrun |]. split; [exact Htr |]. exact Hf.
Defined.

(** ** PrepareForReading *)

Lemma PrepareForReading_calls_witness :
  let st := state (a_stream 0) mem_small in
  ∃ st' evs,
    PrepareForReading st = Ok (None, st')
    ∧ st_trace st' = st_trace st ++ EvGetSDBlob "73" :: evs
    ∧ (length evs <= 1)%nat
    ∧ st_spawned st' = [].
Proof.
  intros st.
  assert (H : ∃ st', PrepareForReading st = Ok (None, st'))
    by (eexists; vm_compute; reflexivity).
  destruct H as [st' H].
  destruct (PrepareForReading_calls st st' None H)
    as (evs & Htr & Hlen & _ & _ & _ & Hsp & _).
  exists st', evs. auto.
Defined.

(** ** The handlers *)

Lemma Handle_failure_response_witness :
  let st := state (a_stream 0) mem_small in
  let r := request "GET" "/content/claims/missing/0/stream"
             [("claim_name", "missing"); ("claim_id", "0")] in
  ∃ st',
    Handle (HOps := StrictHandler) r st = Ok (tt, st')
    ∧ refused (H := StrictHandler) st st' [EvResolveStream "missing#0"]
        errStreamNotFound.
Proof.
  intros st r.
  assert (H : ∃ st', Handle (HOps := StrictHandler) r st = Ok (tt, st'))
    by (eexists; vm_compute; reflexivity).
  destruct H as [st' H]. exists st'. split; [exact H |].
  destruct (Handle_failure_response (HOps := StrictHandler) r st st'
              "missing#0" "" eq_refl H) as (Hres & _).
  apply (Hres errStreamNotFound mem_small). reflexivity.
Defined.

Lemma Handle_plays_only_verified_witness :
  let st := state (a_stream 0) mem_small in
  let r := request "GET" "/content/claims/my-movie/abc/stream"
             [("claim_name", "my-movie"); ("claim_id", "abc");
              ("token", "ok")] in
  ∃ st' evs,
    Handle (HOps := StrictHandler) r st = Ok (tt, st')
    ∧ st_trace st' = st_trace st ++ evs
    ∧ EvPlay ∈ evs
    ∧ ∃ s b1 b2,
        ResolveStream (HandlerOps := StrictHandler) "my-movie#abc" (st_bs st)
        = (inl s, b1)
        ∧ VerifyAccess (HandlerOps := StrictHandler) s "ok" b1 = (None, b2).
Proof.
  intros st r.
  assert (H : ∃ st' evs,
             Handle (HOps := StrictHandler) r st = Ok (tt, st')
             ∧ st_trace st' = st_trace st ++ evs
             ∧ evs = [EvResolveStream "my-movie#abc"; EvVerifyAccess "ok";
                      EvGetSDBlob "73"; EvGetChunk "63" "K" "C"; EvPlay]).
  { eexists. eexists. split; [vm_compute; reflexivity |].
    split; vm_compute; reflexivity. }
  destruct H as (st' & evs & H & Htr & Hevs).
  assert (Hplay : EvPlay ∈ evs).
  { rewrite Hevs. do 4 apply list_elem_of_further. apply list_elem_of_here. }
  exists st', evs. split; [exact H |]. split; [exact Htr |].
  split; [exact Hplay |].
  destruct (Handle_plays_only_verified (HOps := StrictHandler) r st st' evs
              H Htr Hplay)
    as (_ & uri & token & s & b1 & b2 & st2 & Ht & HR & HV & _).
  vm_compute in Ht. injection Ht as <- <-.
  exists s, b1, b2. split; [exact HR | exact HV].
Defined.

Lemma Handle_without_body_witness :
  let st := state (a_stream 0) mem_small in
  let r := request "HEAD" "/content/claims/my-movie/abc/stream"
             [("claim_name", "my-movie"); ("claim_id", "abc");
              ("token", "ok")] in
  ∃ st',
    Handle (HOps := StrictHandler) r st = Ok (tt, st')
    ∧ st_resp st' = [WriteHeader 200]
    ∧ st_header st' !! "Content-Length" = Some "4194277".
Proof.
  intros st r.
  assert (Hp : ∃ st2,
             PrepareForReading
               (upd_bs mem_small [EvVerifyAccess "ok"]
                  (upd_stream (λ _, a_stream 0)
                     (upd_bs mem_small [EvResolveStream "my-movie#abc"] st)))
             = Ok (None, st2)
             ∧ Size (st_stream st2) = 4194277).
  { eexists. split; vm_compute; reflexivity. }
  destruct Hp as (st2 & Hp & HSize).
  destruct (Handle_without_body (HOps := StrictHandler) r st st2
              "my-movie#abc" "ok" (a_stream 0) mem_small mem_small)
    as (st' & H & Hresp & Hlen & _);
    [reflexivity | discriminate | reflexivity | reflexivity | exact Hp |].
  exists st'. split; [exact H |]. split; [exact Hresp |].
  rewrite Hlen, HSize. reflexivity.
Defined.

Lemma Handle_get_witness :
  let st := state (a_stream 0) mem_small in
  let r := request "GET" "/content/claims/my-movie/abc/stream"
             [("claim_name", "my-movie"); ("claim_id", "abc");
              ("token", "ok")] in
  ∃ st',
    Handle (HOps := StrictHandler) r st = Ok (tt, st')
    ∧ st_resp st' = []
    ∧ st_header st' !! "Content-Length" = Some "4194277".
Proof.
  intros st r.
  assert (Hp : ∃ st2,
             PrepareForReading
               (upd_bs mem_small [EvVerifyAccess "ok"]
                  (upd_stream (λ _, a_stream 0)
                     (upd_bs mem_small [EvResolveStream "my-movie#abc"] st)))
             = Ok (None, st2)
             ∧ Size (st_stream st2) = 4194277).
  { eexists. split; vm_compute; reflexivity. }
  destruct Hp as (st2 & Hp & HSize).
  destruct (Handle_get (HOps := StrictHandler) r st st2
              "my-movie#abc" "ok" (a_stream 0) mem_small mem_small)
    as (st3 & H & _ & Hresp & Hlen & _);
    [reflexivity | reflexivity | reflexivity | reflexivity | exact Hp |].
  exists st3. split; [exact H |]. split; [exact Hresp |].
  rewrite Hlen, HSize. reflexivity.
Defined.

Lemma HandleV4_same_until_resolved_witness :
  let st := state (a_stream 0) mem_small in
  let r := request "GET" "/api/v4/streams/free/missing/0"
             [("claim_name", "missing"); ("claim_id", "0")] in
  ∃ st',
    HandleV4 (HOps := StrictHandler) (TOps := TestTranscoder) r st
    = Ok (tt, st')
    ∧ Handle (HOps := StrictHandler) r st = Ok (tt, st')
    ∧ st_resp st' = [WriteHeader 404; Write "stream not found"].
Proof.
  intros st r.
  assert (H : ∃ st', Handle (HOps := StrictHandler) r st = Ok (tt, st')
                     ∧ st_resp st'
                       = [WriteHeader 404; Write "stream not found"])
    by (eexists; split; vm_compute; reflexivity).
  destruct H as (st' & H & Hresp). exists st'.
  split; [| split; [exact H | exact Hresp]].
  rewrite <- H.
  apply (HandleV4_same_until_resolved (HOps := StrictHandler)
           (TOps := TestTranscoder) r st).
  intros uri token Ht. vm_compute in Ht. injection Ht as <- <-.
  exists errStreamNotFound, mem_small. reflexivity.
Defined.

(** A token that the access check would refuse does not stop the redirect. *)
Lemma HandleV4_redirects_unverified_witness :
  let st := state (a_stream 0) mem_transcoded in
  let r := request "GET" "/api/v4/streams/free/my-movie/abc"
             [("claim_name", "my-movie"); ("claim_id", "abc");
              ("token", "bad")] in
  VerifyAccess (HandlerOps := StrictHandler) (a_stream 0) "bad" mem_transcoded
  = (Some (errors_New "token is expired"), mem_transcoded)
  ∧ ∃ st',
      HandleV4 (HOps := StrictHandler) (TOps := TestTranscoder) r st
      = Ok (tt, st')
      ∧ st_trace st' = [EvResolveStream "my-movie#abc"]
      ∧ st_resp st' = [WriteHeader 308]
      ∧ st_header st' !! "Location"
        = Some "/api/v4/streams/t/hls/abc/master.m3u8".
Proof.
  intros st r. split; [reflexivity |].
  destruct (HandleV4_redirects_unverified (HOps := StrictHandler)
              (TOps := TestTranscoder) r st "my-movie#abc" "bad"
              (a_stream 0) mem_transcoded mem_transcoded "hls/abc" tt)
    as (st1 & Hrun & Htr & _ & _ & Hresp & Hhead);
    [reflexivity | reflexivity | reflexivity |].
  rewrite Hrun. eexists. split; [reflexivity |].
  cbn. rewrite Htr, Hresp. split; [reflexivity |]. split; [reflexivity |].
  apply lookup_insert_eq.
Defined.

Lemma HandleV4_falls_back_witness :
  let st := state (a_stream 0) mem_small in
  let r := request "HEAD" "/api/v4/streams/free/my-movie/abc"
             [("claim_name", "my-movie"); ("claim_id", "abc");
              ("token", "ok")] in
  HandleV4 (HOps := StrictHandler) (TOps := TestTranscoder) r st
  = Handle (HOps := StrictHandler) r st.
Proof.
  intros st r.
  destruct (HandleV4_falls_back (HOps := StrictHandler)
              (TOps := TestTranscoder) r st "my-movie#abc" "ok"
              (a_stream 0) mem_small mem_small mem_small tt
              (Some (errors_New "download refused")))
    as (_ & Hsame); [reflexivity | reflexivity | reflexivity | reflexivity |].
  apply Hsame. reflexivity.
Defined.

(** ** The file name *)

Lemma Content_Disposition_bytes_witness :
  let filename :=
    ReplaceAllString (filename_class (HOps := StrictHandler))
      "My Movie; x=1.mp4" "" in
  filename = "My Movie x1.mp4"
  ∧ Forall (λ c, filename_byte c = true) (bytes_of filename)
  ∧ Forall (λ c, escaped_byte c = true) (bytes_of (url_PathEscape filename)).
Proof.
  intros filename. split; [vm_compute; reflexivity |].
  apply (Content_Disposition_bytes (HOps := StrictHandler)).
  intros c Hc. reflexivity.
Defined.

(** ** Construction *)

Lemma NewStream_size_paths_witness :
  ∃ s st',
    NewStream (λ t, t) a_player "my-movie#abc" a_claim (Some (a_source 0))
    = Ok s
    ∧ setSize (state (with_sdBlob (Some sd_small) s) mem_small)
      = Ok (tt, st')
    ∧ Size (st_stream st') = 4194277.
Proof.
  assert (H : ∃ s st',
             NewStream (λ t, t) a_player "my-movie#abc" a_claim
               (Some (a_source 0)) = Ok s
             ∧ setSize (state (with_sdBlob (Some sd_small) s) mem_small)
               = Ok (tt, st')).
  { eexists. eexists. split; [reflexivity |]. vm_compute. reflexivity. }
  destruct H as (s & st' & Hnew & Hset). exists s, st'.
  split; [exact Hnew |]. split; [exact Hset |].
  destruct (NewStream_size_paths _ _ _ _ _ s (Some sd_small)
              (state (with_sdBlob (Some sd_small) s) mem_small) st' Hnew
              eq_refl Hset) as [[Hpos _] | (_ & sd & Hsd & Hcase)].
  - injection Hnew as <-. cbn in Hpos. lia.
  - injection Hsd as <-. cbv zeta in Hcase.
    destruct Hcase as [[Hn _] | (_ & last & chunk & e & b & Hl & Hg & ->)].
    + vm_compute in Hn. contradiction.
    + vm_compute in Hl. injection Hl as <-.
      vm_compute in Hg. injection Hg as <- <- _. reflexivity.
Defined.

End MoreConcrete.
